(** * c-AVL: a shallow embedding of [avl.c] and its specification

    The program keeps a height-balanced binary search tree keyed on
    C strings, with a multiplicity count per key.  This development
    embeds the node model and the operations [insert], [search],
    [deleteFromTree], the two rotations and [rebalance] as Rocq
    functions, and states the properties of the specification over them.
    It also embeds the views ([view], [printInOrder]), the word import
    ([importFile]) and the file selector [isTextFile], with further
    properties read off the code.

    Conventions of the embedding

    - A [Node*] is a value of type [Node]: either [NULL] or a node with
      the five fields of [struct node].  Every node is owned by exactly
      one parent slot, so in-place updates are rebuilt values.
    - An [int] is a [Z].  The counter of a node is incremented with the
      wrap-around of a 32-bit two's-complement [int] ([wrap_int]), which
      is what the program does on the usual targets once a count passes
      [INT_MAX]; so is the index of the import buffer.  A [size_t] is
      64 bits wide ([wrap_size]).
    - A word is a [string]; [strcmp] is the byte-wise lexicographic
      comparison, of which the program only ever tests the sign.
    - Dereferencing [NULL], like a write outside the import buffer, is
      a failure ([None]) of the monad [M].
    - [rand()] reads the next value of a sequence held in the [World];
      [printf] appends a line to the [World]'s standard output.
    - Each rotation records itself in a call trace kept in the [World]
      (the source has no such trace: its diagnostic prints are compiled
      out by [#define VERBOSE 0]). *)

From Stdlib Require Import ZArith List String Ascii Bool Lia.
From Stdlib Require Import Sorted OrderedTypeEx.
Import ListNotations.
Open Scope string_scope.
Open Scope list_scope.
Open Scope Z_scope.

(** ** Data model *)

(** [typedef struct node { char *word; int count; struct node *left;
    struct node *right; int height; } Node;]  The type below is the
    pointer type [Node*]. *)
Inductive Node : Type :=
| NULL : Node
| node (word : string) (count : Z) (left right : Node) (height : Z) : Node.

(** [typedef struct tree { struct node *root; } Tree;] *)
Record Tree : Type := mkTree { root : Node }.

(** Lines the core writes on standard output. *)
Inductive line : Type :=
| NotFoundLine (word : string)   (* "%s not found. Unable to delete." *)
| EmptyLine (word : string)      (* "Tree is empty. Cannot remove '%s'." *)
| FoundLine (count : Z) (word : string) (* "Found %d instance%s of '%s'" *)
| WordNotFoundLine.              (* "Word not found." *)

(** Entries of the call trace of the rotations. *)
Inductive rotation : Type :=
| RotLeft (word : string)
| RotRight (word : string).

(** What the program reads and writes besides the tree. *)
Record World : Type := mkWorld {
  rand_src : nat -> Z;        (* the values successive rand() calls return *)
  rand_calls : nat;           (* how many rand() calls were made *)
  stdout : list line;         (* printed lines, oldest first *)
  rotations : list rotation   (* rotations performed, oldest first *)
}.

(** ** The monad of the program: state and NULL-dereference failure *)

Definition M (A : Type) : Type := World -> option (A * World).

Definition ret {A : Type} (a : A) : M A := fun w => Some (a, w).

Definition bind {A B : Type} (m : M A) (k : A -> M B) : M B :=
  fun w => match m w with
           | Some (a, w') => k a w'
           | None => None
           end.

Definition fail {A : Type} : M A := fun _ => None.

Definition lift {A : Type} (o : option A) : M A :=
  fun w => match o with
           | Some a => Some (a, w)
           | None => None
           end.

Declare Scope avl_scope.
Delimit Scope avl_scope with avl.
Notation "x <- m ;; k" := (bind m (fun x => k))
  (at level 61, m at next level, right associativity) : avl_scope.
Notation "m ;; k" := (bind m (fun _ => k))
  (at level 61, right associativity) : avl_scope.
Open Scope avl_scope.

(** [rand()] *)
Definition rand : M Z :=
  fun w => Some (rand_src w (rand_calls w),
                 mkWorld (rand_src w) (S (rand_calls w)) (stdout w) (rotations w)).

(** [printf] of one line *)
Definition printf (l : line) : M unit :=
  fun w => Some (tt, mkWorld (rand_src w) (rand_calls w) (stdout w ++ [l]) (rotations w)).

(** Records one rotation in the call trace. *)
Definition trace (r : rotation) : M unit :=
  fun w => Some (tt, mkWorld (rand_src w) (rand_calls w) (stdout w) (rotations w ++ [r])).

(** ** Field access through a pointer *)

Definition word_of (p : Node) : option string :=
  match p with NULL => None | node w _ _ _ _ => Some w end.

Definition count_of (p : Node) : option Z :=
  match p with NULL => None | node _ c _ _ _ => Some c end.

Definition left_of (p : Node) : option Node :=
  match p with NULL => None | node _ _ l _ _ => Some l end.

Definition right_of (p : Node) : option Node :=
  match p with NULL => None | node _ _ _ r _ => Some r end.

(** ** Miscellaneous helpers of [avl.c] *)

(** [strcmp]: negative, zero or positive; only the sign is specified. *)
Definition strcmp (a b : string) : Z :=
  match String.compare a b with
  | Eq => 0
  | Lt => -1
  | Gt => 1
  end.

(** The bounds of a 32-bit [int]. *)
Definition INT_MAX : Z := 2147483647.

Definition INT_MIN : Z := -2147483648.

(** The value a 32-bit two's-complement [int] holds after an arithmetic
    result [z]. *)
Definition wrap_int (z : Z) : Z := (z + 2147483648) mod 4294967296 - 2147483648.

(** The value a 64-bit [size_t] holds after an arithmetic result [z],
    and the conversion of an [int] to [size_t]. *)
Definition wrap_size (z : Z) : Z := z mod 18446744073709551616.

(** [int max(int a, int b) { return (a > b) ? a : b; }] *)
Definition max (a b : Z) : Z := if a >? b then a else b.

(** [int height(Node *root)] *)
Definition height (root : Node) : Z :=
  match root with
  | NULL => 0
  | node _ _ _ _ h => h
  end.

(** [int getBalance(Node *root)] *)
Definition getBalance (root : Node) : Z :=
  match root with
  | NULL => 0
  | node _ _ l r _ => height l - height r
  end.

(** [Node* largestIn(Node *root)]; precondition: root is non-null. *)
Fixpoint largestIn (root : Node) : option Node :=
  match root with
  | NULL => None
  | node _ _ _ r _ =>
      match r with
      | NULL => Some root
      | node _ _ _ _ _ => largestIn r
      end
  end.

(** [Node* smallestIn(Node *root)]; precondition: root is non-null. *)
Fixpoint smallestIn (root : Node) : option Node :=
  match root with
  | NULL => None
  | node _ _ l _ _ =>
      match l with
      | NULL => Some root
      | node _ _ _ _ _ => smallestIn l
      end
  end.

(** [Node* createNode(char *word)]; allocation is taken to succeed (the
    source exits the process when it does not). *)
Definition createNode (word : string) : Node := node word 1 NULL NULL 1.

(** [Tree* createTree()] *)
Definition createTree : Tree := mkTree NULL.

(** ** Rotations and rebalancing *)

(** [Node* rotateLeft(Node *root)] *)
Definition rotateLeft (root : Node) : M Node :=
  match root with
  | NULL => fail
  | node xw xc xl rightChild _ =>
      match rightChild with
      | NULL => fail
      | node yw yc temp yr _ =>
          trace (RotLeft xw) ;;
          let root' := node xw xc xl temp (max (height xl) (height temp) + 1) in
          ret (node yw yc root' yr (max (height root') (height yr) + 1))
      end
  end.

(** [Node* rotateRight(Node *root)] *)
Definition rotateRight (root : Node) : M Node :=
  match root with
  | NULL => fail
  | node yw yc leftChild yr _ =>
      match leftChild with
      | NULL => fail
      | node xw xc xl temp _ =>
          trace (RotRight yw) ;;
          let root' := node yw yc temp yr (max (height temp) (height yr) + 1) in
          ret (node xw xc xl root' (max (height xl) (height root') + 1))
      end
  end.

(** [root->left = p] and [root->right = p] *)
Definition set_left (root p : Node) : option Node :=
  match root with NULL => None | node w c _ r h => Some (node w c p r h) end.

Definition set_right (root p : Node) : option Node :=
  match root with NULL => None | node w c l _ h => Some (node w c l p h) end.

(** [Node* rebalance(Node *root)].  The tests are the source's: strict
    comparisons of the child's balance factor, with [&&] evaluating
    [root->left] or [root->right] only when its left operand holds. *)
Definition rebalance (root : Node) : M Node :=
  let balance := getBalance root in
  c1 <- (if balance >? 1
         then l <- lift (left_of root) ;; ret (getBalance l >? 0)
         else ret false) ;;
  if c1 : bool then rotateRight root else
  c2 <- (if balance <? -1
         then r <- lift (right_of root) ;; ret (getBalance r <? 0)
         else ret false) ;;
  if c2 : bool then rotateLeft root else
  c3 <- (if balance >? 1
         then l <- lift (left_of root) ;; ret (getBalance l <? 0)
         else ret false) ;;
  if c3 : bool then
    l <- lift (left_of root) ;;
    l' <- rotateLeft l ;;
    root' <- lift (set_left root l') ;;
    rotateRight root'
  else
  c4 <- (if balance <? -1
         then r <- lift (right_of root) ;; ret (getBalance r >? 0)
         else ret false) ;;
  if c4 : bool then
    r <- lift (right_of root) ;;
    r' <- rotateRight r ;;
    root' <- lift (set_right root r') ;;
    rotateLeft root'
  else ret root.

(** The common tail of [insertAux] and [deleteAux] on a non-null root
    whose fields are [w], [c], [l], [r]:
    [root->height = max(height(root->left), height(root->right)) + 1;
     return rebalance(root);] *)
Definition retrace (w : string) (c : Z) (l r : Node) : M Node :=
  rebalance (node w c l r (max (height l) (height r) + 1)).

(** ** Insert *)

(** [Node* insertAux(Node* root, char *word)] *)
Fixpoint insertAux (root : Node) (word : string) {struct root} : M Node :=
  match root with
  | node rw rc rl rr _ =>
      let cmp := strcmp word rw in
      if cmp >? 0 then
        rr' <- insertAux rr word ;;
        retrace rw rc rl rr'
      else if cmp <? 0 then
        rl' <- insertAux rl word ;;
        retrace rw rc rl' rr
      else
        retrace rw (wrap_int (rc + 1)) rl rr
  | NULL => ret (createNode word)
  end.

(** [void insert(Tree *tree, char *word)] *)
Definition insert (tree : Tree) (word : string) : M Tree :=
  match root tree with
  | node _ _ _ _ _ =>
      r <- insertAux (root tree) word ;;
      ret (mkTree r)
  | NULL => ret (mkTree (createNode word))
  end.

(** ** Search *)

(** [Node* searchAux(Node *root, char *word)] *)
Fixpoint searchAux (root : Node) (word : string) {struct root} : Node :=
  match root with
  | node rw _ rl rr _ =>
      let cmp := strcmp word rw in
      if cmp >? 0 then searchAux rr word
      else if cmp <? 0 then searchAux rl word
      else root
  | NULL => NULL
  end.

(** [Node* search(Tree *tree, char *word)] *)
Definition search (tree : Tree) (word : string) : Node :=
  match root tree with
  | node _ _ _ _ _ => searchAux (root tree) word
  | NULL => NULL
  end.

(** ** Delete *)

(** [Node* deleteAux(Node *root, char *word, int forceful)] *)
Fixpoint deleteAux (root : Node) (word : string) (forceful : Z) {struct root} : M Node :=
  match root with
  | node rw rc rl rr rh =>
      let cmp := strcmp word rw in
      if cmp >? 0 then
        rr' <- deleteAux rr word forceful ;;
        retrace rw rc rl rr'
      else if cmp <? 0 then
        rl' <- deleteAux rl word forceful ;;
        retrace rw rc rl' rr
      else if (rc =? 1) || negb (forceful =? 0) then
        match rl with
        | node _ _ _ _ _ =>
            match rr with
            | node _ _ _ _ _ =>
                x <- rand ;;
                let path := Z.rem x 2 in
                if negb (path =? 0) then
                  temp <- lift (smallestIn rr) ;;
                  tw <- lift (word_of temp) ;;
                  tc <- lift (count_of temp) ;;
                  rr' <- deleteAux rr tw 1 ;;
                  retrace tw tc rl rr'
                else
                  temp <- lift (largestIn rr) ;;
                  tw <- lift (word_of temp) ;;
                  tc <- lift (count_of temp) ;;
                  rl' <- deleteAux rl tw 1 ;;
                  retrace tw tc rl' rr
            | NULL => ret rl
            end
        | NULL =>
            match rr with
            | node _ _ _ _ _ => ret rr
            | NULL => ret NULL
            end
        end
      else ret (node rw (rc - 1) rl rr rh)
  | NULL =>
      printf (NotFoundLine word) ;;
      ret NULL
  end.

(** [void deleteFromTree(Tree *tree, char *word)] *)
Definition deleteFromTree (tree : Tree) (word : string) : M Tree :=
  match root tree with
  | node _ _ _ _ _ =>
      r <- deleteAux (root tree) word 0 ;;
      ret (mkTree r)
  | NULL =>
      printf (EmptyLine word) ;;
      ret tree
  end.

(** ** The command loop of [main], cases 1 (insert), 2 (search), 3 (delete) *)

Inductive command : Type :=
| CmdInsert (word : string)
| CmdSearch (word : string)
| CmdDelete (word : string).

(** One iteration of the [switch] of [main].  The address lines that
    case 2 prints are left out. *)
Definition execute (tree : Tree) (c : command) : M Tree :=
  match c with
  | CmdInsert word => insert tree word
  | CmdSearch word =>
      match search tree word with
      | node rw rc _ _ _ => printf (FoundLine rc rw) ;; ret tree
      | NULL => printf WordNotFoundLine ;; ret tree
      end
  | CmdDelete word => deleteFromTree tree word
  end.

(** A run of the loop over a list of commands. *)
Fixpoint run (tree : Tree) (cs : list command) {struct cs} : M Tree :=
  match cs with
  | [] => ret tree
  | c :: cs' => tree' <- execute tree c ;; run tree' cs'
  end.

(** A fresh process: no [rand()] call made, nothing printed. *)
Definition boot (src : nat -> Z) : World := mkWorld src 0 [] [].

(** ** Observations and invariants of the data model *)

(** The (word, count) pairs in in-order, the order of [printInOrder]. *)
Fixpoint inorder (t : Node) : list (string * Z) :=
  match t with
  | NULL => []
  | node w c l r _ => inorder l ++ (w, c) :: inorder r
  end.

Definition keys (t : Node) : list string := List.map fst (inorder t).

(** [a] compares strictly less than [b]. *)
Definition slt (a b : string) : Prop := strcmp a b < 0.

(** Strictly ascending sequence of words. *)
Definition ascending (ks : list string) : Prop := StronglySorted slt ks.

(** Invariant 1, BST order: at every node the keys on the left compare
    strictly less than the node's key, those on the right strictly
    greater. *)
Fixpoint bst (t : Node) : Prop :=
  match t with
  | NULL => True
  | node w _ l r _ =>
      Forall (fun x => slt x w) (keys l) /\
      Forall (fun x => slt w x) (keys r) /\
      bst l /\ bst r
  end.

(** The height of a subtree as the specification defines it. *)
Fixpoint true_height (t : Node) : Z :=
  match t with
  | NULL => 0
  | node _ _ l r _ => 1 + Z.max (true_height l) (true_height r)
  end.

(** Invariant 4, height correctness: every height field is the true
    height of its subtree. *)
Fixpoint heights_ok (t : Node) : Prop :=
  match t with
  | NULL => True
  | node _ _ l r h =>
      h = 1 + Z.max (true_height l) (true_height r) /\
      heights_ok l /\ heights_ok r
  end.

(** Invariant 3, AVL balance, on the true heights. *)
Fixpoint balanced (t : Node) : Prop :=
  match t with
  | NULL => True
  | node _ _ l r _ =>
      -1 <= true_height l - true_height r <= 1 /\
      balanced l /\ balanced r
  end.

(** Boolean versions, for evaluation on concrete trees. *)
Fixpoint balancedb (t : Node) : bool :=
  match t with
  | NULL => true
  | node _ _ l r _ =>
      (-1 <=? true_height l - true_height r)
      && (true_height l - true_height r <=? 1)
      && balancedb l && balancedb r
  end.

Fixpoint ascendingb (ks : list string) : bool :=
  match ks with
  | [] => true
  | a :: rest =>
      match rest with
      | [] => true
      | b :: _ => (strcmp a b <? 0) && ascendingb rest
      end
  end.

(** [p] is a node of the tree [t]. *)
Inductive node_of (p : Node) : Node -> Prop :=
| node_here : forall w c l r h, p = node w c l r h -> node_of p (node w c l r h)
| node_left : forall w c l r h, node_of p l -> node_of p (node w c l r h)
| node_right : forall w c l r h, node_of p r -> node_of p (node w c l r h).

(** The count stored for [k] in an in-order sequence. *)
Fixpoint lookup (k : string) (es : list (string * Z)) : option Z :=
  match es with
  | [] => None
  | (w, c) :: rest => if strcmp k w =? 0 then Some c else lookup k rest
  end.

(** What an insert does to the in-order sequence of a search tree. *)
Fixpoint add_entry (k : string) (es : list (string * Z)) : list (string * Z) :=
  match es with
  | [] => [(k, 1)]
  | (w, c) :: rest =>
      if strcmp k w >? 0 then (w, c) :: add_entry k rest
      else if strcmp k w <? 0 then (k, 1) :: es
      else (w, wrap_int (c + 1)) :: rest
  end.

(** The count found for a word after one more insert of it, from the
    count found before ([None]: no node holds the word). *)
Definition bump (o : option Z) : option Z :=
  Some (match o with Some c => wrap_int (c + 1) | None => 1 end).

(** What a count-decrementing delete does to one entry. *)
Definition dec_entry (k : string) (e : string * Z) : string * Z :=
  if strcmp k (fst e) =? 0 then (fst e, snd e - 1) else e.

(** [n] successive inserts of the same word. *)
Fixpoint insert_times (n : nat) (tree : Tree) (word : string) {struct n} : M Tree :=
  match n with
  | O => ret tree
  | S n' => tree' <- insert tree word ;; insert_times n' tree' word
  end.

(** What removing the node of [k] does to the in-order sequence. *)
Definition remove_entry (k : string) (es : list (string * Z)) : list (string * Z) :=
  List.filter (fun e => negb (strcmp k (fst e) =? 0)) es.

(** A tree with its counts erased: the words, links and height fields. *)
Fixpoint skeleton (t : Node) : Node :=
  match t with
  | NULL => NULL
  | node w _ l r h => node w 0 (skeleton l) (skeleton r) h
  end.

(** The balance factor on the true heights. *)
Definition tbal (t : Node) : Z :=
  match t with
  | NULL => 0
  | node _ _ l r _ => true_height l - true_height r
  end.

(** Two worlds with the same random source, position and output; the
    rotation trace may differ. *)
Definition same_io (w w' : World) : Prop :=
  rand_src w' = rand_src w /\ rand_calls w' = rand_calls w /\ stdout w' = stdout w.

(** ** Views *)

(** What [view] writes: a line of [viewAux], that is [TABS(depth)]
    followed by "%s(%d)", or the line "Empty." *)
Inductive view_line : Type :=
| ViewLine (depth : Z) (word : string) (count : Z)
| ViewEmpty.

(** [void viewAux(Node *root, int depth)], as the lines it prints. *)
Fixpoint viewAux (root : Node) (depth : Z) {struct root} : list view_line :=
  match root with
  | node w c l r _ =>
      viewAux r (depth + 1) ++ ViewLine depth w c :: viewAux l (depth + 1)
  | NULL => []
  end.

(** [void view(Tree *tree)] *)
Definition view (tree : Tree) : list view_line :=
  match root tree with
  | node _ _ _ _ _ => viewAux (root tree) 0
  | NULL => [ViewEmpty]
  end.

(** [void printInOrder(Node *root)], as the words it prints (each after
    a space). *)
Fixpoint printInOrder (root : Node) : list string :=
  match root with
  | node w _ l r _ => printInOrder l ++ w :: printInOrder r
  | NULL => []
  end.

(** The (word, count) pairs shown by a list of view lines. *)
Definition shown (ls : list view_line) : list (string * Z) :=
  List.flat_map (fun l => match l with
                          | ViewLine _ w c => [(w, c)]
                          | ViewEmpty => []
                          end) ls.

(** The depths at which a list of view lines is indented. *)
Definition depths (ls : list view_line) : list Z :=
  List.flat_map (fun l => match l with
                          | ViewLine d _ _ => [d]
                          | ViewEmpty => []
                          end) ls.

(** The number of nodes of a tree. *)
Fixpoint size (t : Node) : Z :=
  match t with
  | NULL => 0
  | node _ _ l r _ => size l + 1 + size r
  end.

(** The count an in-order sequence holds for [k], 0 when it has none. *)
Definition count_in (k : string) (es : list (string * Z)) : Z :=
  match lookup k es with
  | Some c => c
  | None => 0
  end.

(** How often [k] occurs in a list of words. *)
Definition occurrences (k : string) (ws : list string) : Z :=
  Z.of_nat (count_occ string_dec ws k).

(** ** File import *)

(** [isalpha] in the "C" locale, on a byte read by [fgetc]. *)
Definition isalpha (c : ascii) : bool :=
  let n := N_of_ascii c in
  ((65 <=? n)%N && (n <=? 90)%N) || ((97 <=? n)%N && (n <=? 122)%N).

(** [int max_length = 80;] *)
Definition max_length : Z := 80.

(** A write to [word[i]] in a buffer of [current_size] bytes: outside
    the buffer it is a failure of the monad. *)
Definition store (i current_size : Z) : M unit :=
  if (0 <=? i) && (i <? current_size) then ret tt else fail.

(** The number of bytes of a word. *)
Definition filled (word : string) : Z := Z.of_nat (String.length word).

(** The end of one pass of the [do] loop of [importFile]:
    [if (i) { word[i] = 0; insert(tree, word); free(word); }] *)
Definition finish_word (word : string) (i current_size : Z) (tree : Tree) : M Tree :=
  if negb (i =? 0) then
    store i current_size ;;
    insert tree word
  else ret tree.

(** The two nested loops of [importFile], one step per [fgetc].  [word]
    holds the bytes stored so far in the buffer of the current pass,
    [int i] is the index of the next write and [size_t current_size] the
    size of the buffer.  An alphabetic byte is stored by
    [word[i++] = (char) c], and [if (i == current_size)], which compares
    [i] converted to [size_t], doubles the buffer.  A byte that is not
    alphabetic ends the pass and the next pass starts with [i = 0] and a
    fresh buffer of [max_length] bytes; the end of the input ([EOF])
    ends the pass and the loop.  Allocation is taken to succeed. *)
Fixpoint importLoop (input : list ascii) (word : string) (i current_size : Z)
    (tree : Tree) {struct input} : M Tree :=
  match input with
  | c :: rest =>
      if isalpha c then
        store i current_size ;;
        let word' := (word ++ String c "")%string in
        let i' := wrap_int (i + 1) in
        let current_size' :=
          if wrap_size i' =? current_size then wrap_size (current_size * 2)
          else current_size in
        importLoop rest word' i' current_size' tree
      else
        tree' <- finish_word word i current_size tree ;;
        importLoop rest "" 0 max_length tree'
  | [] => finish_word word i current_size tree
  end.

(** [int importFile(FILE* fptr, Tree *tree)], on the bytes of the file. *)
Definition importFile (fptr : list ascii) (tree : Tree) : M (Z * Tree) :=
  tree' <- importLoop fptr "" 0 max_length tree ;;
  ret (0, tree').

(** The buffer of a pass in order: the index is the number of bytes
    stored, it lies inside the buffer, and the buffer has grown by
    doubling from [max_length]. *)
Definition buffer_ok (word : string) (i current_size : Z) : Prop :=
  i = filled word /\ i < current_size /\ current_size <= 2 * i + max_length.

(** The length of the longest run of alphabetic bytes of a file, the
    first run counted from [cur]. *)
Fixpoint longest_run (input : list ascii) (cur : Z) {struct input} : Z :=
  match input with
  | c :: rest =>
      if isalpha c then longest_run rest (cur + 1)
      else Z.max cur (longest_run rest 0)
  | [] => cur
  end.

(** A file laid out as words, each followed by a run of separators. *)
Fixpoint flatten (ps : list (string * list ascii)) : list ascii :=
  match ps with
  | [] => []
  | (w, sep) :: rest => list_ascii_of_string w ++ sep ++ flatten rest
  end.

(** A non-empty word of alphabetic bytes. *)
Definition is_word (w : string) : Prop :=
  w <> "" /\ Forall (fun c => isalpha c = true) (list_ascii_of_string w).

(** A run of bytes none of which is alphabetic. *)
Definition is_gap (sep : list ascii) : Prop :=
  Forall (fun c => isalpha c = false) sep.

(** ** The file selector [isTextFile] *)

(** The two fields of [struct dirent] the program reads. *)
Record dirent : Type := mkDirent { d_type : Z; d_name : string }.

(** [strlen] *)
Definition strlen (s : string) : Z := Z.of_nat (String.length s).

(** [s + k], the string that starts [k] bytes into [s]. *)
Fixpoint offset (s : string) (k : nat) {struct k} : string :=
  match k with
  | O => s
  | S k' => match s with
            | EmptyString => EmptyString
            | String _ s' => offset s' k'
            end
  end.

(** [strncmp]: the sign of the first difference within [n] bytes. *)
Fixpoint strncmp (a b : string) (n : nat) {struct n} : Z :=
  match n with
  | O => 0
  | S n' =>
      match a, b with
      | EmptyString, EmptyString => 0
      | EmptyString, String _ _ => -1
      | String _ _, EmptyString => 1
      | String x a', String y b' =>
          match Ascii.compare x y with
          | Eq => strncmp a' b' n'
          | Lt => -1
          | Gt => 1
          end
      end
  end.

Section Selectors.

(** The file-type constant [DT_REG] of [<dirent.h>]. *)
Variable DT_REG : Z.

(** [int isTextFile(struct dirent *dir)] *)
Definition isTextFile (dir : dirent) : Z :=
  if d_type dir =? DT_REG then
    let name := d_name dir in
    let str_len := strlen name in
    if 4 >? str_len then 0
    else if 0 =? strncmp (offset name (Z.to_nat (str_len - 4))) ".txt" 4 then 1 else 0
  else 0.

End Selectors.

(** ** Facts about [strcmp] *)

Lemma strcmp_eq (a b : string) : strcmp a b = 0 <-> a = b.
Proof.
  unfold strcmp. split.
  - destruct (String.compare a b) eqn:E; try discriminate.
    intros _. now apply String_as_OT.cmp_eq.
  - intros ->. assert (E : String.compare b b = Eq) by now apply String_as_OT.cmp_eq.
    now rewrite E.
Qed.

Lemma slt_compare (a b : string) : slt a b <-> String.compare a b = Lt.
Proof.
  unfold slt, strcmp. destruct (String.compare a b); split; intros; try lia; try discriminate; reflexivity.
Qed.

Lemma strcmp_gt (a b : string) : strcmp a b > 0 <-> slt b a.
Proof.
  rewrite slt_compare. unfold strcmp.
  pose proof (String_as_OT.cmp_antisym b a) as A. unfold String_as_OT.cmp in A. rewrite A.
  destruct (String.compare a b); simpl; split; intros; try lia; try discriminate; reflexivity.
Qed.

Lemma slt_trans (a b c : string) : slt a b -> slt b c -> slt a c.
Proof.
  rewrite !slt_compare. intros H1 H2.
  apply String_as_OT.cmp_lt. apply String_as_OT.lt_trans with b; now apply String_as_OT.cmp_lt.
Qed.

Lemma slt_irrefl (a : string) : ~ slt a a.
Proof.
  unfold slt. intros H. assert (E : strcmp a a = 0) by now apply strcmp_eq. lia.
Qed.

Lemma slt_asym (a b : string) : slt a b -> ~ slt b a.
Proof.
  intros H1 H2. exact (slt_irrefl a (slt_trans _ _ _ H1 H2)).
Qed.

(** The three branches the program takes on a comparison. *)
Lemma strcmp_cases (a b : string) :
  ((strcmp a b >? 0) = true /\ slt b a) \/
  ((strcmp a b >? 0) = false /\ (strcmp a b <? 0) = true /\ slt a b) \/
  ((strcmp a b >? 0) = false /\ (strcmp a b <? 0) = false /\ a = b).
Proof.
  destruct (Z_dec (strcmp a b) 0) as [[L | G] | E].
  - right; left. repeat split; [lia | lia | exact L].
  - left. split; [lia | now apply strcmp_gt].
  - right; right. repeat split; [lia | lia | now apply strcmp_eq].
Qed.

Lemma strcmp_refl (a : string) : strcmp a a = 0.
Proof. now apply strcmp_eq. Qed.

Lemma max_Zmax (a b : Z) : max a b = Z.max a b.
Proof. unfold max. destruct (a >? b) eqn:E; lia. Qed.

(** ** Ascending sequences and the BST invariant *)

Lemma ascending_app (l1 l2 : list string) :
  ascending (l1 ++ l2) <->
  ascending l1 /\ ascending l2 /\ (forall x y, In x l1 -> In y l2 -> slt x y).
Proof.
  unfold ascending. induction l1 as [| a l1 IH]; simpl.
  - split.
    + intros H. repeat split; [constructor | exact H | intros x y []].
    + intros (_ & H & _). exact H.
  - split.
    + intros H. inversion H as [| ? ? Hs Hf]; subst.
      apply IH in Hs. destruct Hs as (S1 & S2 & C).
      rewrite Forall_app in Hf. destruct Hf as [F1 F2].
      repeat split.
      * constructor; assumption.
      * assumption.
      * intros x y [-> | Hx] Hy.
        -- rewrite Forall_forall in F2. now apply F2.
        -- now apply C.
    + intros (S1 & S2 & C). inversion S1 as [| ? ? Hs Hf]; subst.
      constructor.
      * apply IH. repeat split; try assumption. intros x y Hx Hy. apply C; [now right | assumption].
      * rewrite Forall_app. split; [assumption |].
        rewrite Forall_forall. intros y Hy. apply C; [now left | assumption].
Qed.

Lemma ascending_cons (a : string) (l : list string) :
  ascending (a :: l) <-> ascending l /\ Forall (slt a) l.
Proof.
  unfold ascending. split.
  - intros H. inversion H; subst. now split.
  - intros [H1 H2]. now constructor.
Qed.

Lemma keys_node (w : string) (c : Z) (l r : Node) (h : Z) :
  keys (node w c l r h) = keys l ++ w :: keys r.
Proof. unfold keys. simpl. now rewrite map_app. Qed.

(** The structural invariant is the in-order one. *)
Lemma bst_ascending (t : Node) : bst t <-> ascending (keys t).
Proof.
  induction t as [| w c l IHl r IHr h].
  - simpl. split; [intros _; constructor | trivial].
  - rewrite keys_node. simpl. rewrite ascending_app, ascending_cons, <- IHl, <- IHr.
    rewrite !Forall_forall. split.
    + intros (Fl & Fr & Bl & Br). repeat split; try assumption.
      intros x y Hx [<- | Hy].
      * now apply Fl.
      * apply slt_trans with w; [now apply Fl | now apply Fr].
    + intros (Bl & (Br & Fr) & C). repeat split; try assumption.
      intros x Hx. apply C; [assumption | now left].
Qed.

Lemma ascendingb_spec (ks : list string) : ascendingb ks = true <-> LocallySorted slt ks.
Proof.
  induction ks as [| a [| b rest] IH].
  - simpl. split; [constructor | reflexivity].
  - simpl. split; [constructor | reflexivity].
  - change (ascendingb (a :: b :: rest)) with ((strcmp a b <? 0) && ascendingb (b :: rest)).
    rewrite andb_true_iff, IH, Z.ltb_lt. split.
    + intros [H1 H2]. now constructor.
    + intros H. inversion H; subst. now split.
Qed.

Lemma ascending_locally (ks : list string) : ascending ks -> LocallySorted slt ks.
Proof.
  intros H. apply Sorted_LocallySorted_iff. now apply StronglySorted_Sorted.
Qed.

Lemma in_keys (k : string) (t : Node) :
  In k (keys t) <-> exists c, In (k, c) (inorder t).
Proof.
  unfold keys. rewrite in_map_iff. split.
  - intros ([w c] & E & H). simpl in E. subst. now exists c.
  - intros (c & H). now exists (k, c).
Qed.

(** ** Arithmetic of [int] counters *)

Lemma wrap_int_id (z : Z) : INT_MIN <= z <= INT_MAX -> wrap_int z = z.
Proof.
  unfold INT_MIN, INT_MAX, wrap_int. intros H. rewrite Z.mod_small; lia.
Qed.

Lemma wrap_int_succ (a : Z) : wrap_int (wrap_int a + 1) = wrap_int (a + 1).
Proof.
  unfold wrap_int.
  replace ((a + 2147483648) mod 4294967296 - 2147483648 + 1 + 2147483648)
    with ((a + 2147483648) mod 4294967296 + 1) by lia.
  rewrite Zplus_mod_idemp_l. f_equal. f_equal. lia.
Qed.

Lemma wrap_int_range (z : Z) : INT_MIN <= wrap_int z <= INT_MAX.
Proof.
  unfold INT_MIN, INT_MAX, wrap_int.
  pose proof (Z.mod_pos_bound (z + 2147483648) 4294967296 eq_refl). lia.
Qed.

Lemma iter_bump_some (n : nat) (o : option Z) :
  (1 <= n)%nat -> exists c, Nat.iter n bump o = Some c.
Proof.
  destruct n as [| n]; [lia |]. intros _. rewrite Nat.iter_succ.
  unfold bump at 1. eexists. reflexivity.
Qed.

(** Below [INT_MAX] the counter counts. *)
Lemma iter_bump_bounded (n : nat) (o : option Z) :
  (1 <= n)%nat ->
  INT_MIN <= match o with Some c => c | None => 0 end ->
  match o with Some c => c | None => 0 end + Z.of_nat n <= INT_MAX ->
  Nat.iter n bump o = Some (match o with Some c => c | None => 0 end + Z.of_nat n).
Proof.
  intros G Lo Hi. induction n as [| n IH]; [lia |].
  rewrite Nat.iter_succ. destruct n as [| n'].
  - change (Nat.iter 0 bump o) with o. unfold bump. destruct o as [c |]; [| reflexivity].
    rewrite wrap_int_id by lia. f_equal.
  - rewrite IH by lia. unfold bump. rewrite wrap_int_id by lia. f_equal. lia.
Qed.

(** From no node, the counter after [n] inserts is [n] wrapped. *)
Lemma iter_bump_wraps (n : nat) :
  (1 <= n)%nat -> Nat.iter n bump None = Some (wrap_int (Z.of_nat n)).
Proof.
  intros G. induction n as [| n IH]; [lia |].
  rewrite Nat.iter_succ. destruct n as [| n'].
  - reflexivity.
  - rewrite IH by lia. unfold bump. rewrite wrap_int_succ. f_equal. f_equal. lia.
Qed.

(** ** [lookup], [add_entry] and [dec_entry] on in-order sequences *)

Lemma lookup_not_in (k : string) (es : list (string * Z)) :
  ~ In k (List.map fst es) -> lookup k es = None.
Proof.
  induction es as [| [w c] es IH]; simpl; intros H; [reflexivity |].
  destruct (strcmp k w =? 0) eqn:E.
  - exfalso. apply H. left. apply Z.eqb_eq in E. apply strcmp_eq in E. now subst.
  - apply IH. tauto.
Qed.

Lemma lookup_in (k : string) (es : list (string * Z)) :
  In k (List.map fst es) -> exists c, lookup k es = Some c.
Proof.
  induction es as [| [w c] es IH]; simpl; intros H; [contradiction |].
  destruct (strcmp k w =? 0) eqn:E.
  - now exists c.
  - destruct H as [H | H].
    + subst. rewrite strcmp_refl in E. discriminate.
    + now apply IH.
Qed.

Lemma lookup_app (k : string) (l1 l2 : list (string * Z)) :
  lookup k (l1 ++ l2) =
  match lookup k l1 with Some c => Some c | None => lookup k l2 end.
Proof.
  induction l1 as [| [w c] l1 IH]; simpl; [reflexivity |].
  now destruct (strcmp k w =? 0).
Qed.

Lemma add_entry_above (k : string) (l1 l2 : list (string * Z)) :
  Forall (fun x => slt x k) (List.map fst l1) ->
  add_entry k (l1 ++ l2) = l1 ++ add_entry k l2.
Proof.
  induction l1 as [| [w c] l1 IH]; simpl; intros H; [reflexivity |].
  inversion H as [| ? ? Hw Hr]; subst.
  apply strcmp_gt in Hw. assert (E : (strcmp k w >? 0) = true) by lia.
  rewrite E. now rewrite IH.
Qed.

Lemma add_entry_below (k w : string) (c : Z) (l1 l2 : list (string * Z)) :
  slt k w ->
  add_entry k (l1 ++ (w, c) :: l2) = add_entry k l1 ++ (w, c) :: l2.
Proof.
  intros Hk. induction l1 as [| [x cx] l1 IH]; simpl.
  - unfold slt in Hk.
    assert (E1 : (strcmp k w >? 0) = false) by lia.
    assert (E2 : (strcmp k w <? 0) = true) by lia.
    now rewrite E1, E2.
  - destruct (strcmp k x >? 0); [now rewrite IH |].
    now destruct (strcmp k x <? 0).
Qed.

Lemma add_entry_keys (k x : string) (es : list (string * Z)) :
  In x (List.map fst (add_entry k es)) <-> x = k \/ In x (List.map fst es).
Proof.
  induction es as [| [w c] es IH]; simpl.
  - intuition.
  - destruct (strcmp_cases k w) as [(E & _) | [(E1 & E2 & _) | (E1 & E2 & Heq)]].
    + rewrite E. simpl. rewrite IH. intuition.
    + rewrite E1, E2. simpl. intuition.
    + rewrite E1, E2. simpl. subst. intuition.
Qed.

Lemma add_entry_ascending (k : string) (es : list (string * Z)) :
  ascending (List.map fst es) -> ascending (List.map fst (add_entry k es)).
Proof.
  induction es as [| [w c] es IH]; simpl; intros H.
  - constructor; constructor.
  - apply ascending_cons in H. destruct H as [Hs Hf].
    destruct (strcmp_cases k w) as [(E & L) | [(E1 & E2 & L) | (E1 & E2 & Heq)]].
    + rewrite E. simpl. apply ascending_cons. split; [now apply IH |].
      rewrite Forall_forall in *. intros x Hx. apply add_entry_keys in Hx.
      destruct Hx as [-> | Hx]; [assumption | now apply Hf].
    + rewrite E1, E2. simpl. apply ascending_cons. split.
      * apply ascending_cons. now split.
      * constructor; [assumption |].
        rewrite Forall_forall in *. intros x Hx. apply slt_trans with w; [assumption | now apply Hf].
    + rewrite E1, E2. simpl. apply ascending_cons. now split.
Qed.

Lemma lookup_add_entry_same (k : string) (es : list (string * Z)) :
  ascending (List.map fst es) ->
  lookup k (add_entry k es) = bump (lookup k es).
Proof.
  unfold bump.
  induction es as [| [w c] es IH]; simpl; intros H.
  - now rewrite strcmp_refl.
  - apply ascending_cons in H. destruct H as [Hs Hf].
    destruct (strcmp_cases k w) as [(E & L) | [(E1 & E2 & L) | (E1 & E2 & Heq)]].
    + rewrite E. simpl. apply strcmp_gt in L.
      assert (N : (strcmp k w =? 0) = false) by lia.
      rewrite N. now apply IH.
    + rewrite E1, E2. simpl. rewrite strcmp_refl. simpl.
      assert (N : (strcmp k w =? 0) = false) by (unfold slt in L; lia).
      rewrite N. rewrite lookup_not_in; [reflexivity |].
      intros Hin. rewrite Forall_forall in Hf. apply Hf in Hin.
      exact (slt_asym _ _ L Hin).
    + rewrite E1, E2. subst. simpl. now rewrite strcmp_refl.
Qed.

Lemma lookup_add_entry_other (k x : string) (es : list (string * Z)) :
  x <> k -> lookup x (add_entry k es) = lookup x es.
Proof.
  intros N. induction es as [| [w c] es IH]; simpl.
  - destruct (strcmp x k =? 0) eqn:E; [| reflexivity].
    apply Z.eqb_eq, strcmp_eq in E. contradiction.
  - destruct (strcmp_cases k w) as [(E & L) | [(E1 & E2 & L) | (E1 & E2 & Heq)]].
    + rewrite E. simpl. now rewrite IH.
    + rewrite E1, E2. simpl.
      destruct (strcmp x k =? 0) eqn:E; [| reflexivity].
      apply Z.eqb_eq, strcmp_eq in E. contradiction.
    + rewrite E1, E2. subst. simpl.
      destruct (strcmp x w =? 0) eqn:E; [| reflexivity].
      apply Z.eqb_eq, strcmp_eq in E. contradiction.
Qed.

Lemma dec_entry_keys (k : string) (es : list (string * Z)) :
  List.map fst (List.map (dec_entry k) es) = List.map fst es.
Proof.
  induction es as [| [w c] es IH]; simpl; [reflexivity |].
  rewrite IH. unfold dec_entry. simpl. now destruct (strcmp k w =? 0).
Qed.

Lemma dec_entry_absent (k : string) (es : list (string * Z)) :
  ~ In k (List.map fst es) -> List.map (dec_entry k) es = es.
Proof.
  induction es as [| [w c] es IH]; simpl; intros H; [reflexivity |].
  rewrite IH by tauto. unfold dec_entry. simpl.
  destruct (strcmp k w =? 0) eqn:E; [| reflexivity].
  apply Z.eqb_eq, strcmp_eq in E. subst. tauto.
Qed.

Lemma lookup_dec_entry (k : string) (es : list (string * Z)) :
  lookup k (List.map (dec_entry k) es) = option_map (fun c => c - 1) (lookup k es).
Proof.
  induction es as [| [w c] es IH]; simpl; [reflexivity |].
  unfold dec_entry at 1. simpl.
  destruct (strcmp k w =? 0) eqn:E; simpl; rewrite E; [reflexivity | exact IH].
Qed.

(** ** Running monadic code *)

Lemma same_io_trans (w1 w2 w3 : World) : same_io w1 w2 -> same_io w2 w3 -> same_io w1 w3.
Proof. unfold same_io. intros (A & B & C) (D & E & F). repeat split; congruence. Qed.

Lemma bind_run {A B : Type} (m : M A) (k : A -> M B) (w w1 : World) (a : A) :
  m w = Some (a, w1) -> bind m k w = k a w1.
Proof. unfold bind. now intros ->. Qed.

(** ** Heights *)

Lemma true_height_nonneg (t : Node) : 0 <= true_height t.
Proof. induction t; cbn [true_height]; lia. Qed.

Lemma height_true (t : Node) : heights_ok t -> height t = true_height t.
Proof. destruct t; cbn [heights_ok height true_height]; [reflexivity | now intros (-> & _)]. Qed.

Lemma height_nonneg (t : Node) : heights_ok t -> 0 <= height t.
Proof. intros H. rewrite (height_true _ H). apply true_height_nonneg. Qed.

Lemma balancedb_spec (t : Node) : balancedb t = true <-> balanced t.
Proof.
  induction t as [| w c l IHl r IHr h]; simpl; [tauto |].
  rewrite !andb_true_iff, Z.leb_le, Z.leb_le, IHl, IHr. tauto.
Qed.

(** ** What the rotations return *)

Lemma rotateLeft_run (xw : string) (xc : Z) (xl : Node) (yw : string) (yc : Z)
    (temp yr : Node) (hx hy : Z) (w : World) :
  rotateLeft (node xw xc xl (node yw yc temp yr hy) hx) w =
  Some (node yw yc (node xw xc xl temp (max (height xl) (height temp) + 1)) yr
          (max (max (height xl) (height temp) + 1) (height yr) + 1),
        mkWorld (rand_src w) (rand_calls w) (stdout w) (rotations w ++ [RotLeft xw])).
Proof. reflexivity. Qed.

Lemma rotateRight_run (yw : string) (yc : Z) (xw : string) (xc : Z)
    (xl temp yr : Node) (hx hy : Z) (w : World) :
  rotateRight (node yw yc (node xw xc xl temp hx) yr hy) w =
  Some (node xw xc xl (node yw yc temp yr (max (height temp) (height yr) + 1))
          (max (height xl) (max (height temp) (height yr) + 1) + 1),
        mkWorld (rand_src w) (rand_calls w) (stdout w) (rotations w ++ [RotRight yw])).
Proof. reflexivity. Qed.

(** A rotation of a node whose right (left) child is present returns;
    it keeps the in-order sequence, recomputes the two heights it
    touches from correct children, and prints nothing. *)
Lemma rotateLeft_sound (xw : string) (xc : Z) (xl : Node) (yw : string) (yc : Z)
    (temp yr : Node) (hx hy : Z) (w : World) :
  heights_ok xl -> heights_ok temp -> heights_ok yr ->
  exists t' w',
    rotateLeft (node xw xc xl (node yw yc temp yr hy) hx) w = Some (t', w') /\
    inorder t' = inorder (node xw xc xl (node yw yc temp yr hy) hx) /\
    heights_ok t' /\ same_io w w' /\
    (exists l' r' h', t' = node yw yc l' r' h').
Proof.
  intros H1 H2 H3. eexists. eexists. split; [apply rotateLeft_run |].
  split; [| split; [| split]].
  - simpl. rewrite <- app_assoc. reflexivity.
  - cbn [heights_ok true_height height].
    rewrite !max_Zmax, (height_true _ H1), (height_true _ H2), (height_true _ H3).
    repeat split; try assumption; lia.
  - now unfold same_io.
  - eauto.
Qed.

Lemma rotateRight_sound (yw : string) (yc : Z) (xw : string) (xc : Z)
    (xl temp yr : Node) (hx hy : Z) (w : World) :
  heights_ok xl -> heights_ok temp -> heights_ok yr ->
  exists t' w',
    rotateRight (node yw yc (node xw xc xl temp hx) yr hy) w = Some (t', w') /\
    inorder t' = inorder (node yw yc (node xw xc xl temp hx) yr hy) /\
    heights_ok t' /\ same_io w w' /\
    (exists l' r' h', t' = node xw xc l' r' h').
Proof.
  intros H1 H2 H3. eexists. eexists. split; [apply rotateRight_run |].
  split; [| split; [| split]].
  - simpl. rewrite <- app_assoc. reflexivity.
  - cbn [heights_ok true_height height].
    rewrite !max_Zmax, (height_true _ H1), (height_true _ H2), (height_true _ H3).
    repeat split; try assumption; lia.
  - now unfold same_io.
  - eauto.
Qed.

(** ** What [rebalance] returns *)

(** [rebalance] on a non-null root, with the guarded dereferences
    resolved. *)
Lemma rebalance_node (k : string) (c : Z) (l r : Node) (h : Z) (w : World) :
  rebalance (node k c l r h) w =
  (if (height l - height r >? 1) && (getBalance l >? 0)
   then rotateRight (node k c l r h)
   else if (height l - height r <? -1) && (getBalance r <? 0)
   then rotateLeft (node k c l r h)
   else if (height l - height r >? 1) && (getBalance l <? 0)
   then l' <- rotateLeft l ;; rotateRight (node k c l' r h)
   else if (height l - height r <? -1) && (getBalance r >? 0)
   then r' <- rotateRight r ;; rotateLeft (node k c l r' h)
   else ret (node k c l r h)) w.
Proof.
  unfold rebalance, bind, lift, ret. cbn [getBalance left_of right_of set_left set_right].
  destruct (height l - height r >? 1), (height l - height r <? -1),
    (getBalance l >? 0), (getBalance l <? 0), (getBalance r <? 0), (getBalance r >? 0);
    cbn [andb]; try reflexivity;
    repeat match goal with
    | |- context [match ?m with Some _ => _ | None => _ end] => destruct m as [[? ?] |]
    end; reflexivity.
Qed.

Lemma rebalance_ok (t : Node) (w : World) :
  heights_ok t ->
  exists t' w',
    rebalance t w = Some (t', w') /\ inorder t' = inorder t /\
    heights_ok t' /\ same_io w w'.
Proof.
  intros H. destruct t as [| k c l r h].
  - exists NULL, w. repeat split; reflexivity.
  - pose proof H as H0. cbn [heights_ok] in H. destruct H as (Hh & Hl & Hr).
    pose proof (height_nonneg _ Hl) as Nl. pose proof (height_nonneg _ Hr) as Nr.
    rewrite rebalance_node.
    destruct ((height l - height r >? 1) && (getBalance l >? 0)) eqn:C1.
    { apply andb_true_iff in C1. destruct C1 as [B1 B2].
      destruct l as [| lk lc ll lr lh]; [cbn [height] in *; lia |].
      cbn [heights_ok] in Hl. destruct Hl as (Hlh & Hll & Hlr).
      destruct (rotateRight_sound k c lk lc ll lr r lh h w Hll Hlr Hr) as (t' & w' & E & I & O & S & _).
      exists t', w'. auto. }
    destruct ((height l - height r <? -1) && (getBalance r <? 0)) eqn:C2.
    { apply andb_true_iff in C2. destruct C2 as [B1 B2].
      destruct r as [| rk rc rl rr rh]; [cbn [height] in *; lia |].
      cbn [heights_ok] in Hr. destruct Hr as (Hrh & Hrl & Hrr).
      destruct (rotateLeft_sound k c l rk rc rl rr h rh w Hl Hrl Hrr) as (t' & w' & E & I & O & S & _).
      exists t', w'. auto. }
    destruct ((height l - height r >? 1) && (getBalance l <? 0)) eqn:C3.
    { apply andb_true_iff in C3. destruct C3 as [B1 B2].
      destruct l as [| lk lc ll lr lh]; [cbn [height] in *; lia |].
      cbn [heights_ok] in Hl. destruct Hl as (Hlh & Hll & Hlr).
      cbn [getBalance] in B2.
      pose proof (height_nonneg _ Hll) as Nll.
      destruct lr as [| mk mc ml mr mh]; [cbn [height] in *; lia |].
      cbn [heights_ok] in Hlr. destruct Hlr as (Hmh & Hml & Hmr).
      destruct (rotateLeft_sound lk lc ll mk mc ml mr lh mh w Hll Hml Hmr)
        as (l' & w1 & E1 & I1 & O1 & S1 & (a & b & hh & ->)).
      cbn [heights_ok] in O1. destruct O1 as (_ & Oa & Ob).
      destruct (rotateRight_sound k c mk mc a b r hh h w1 Oa Ob Hr) as (t' & w' & E & I & O & S & _).
      exists t', w'. split; [| split; [| split]].
      - rewrite (bind_run _ _ _ _ _ E1). exact E.
      - rewrite I. cbn [inorder]. cbn [inorder] in I1. now rewrite I1.
      - exact O.
      - exact (same_io_trans _ _ _ S1 S). }
    destruct ((height l - height r <? -1) && (getBalance r >? 0)) eqn:C4.
    { apply andb_true_iff in C4. destruct C4 as [B1 B2].
      destruct r as [| rk rc rl rr rh]; [cbn [height] in *; lia |].
      cbn [heights_ok] in Hr. destruct Hr as (Hrh & Hrl & Hrr).
      cbn [getBalance] in B2.
      pose proof (height_nonneg _ Hrr) as Nrr.
      destruct rl as [| mk mc ml mr mh]; [cbn [height] in *; lia |].
      cbn [heights_ok] in Hrl. destruct Hrl as (Hmh & Hml & Hmr).
      destruct (rotateRight_sound rk rc mk mc ml mr rr mh rh w Hml Hmr Hrr)
        as (r' & w1 & E1 & I1 & O1 & S1 & (a & b & hh & ->)).
      cbn [heights_ok] in O1. destruct O1 as (_ & Oa & Ob).
      destruct (rotateLeft_sound k c l mk mc a b h hh w1 Hl Oa Ob) as (t' & w' & E & I & O & S & _).
      exists t', w'. split; [| split; [| split]].
      - rewrite (bind_run _ _ _ _ _ E1). exact E.
      - rewrite I. cbn [inorder]. cbn [inorder] in I1. now rewrite I1.
      - exact O.
      - exact (same_io_trans _ _ _ S1 S). }
    exists (node k c l r h), w. repeat split; try assumption; reflexivity.
Qed.

Lemma retrace_ok (k : string) (c : Z) (l r : Node) (w : World) :
  heights_ok l -> heights_ok r ->
  exists t' w',
    retrace k c l r w = Some (t', w') /\
    inorder t' = inorder l ++ (k, c) :: inorder r /\
    heights_ok t' /\ same_io w w'.
Proof.
  intros Hl Hr. unfold retrace. apply rebalance_ok.
  cbn [heights_ok]. rewrite max_Zmax, (height_true _ Hl), (height_true _ Hr).
  repeat split; try assumption; lia.
Qed.

(** A node whose balance factor is within one level is returned as it
    is, with no rotation. *)
Lemma rebalance_within (t : Node) (w : World) :
  -1 <= getBalance t <= 1 -> rebalance t w = Some (t, w).
Proof.
  intros B. destruct t as [| k c l r h]; [reflexivity |].
  rewrite rebalance_node. cbn [getBalance] in B.
  assert (E1 : (height l - height r >? 1) = false) by lia.
  assert (E2 : (height l - height r <? -1) = false) by lia.
  now rewrite E1, E2.
Qed.

(** ** Insert: in-order sequence and invariants *)

Lemma bst_left_below (k w : string) (c : Z) (l r : Node) (h : Z) :
  bst (node w c l r h) -> slt w k -> Forall (fun x => slt x k) (List.map fst (inorder l)).
Proof.
  intros (Fl & _) L. fold (keys l). rewrite Forall_forall in *.
  intros x Hx. apply slt_trans with w; [now apply Fl | exact L].
Qed.

Lemma insertAux_ok (t : Node) (k : string) (w : World) :
  bst t -> heights_ok t ->
  exists t' w',
    insertAux t k w = Some (t', w') /\
    inorder t' = add_entry k (inorder t) /\
    heights_ok t' /\ same_io w w'.
Proof.
  revert w. induction t as [| rw rc l IHl r IHr h]; intros w B H.
  - exists (createNode k), w. repeat split; reflexivity.
  - pose proof B as B0. cbn [bst] in B. destruct B as (Fl & Fr & Bl & Br).
    cbn [heights_ok] in H. destruct H as (_ & Hl & Hr).
    cbn [insertAux inorder].
    destruct (strcmp_cases k rw) as [(E & L) | [(E1 & E2 & L) | (E1 & E2 & Heq)]].
    + rewrite E.
      destruct (IHr w Br Hr) as (r' & w1 & Er & Ir & Or & Sr).
      destruct (retrace_ok rw rc l r' w1 Hl Or) as (t' & w' & Et & It & Ot & St).
      exists t', w'. split; [| split; [| split]].
      * rewrite (bind_run _ _ _ _ _ Er). exact Et.
      * rewrite It, Ir. rewrite add_entry_above by exact (bst_left_below _ _ _ _ _ _ B0 L).
        cbn [add_entry]. now rewrite E.
      * exact Ot.
      * exact (same_io_trans _ _ _ Sr St).
    + rewrite E1, E2.
      destruct (IHl w Bl Hl) as (l' & w1 & El & Il & Ol & Sl).
      destruct (retrace_ok rw rc l' r w1 Ol Hr) as (t' & w' & Et & It & Ot & St).
      exists t', w'. split; [| split; [| split]].
      * rewrite (bind_run _ _ _ _ _ El). exact Et.
      * rewrite It, Il. now rewrite add_entry_below.
      * exact Ot.
      * exact (same_io_trans _ _ _ Sl St).
    + rewrite E1, E2. subst rw.
      destruct (retrace_ok k (wrap_int (rc + 1)) l r w Hl Hr) as (t' & w' & Et & It & Ot & St).
      exists t', w'. split; [| split; [| split]]; try assumption.
      rewrite It. rewrite add_entry_above.
      * cbn [add_entry]. now rewrite E1, E2.
      * fold (keys l). exact Fl.
Qed.

(** [insert] on a tree that meets invariants 1 and 4 returns a tree that
    meets them, whose in-order sequence is the old one with [k] added. *)
Lemma insert_ok (tree : Tree) (k : string) (w : World) :
  bst (root tree) -> heights_ok (root tree) ->
  exists tree' w',
    insert tree k w = Some (tree', w') /\
    inorder (root tree') = add_entry k (inorder (root tree)) /\
    bst (root tree') /\ heights_ok (root tree') /\ same_io w w'.
Proof.
  intros B H. destruct tree as [t]. cbn [root] in *. unfold insert. cbn [root].
  destruct t as [| rw rc l r h].
  - exists (mkTree (createNode k)), w. repeat split; try reflexivity; constructor.
  - destruct (insertAux_ok (node rw rc l r h) k w B H) as (t' & w' & E & I & O & S).
    exists (mkTree t'), w'. cbn [root]. split; [| split; [| split; [| split]]]; try assumption.
    + rewrite (bind_run _ _ _ _ _ E). reflexivity.
    + apply bst_ascending. unfold keys. rewrite I. apply add_entry_ascending.
      now apply bst_ascending in B.
Qed.

(** ** Search: the count it reads *)

Lemma bst_not_in_left (k w : string) (c : Z) (l r : Node) (h : Z) :
  bst (node w c l r h) -> (slt w k \/ w = k) -> ~ In k (keys l).
Proof.
  intros (Fl & _) L Hin. rewrite Forall_forall in Fl. apply Fl in Hin.
  destruct L as [L | ->].
  - exact (slt_asym _ _ L Hin).
  - exact (slt_irrefl _ Hin).
Qed.

Lemma bst_not_in_right (k w : string) (c : Z) (l r : Node) (h : Z) :
  bst (node w c l r h) -> (slt k w \/ w = k) -> ~ In k (keys r).
Proof.
  intros (_ & Fr & _) L Hin. rewrite Forall_forall in Fr. apply Fr in Hin.
  destruct L as [L | ->].
  - exact (slt_asym _ _ L Hin).
  - exact (slt_irrefl _ Hin).
Qed.

(** On a search tree, [searchAux] reads the count that the in-order
    sequence holds for the word. *)
Lemma searchAux_lookup (t : Node) (k : string) :
  bst t -> count_of (searchAux t k) = lookup k (inorder t).
Proof.
  induction t as [| rw rc l IHl r IHr h]; intros B; [reflexivity |].
  pose proof B as B0. cbn [bst] in B. destruct B as (Fl & Fr & Bl & Br).
  cbn [searchAux inorder]. rewrite lookup_app. cbn [lookup].
  destruct (strcmp_cases k rw) as [(E & L) | [(E1 & E2 & L) | (E1 & E2 & Heq)]].
  - rewrite E, (IHr Br).
    rewrite (lookup_not_in k (inorder l)) by exact (bst_not_in_left _ _ _ _ _ _ B0 (or_introl L)).
    apply strcmp_gt in L. assert (N : (strcmp k rw =? 0) = false) by lia.
    now rewrite N.
  - rewrite E1, E2, (IHl Bl).
    destruct (lookup k (inorder l)); [reflexivity |].
    assert (N : (strcmp k rw =? 0) = false) by (unfold slt in L; lia).
    rewrite N. symmetry. apply lookup_not_in.
    exact (bst_not_in_right _ _ _ _ _ _ B0 (or_introl L)).
  - rewrite E1, E2. subst rw. cbn [count_of].
    rewrite (lookup_not_in k (inorder l)) by exact (bst_not_in_left _ _ _ _ _ _ B0 (or_intror eq_refl)).
    now rewrite strcmp_refl.
Qed.

(** Whatever the tree, a node that [searchAux] returns holds the
    searched word and is a node of the tree. *)
Lemma searchAux_found (t : Node) (k : string) (w : string) (c : Z) (l r : Node) (h : Z) :
  searchAux t k = node w c l r h -> w = k /\ node_of (node w c l r h) t.
Proof.
  induction t as [| rw rc tl IHl tr IHr th]; cbn [searchAux]; [discriminate |].
  destruct (strcmp_cases k rw) as [(E & L) | [(E1 & E2 & L) | (E1 & E2 & Heq)]].
  - rewrite E. intros H. destruct (IHr H) as [A B]. split; [exact A | now apply node_right].
  - rewrite E1, E2. intros H. destruct (IHl H) as [A B]. split; [exact A | now apply node_left].
  - rewrite E1, E2. intros H. inversion H; subst. split; [reflexivity | now apply node_here].
Qed.

Lemma searchAux_absent (t : Node) (k : string) :
  ~ In k (keys t) -> searchAux t k = NULL.
Proof.
  intros N. destruct (searchAux t k) as [| w c l r h] eqn:E; [reflexivity |].
  exfalso. apply N. destruct (searchAux_found _ _ _ _ _ _ _ E) as [-> P].
  clear E N. induction P as [w' c' l' r' h' Heq | w' c' l' r' h' P IH | w' c' l' r' h' P IH];
    rewrite keys_node, in_app_iff; simpl.
  - inversion Heq; subst. right. now left.
  - now left.
  - right. now right.
Qed.

Lemma search_root (tree : Tree) (k : string) : search tree k = searchAux (root tree) k.
Proof. unfold search. now destruct (root tree). Qed.

(** ** Delete: totality, removed key, lowered count *)

Lemma smallestIn_in (t : Node) :
  t <> NULL ->
  exists tw tc tl tr th,
    smallestIn t = Some (node tw tc tl tr th) /\ In (tw, tc) (inorder t).
Proof.
  induction t as [| rw rc l IHl r IHr h]; intros N; [contradiction |].
  destruct l as [| lw lc ll lr lh].
  - exists rw, rc, NULL, r, h. split; [reflexivity | now left].
  - destruct IHl as (tw & tc & tl & tr & th & E & I); [discriminate |].
    exists tw, tc, tl, tr, th. split; [exact E |].
    cbn [inorder] in *. apply in_app_iff. now left.
Qed.

Lemma largestIn_in (t : Node) :
  t <> NULL ->
  exists tw tc tl tr th,
    largestIn t = Some (node tw tc tl tr th) /\ In (tw, tc) (inorder t).
Proof.
  induction t as [| rw rc l IHl r IHr h]; intros N; [contradiction |].
  destruct r as [| xw xc xl xr xh].
  - exists rw, rc, l, NULL, h. split; [reflexivity |].
    cbn [inorder]. apply in_app_iff. right. now left.
  - destruct IHr as (tw & tc & tl & tr & th & E & I); [discriminate |].
    exists tw, tc, tl, tr, th. split; [exact E |].
    change (inorder (node rw rc l (node xw xc xl xr xh) h))
      with (inorder l ++ (rw, rc) :: inorder (node xw xc xl xr xh)).
    apply in_app_iff. right. now right.
Qed.

Lemma in_inorder_keys (k : string) (c : Z) (t : Node) : In (k, c) (inorder t) -> In k (keys t).
Proof. intros H. apply in_keys. now exists c. Qed.

Lemma keys_of_inorder (t : Node) (k : string) (c : Z) (l r : Node) :
  inorder t = inorder l ++ (k, c) :: inorder r -> keys t = keys l ++ k :: keys r.
Proof. unfold keys. intros ->. now rewrite map_app. Qed.

Lemma keys_incl_node (t' t : Node) (k k0 : string) (c : Z) (l l' r r' : Node) :
  inorder t' = inorder l' ++ (k, c) :: inorder r' ->
  keys t = keys l ++ k0 :: keys r ->
  incl (keys l') (keys l) -> incl (keys r') (keys r) ->
  (k = k0 \/ In k (keys l) \/ In k (keys r)) ->
  incl (keys t') (keys t).
Proof.
  intros I K Il Ir Hk x Hx.
  rewrite (keys_of_inorder _ _ _ _ _ I) in Hx. rewrite K.
  rewrite in_app_iff in *. simpl in *.
  destruct Hx as [Hx | [<- | Hx]].
  - left. now apply Il.
  - destruct Hk as [-> | [Hk | Hk]]; auto.
  - right. right. now apply Ir.
Qed.

Lemma dec_entry_other (k w : string) (c : Z) : k <> w -> dec_entry k (w, c) = (w, c).
Proof.
  intros N. unfold dec_entry. cbn [fst snd].
  destruct (strcmp k w =? 0) eqn:E; [| reflexivity].
  apply Z.eqb_eq, strcmp_eq in E. contradiction.
Qed.

Lemma dec_entry_same (k : string) (c : Z) : dec_entry k (k, c) = (k, c - 1).
Proof. unfold dec_entry. cbn [fst snd]. now rewrite strcmp_refl. Qed.

Lemma slt_neq (a b : string) : slt a b -> a <> b.
Proof. intros H ->. exact (slt_irrefl _ H). Qed.

Lemma deleteAux_ok (t : Node) :
  forall (k : string) (f : Z) (w : World),
  heights_ok t ->
  exists t' w',
    deleteAux t k f w = Some (t', w') /\
    heights_ok t' /\
    incl (keys t') (keys t) /\
    (bst t -> f <> 0 \/ count_of (searchAux t k) = Some 1 -> ~ In k (keys t')) /\
    (bst t -> f = 0 -> forall c, count_of (searchAux t k) = Some c -> c <> 1 ->
     inorder t' = List.map (dec_entry k) (inorder t)).
Proof.
  induction t as [| rw rc l IHl r IHr h]; intros k f w H.
  - eexists. eexists. split; [reflexivity |].
    split; [exact I |]. split; [apply incl_refl |].
    split; [intros _ _ [] | intros _ _ c Hc; discriminate].
  - cbn [heights_ok] in H. destruct H as (Hh & Hl & Hr).
    cbn [deleteAux searchAux].
    destruct (strcmp_cases k rw) as [(E & L) | [(E1 & E2 & L) | (E1 & E2 & Heq)]].
    + rewrite E.
      destruct (IHr k f w Hr) as (r' & w1 & Er & Or & Ir & Rr & Dr).
      destruct (retrace_ok rw rc l r' w1 Hl Or) as (t' & w' & Et & It & Ot & St).
      exists t', w'. rewrite (bind_run _ _ _ _ _ Er).
      split; [exact Et |]. split; [exact Ot |].
      split; [| split].
      * eapply keys_incl_node; [exact It | apply keys_node | apply incl_refl | exact Ir | now left].
      * intros B C. pose proof B as (Fl & Fr & Bl & Br).
        rewrite (keys_of_inorder _ _ _ _ _ It), in_app_iff. simpl.
        intros [X | [X | X]].
        -- exact (bst_not_in_left _ _ _ _ _ _ B (or_introl L) X).
        -- subst. exact (slt_irrefl _ L).
        -- exact (Rr Br C X).
      * intros B F c Hc Nc. pose proof B as (Fl & Fr & Bl & Br).
        rewrite It, (Dr Br F c Hc Nc). cbn [inorder]. rewrite map_app. cbn [List.map].
        rewrite (dec_entry_absent k (inorder l)) by exact (bst_not_in_left _ _ _ _ _ _ B (or_introl L)).
        rewrite dec_entry_other; [reflexivity |].
        intros ->. exact (slt_irrefl _ L).
    + rewrite E1, E2.
      destruct (IHl k f w Hl) as (l' & w1 & El & Ol & Il & Rl & Dl).
      destruct (retrace_ok rw rc l' r w1 Ol Hr) as (t' & w' & Et & It & Ot & St).
      exists t', w'. rewrite (bind_run _ _ _ _ _ El).
      split; [exact Et |]. split; [exact Ot |].
      split; [| split].
      * eapply keys_incl_node; [exact It | apply keys_node | exact Il | apply incl_refl | now left].
      * intros B C. pose proof B as (Fl & Fr & Bl & Br).
        rewrite (keys_of_inorder _ _ _ _ _ It), in_app_iff. simpl.
        intros [X | [X | X]].
        -- exact (Rl Bl C X).
        -- subst. exact (slt_irrefl _ L).
        -- exact (bst_not_in_right _ _ _ _ _ _ B (or_introl L) X).
      * intros B F c Hc Nc. pose proof B as (Fl & Fr & Bl & Br).
        rewrite It, (Dl Bl F c Hc Nc). cbn [inorder]. rewrite map_app. cbn [List.map].
        rewrite (dec_entry_absent k (inorder r)) by exact (bst_not_in_right _ _ _ _ _ _ B (or_introl L)).
        rewrite dec_entry_other; [reflexivity |].
        exact (slt_neq _ _ L).
    + rewrite E1, E2. subst rw. cbn [count_of].
      destruct ((rc =? 1) || negb (f =? 0)) eqn:T.
      * (* the whole node goes *)
        destruct l as [| lw lc ll lr lh]; [| destruct r as [| xw xc xl xr xh]].
        -- (* no left child *)
           exists r, w. split; [now destruct r |]. split; [exact Hr |].
           split; [| split].
           ++ intros x Hx. rewrite keys_node, in_app_iff. right. now right.
           ++ intros B _. exact (bst_not_in_right _ _ _ _ _ _ B (or_intror eq_refl)).
           ++ intros _ F c Hc Nc. exfalso. inversion Hc; subst.
              apply orb_true_iff in T. destruct T as [T | T]; [lia | now rewrite Z.eqb_refl in T].
        -- (* only the left child *)
           exists (node lw lc ll lr lh), w. split; [reflexivity |]. split; [exact Hl |].
           split; [| split].
           ++ intros x Hx. rewrite keys_node, in_app_iff. now left.
           ++ intros B _. exact (bst_not_in_left _ _ _ _ _ _ B (or_intror eq_refl)).
           ++ intros _ F c Hc Nc. exfalso. inversion Hc; subst.
              apply orb_true_iff in T. destruct T as [T | T]; [lia | now rewrite Z.eqb_refl in T].
        -- (* both children *)
           set (L := node lw lc ll lr lh) in *. set (R := node xw xc xl xr xh) in *.
           unfold bind at 1. unfold rand at 1.
           set (w0 := mkWorld (rand_src w) (S (rand_calls w)) (stdout w) (rotations w)).
           destruct (negb (Z.rem (rand_src w (rand_calls w)) 2 =? 0)).
           ++ destruct (smallestIn_in R) as (tw & tc & tl & tr & th & Es & Is); [discriminate |].
              destruct (IHr tw 1 w0 Hr) as (r' & w1 & Er & Or & Ir & _ & _).
              destruct (retrace_ok tw tc L r' w1 Hl Or) as (t' & w' & Et & It & Ot & St).
              exists t', w'. rewrite Es. unfold bind at 1 2 3. cbn [lift word_of count_of].
              rewrite (bind_run _ _ _ _ _ Er).
              split; [exact Et |]. split; [exact Ot |].
              pose proof (in_inorder_keys _ _ _ Is) as Kt.
              split; [| split].
              ** eapply keys_incl_node; [exact It | apply keys_node | apply incl_refl | exact Ir | auto].
              ** intros B _.
                 rewrite (keys_of_inorder _ _ _ _ _ It), in_app_iff. simpl.
                 intros [X | [X | X]].
                 --- exact (bst_not_in_left _ _ _ _ _ _ B (or_intror eq_refl) X).
                 --- subst. exact (bst_not_in_right _ _ _ _ _ _ B (or_intror eq_refl) Kt).
                 --- exact (bst_not_in_right _ _ _ _ _ _ B (or_intror eq_refl) (Ir _ X)).
              ** intros _ F c Hc Nc. exfalso. inversion Hc; subst.
                 apply orb_true_iff in T. destruct T as [T | T]; [lia | now rewrite Z.eqb_refl in T].
           ++ destruct (largestIn_in R) as (tw & tc & tl & tr & th & Es & Is); [discriminate |].
              destruct (IHl tw 1 w0 Hl) as (l' & w1 & El & Ol & Il & _ & _).
              destruct (retrace_ok tw tc l' R w1 Ol Hr) as (t' & w' & Et & It & Ot & St).
              exists t', w'. rewrite Es. unfold bind at 1 2 3. cbn [lift word_of count_of].
              rewrite (bind_run _ _ _ _ _ El).
              split; [exact Et |]. split; [exact Ot |].
              pose proof (in_inorder_keys _ _ _ Is) as Kt.
              split; [| split].
              ** eapply keys_incl_node; [exact It | apply keys_node | exact Il | apply incl_refl | auto].
              ** intros B _.
                 rewrite (keys_of_inorder _ _ _ _ _ It), in_app_iff. simpl.
                 intros [X | [X | X]].
                 --- exact (bst_not_in_left _ _ _ _ _ _ B (or_intror eq_refl) (Il _ X)).
                 --- subst. exact (bst_not_in_right _ _ _ _ _ _ B (or_intror eq_refl) Kt).
                 --- exact (bst_not_in_right _ _ _ _ _ _ B (or_intror eq_refl) X).
              ** intros _ F c Hc Nc. exfalso. inversion Hc; subst.
                 apply orb_true_iff in T. destruct T as [T | T]; [lia | now rewrite Z.eqb_refl in T].
      * (* only the count goes down *)
        apply orb_false_iff in T. destruct T as [T1 T2].
        exists (node k (rc - 1) l r h), w. split; [reflexivity |].
        split; [cbn [heights_ok]; auto |]. 
        split; [| split].
        -- rewrite !keys_node. apply incl_refl.
        -- intros _ [C | C]; [apply negb_false_iff, Z.eqb_eq in T2; contradiction |].
           inversion C; subst. now rewrite Z.eqb_refl in T1.
        -- intros B _ c Hc _. inversion Hc; subst. cbn [inorder].
           rewrite map_app. cbn [List.map].
           rewrite (dec_entry_absent k (inorder l)) by exact (bst_not_in_left _ _ _ _ _ _ B (or_intror eq_refl)).
           rewrite (dec_entry_absent k (inorder r)) by exact (bst_not_in_right _ _ _ _ _ _ B (or_intror eq_refl)).
           now rewrite dec_entry_same.
Qed.

(** [deleteFromTree] on a tree that meets invariant 4 returns. *)
Lemma deleteFromTree_ok (tree : Tree) (k : string) (w : World) :
  heights_ok (root tree) ->
  exists tree' w',
    deleteFromTree tree k w = Some (tree', w') /\
    heights_ok (root tree') /\
    incl (keys (root tree')) (keys (root tree)) /\
    (bst (root tree) -> count_of (search tree k) = Some 1 -> ~ In k (keys (root tree'))) /\
    (bst (root tree) -> forall c, count_of (search tree k) = Some c -> c <> 1 ->
     inorder (root tree') = List.map (dec_entry k) (inorder (root tree))).
Proof.
  intros H. destruct tree as [t]. unfold deleteFromTree. rewrite search_root. cbn [root] in *.
  destruct t as [| rw rc l r h].
  - eexists. eexists. split; [reflexivity |]. cbn [root].
    split; [exact I |]. split; [apply incl_refl |].
    split; [intros _ C; discriminate | intros _ c C; discriminate].
  - destruct (deleteAux_ok (node rw rc l r h) k 0 w H) as (t' & w' & E & O & Inc & Rm & Dc).
    exists (mkTree t'), w'. rewrite (bind_run _ _ _ _ _ E). cbn [root].
    split; [reflexivity |]. split; [exact O |]. split; [exact Inc |].
    split.
    + intros B C. apply Rm; [exact B | now right].
    + intros B c C N. exact (Dc B eq_refl c C N).
Qed.

(** ** Deleting an absent word *)

Lemma retrace_steady (k : string) (c : Z) (l r : Node) (h : Z) (w : World) :
  heights_ok (node k c l r h) ->
  -1 <= true_height l - true_height r <= 1 ->
  retrace k c l r w = Some (node k c l r h, w).
Proof.
  cbn [heights_ok]. intros (Hh & Hl & Hr) B. unfold retrace.
  rewrite max_Zmax, (height_true _ Hl), (height_true _ Hr).
  replace (Z.max (true_height l) (true_height r) + 1) with h by lia.
  apply rebalance_within. cbn [getBalance].
  now rewrite (height_true _ Hl), (height_true _ Hr).
Qed.

(** On a tree that meets the height and balance invariants, deleting a
    word that is not among the keys prints the not-found line and
    returns the tree as it was. *)
Lemma deleteAux_absent (t : Node) :
  forall (k : string) (f : Z) (w : World),
  heights_ok t -> balanced t -> ~ In k (keys t) ->
  deleteAux t k f w =
  Some (t, mkWorld (rand_src w) (rand_calls w) (stdout w ++ [NotFoundLine k]) (rotations w)).
Proof.
  induction t as [| rw rc l IHl r IHr h]; intros k f w H B N; [reflexivity |].
  pose proof H as H0. cbn [heights_ok] in H. destruct H as (_ & Hl & Hr).
  cbn [balanced] in B. destruct B as (Bb & Bl & Br).
  rewrite keys_node, in_app_iff in N. simpl in N.
  cbn [deleteAux].
  destruct (strcmp_cases k rw) as [(E & L) | [(E1 & E2 & L) | (E1 & E2 & Heq)]].
  - rewrite E. rewrite (bind_run _ _ _ _ _ (IHr k f w Hr Br ltac:(tauto))).
    now apply retrace_steady.
  - rewrite E1, E2. rewrite (bind_run _ _ _ _ _ (IHl k f w Hl Bl ltac:(tauto))).
    now apply retrace_steady.
  - subst. tauto.
Qed.

Lemma deleteFromTree_absent (tree : Tree) (k : string) (w : World) :
  heights_ok (root tree) -> balanced (root tree) -> ~ In k (keys (root tree)) ->
  exists l,
    deleteFromTree tree k w =
    Some (tree, mkWorld (rand_src w) (rand_calls w) (stdout w ++ [l]) (rotations w)) /\
    (l = NotFoundLine k \/ l = EmptyLine k).
Proof.
  intros H B N. destruct tree as [t]. cbn [root] in *. unfold deleteFromTree. cbn [root].
  destruct t as [| rw rc l r h].
  - exists (EmptyLine k). split; [reflexivity | now right].
  - exists (NotFoundLine k). split; [| now left].
    now rewrite (bind_run _ _ _ _ _ (deleteAux_absent _ k 0 w H B N)).
Qed.

(** ** Deleting one occurrence of a word held more than once *)

Lemma skeleton_height (t : Node) : height (skeleton t) = height t.
Proof. now destruct t. Qed.

Lemma skeleton_true_height (t : Node) : true_height (skeleton t) = true_height t.
Proof. induction t as [| w c l IHl r IHr h]; cbn [skeleton true_height]; congruence. Qed.

Lemma skeleton_eq_heights (t t' : Node) :
  skeleton t' = skeleton t ->
  height t' = height t /\ true_height t' = true_height t.
Proof.
  intros E. split.
  - now rewrite <- (skeleton_height t'), E, skeleton_height.
  - now rewrite <- (skeleton_true_height t'), E, skeleton_true_height.
Qed.

Lemma skeleton_heights_ok (t : Node) : heights_ok (skeleton t) <-> heights_ok t.
Proof.
  induction t as [| w c l IHl r IHr h]; cbn [skeleton heights_ok]; [tauto |].
  rewrite !skeleton_true_height, IHl, IHr. tauto.
Qed.


(** ** Removing a node through the successor branch *)

Lemma remove_entry_absent (k : string) (es : list (string * Z)) :
  ~ In k (List.map fst es) -> remove_entry k es = es.
Proof.
  induction es as [| [x cx] es IH]; intros N; [reflexivity |].
  simpl in N. unfold remove_entry in *. cbn [List.filter fst].
  destruct (strcmp k x =? 0) eqn:E.
  - apply Z.eqb_eq, strcmp_eq in E. subst. tauto.
  - cbn [negb]. rewrite IH by tauto. reflexivity.
Qed.

Lemma remove_entry_app (k : string) (l1 l2 : list (string * Z)) :
  remove_entry k (l1 ++ l2) = remove_entry k l1 ++ remove_entry k l2.
Proof. unfold remove_entry. apply filter_app. Qed.

Lemma remove_entry_head (k : string) (c : Z) (es : list (string * Z)) :
  remove_entry k ((k, c) :: es) = remove_entry k es.
Proof. unfold remove_entry. cbn [List.filter fst]. now rewrite strcmp_refl. Qed.

Lemma remove_entry_other (k x : string) (c : Z) (es : list (string * Z)) :
  k <> x -> remove_entry k ((x, c) :: es) = (x, c) :: remove_entry k es.
Proof.
  intros N. unfold remove_entry. cbn [List.filter fst].
  destruct (strcmp k x =? 0) eqn:E; [| reflexivity].
  apply Z.eqb_eq, strcmp_eq in E. contradiction.
Qed.

Lemma remove_entry_keys (k x : string) (es : list (string * Z)) :
  In x (List.map fst (remove_entry k es)) -> In x (List.map fst es).
Proof.
  unfold remove_entry. rewrite !in_map_iff. intros (e & E & Hin).
  apply filter_In in Hin. exists e. tauto.
Qed.

Lemma remove_entry_ascending (k : string) (es : list (string * Z)) :
  ascending (List.map fst es) -> ascending (List.map fst (remove_entry k es)).
Proof.
  induction es as [| [x cx] es IH]; intros A; [exact A |].
  cbn [List.map fst] in A. apply ascending_cons in A. destruct A as [As Af].
  unfold remove_entry in *. cbn [List.filter fst].
  destruct (negb (strcmp k x =? 0)); [| now apply IH].
  cbn [List.map fst]. apply ascending_cons. split; [now apply IH |].
  rewrite Forall_forall in *. intros y Hy. apply Af. exact (remove_entry_keys _ _ _ Hy).
Qed.

Lemma smallestIn_head (t : Node) :
  t <> NULL ->
  exists tw tc tl tr th rest,
    smallestIn t = Some (node tw tc tl tr th) /\ inorder t = (tw, tc) :: rest.
Proof.
  induction t as [| rw rc l IHl r IHr h]; intros N; [contradiction |].
  destruct l as [| lw lc ll lr lh].
  - exists rw, rc, NULL, r, h, (inorder r). split; reflexivity.
  - destruct IHl as (tw & tc & tl & tr & th & rest & E & I); [discriminate |].
    exists tw, tc, tl, tr, th, (rest ++ (rw, rc) :: inorder r). split; [exact E |].
    change (inorder (node rw rc (node lw lc ll lr lh) r h))
      with (inorder (node lw lc ll lr lh) ++ (rw, rc) :: inorder r).
    now rewrite I.
Qed.

(** When every [rand()] draw is odd the two-child case always promotes
    the in-order successor.  On a tree that meets the BST-order and
    height invariants, a delete that removes a node (forced, or count
    1) then returns a tree whose in-order sequence is the old one
    without the entry of [k]; nothing is printed when [k] was a key. *)
Lemma deleteAux_successor (t : Node) :
  forall (k : string) (f : Z) (w : World),
  bst t -> heights_ok t ->
  (forall n, Z.rem (rand_src w n) 2 <> 0) ->
  f <> 0 \/ count_of (searchAux t k) = Some 1 ->
  exists t' w',
    deleteAux t k f w = Some (t', w') /\
    inorder t' = remove_entry k (inorder t) /\
    heights_ok t' /\
    rand_src w' = rand_src w /\
    (In k (keys t) -> stdout w' = stdout w).
Proof.
  induction t as [| rw rc l IHl r IHr h]; intros k f w B H R C.
  - eexists. eexists. split; [reflexivity |]. repeat split. intros [].
  - pose proof B as B0. cbn [bst] in B. destruct B as (Fl & Fr & Bl & Br).
    cbn [heights_ok] in H. destruct H as (Hh & Hl & Hr).
    cbn [searchAux] in C. cbn [deleteAux inorder]. rewrite remove_entry_app.
    rewrite keys_node.
    destruct (strcmp_cases k rw) as [(E & L) | [(E1 & E2 & L) | (E1 & E2 & Heq)]].
    + rewrite E in *.
      destruct (IHr k f w Br Hr R C) as (r' & w1 & Er & Ir & Or & Rr & Sr).
      destruct (retrace_ok rw rc l r' w1 Hl Or) as (t' & w' & Et & It & Ot & (S1 & S2 & S3)).
      exists t', w'. rewrite (bind_run _ _ _ _ _ Er).
      split; [exact Et |]. split; [| split; [exact Ot | split; [congruence |]]].
      * rewrite It, Ir.
        rewrite (remove_entry_absent k (inorder l)) by exact (bst_not_in_left _ _ _ _ _ _ B0 (or_introl L)).
        rewrite remove_entry_other; [reflexivity |].
        intros ->. exact (slt_irrefl _ L).
      * rewrite in_app_iff. simpl. intros [X | [X | X]].
        -- destruct (bst_not_in_left _ _ _ _ _ _ B0 (or_introl L) X).
        -- subst. destruct (slt_irrefl _ L).
        -- rewrite S3. now apply Sr.
    + rewrite E1, E2 in *.
      destruct (IHl k f w Bl Hl R C) as (l' & w1 & El & Il & Ol & Rl & Sl).
      destruct (retrace_ok rw rc l' r w1 Ol Hr) as (t' & w' & Et & It & Ot & (S1 & S2 & S3)).
      exists t', w'. rewrite (bind_run _ _ _ _ _ El).
      split; [exact Et |]. split; [| split; [exact Ot | split; [congruence |]]].
      * rewrite It, Il.
        rewrite remove_entry_other by exact (slt_neq _ _ L).
        now rewrite (remove_entry_absent k (inorder r))
          by exact (bst_not_in_right _ _ _ _ _ _ B0 (or_introl L)).
      * rewrite in_app_iff. simpl. intros [X | [X | X]].
        -- rewrite S3. now apply Sl.
        -- subst. destruct (slt_irrefl _ L).
        -- destruct (bst_not_in_right _ _ _ _ _ _ B0 (or_introl L) X).
    + rewrite E1, E2 in *. subst rw. cbn [count_of] in C.
      assert (T : (rc =? 1) || negb (f =? 0) = true).
      { apply orb_true_iff. destruct C as [C | C].
        - right. apply negb_true_iff. lia.
        - left. inversion C. reflexivity. }
      rewrite T. rewrite remove_entry_head.
      rewrite (remove_entry_absent k (inorder l)) by exact (bst_not_in_left _ _ _ _ _ _ B0 (or_intror eq_refl)).
      rewrite (remove_entry_absent k (inorder r)) by exact (bst_not_in_right _ _ _ _ _ _ B0 (or_intror eq_refl)).
      destruct l as [| lw lc ll lr lh]; [| destruct r as [| xw xc xl xr xh]].
      * exists r, w. split; [now destruct r |].
        split; [reflexivity |]. split; [exact Hr |]. split; reflexivity.
      * exists (node lw lc ll lr lh), w. split; [reflexivity |].
        split; [cbn [inorder]; now rewrite app_nil_r |].
        split; [exact Hl |]. split; reflexivity.
      * set (L := node lw lc ll lr lh) in *. set (X := node xw xc xl xr xh) in *.
        unfold bind at 1. unfold rand at 1.
        set (w0 := mkWorld (rand_src w) (S (rand_calls w)) (stdout w) (rotations w)).
        assert (P : negb (Z.rem (rand_src w (rand_calls w)) 2 =? 0) = true).
        { apply negb_true_iff, Z.eqb_neq, R. }
        rewrite P.
        destruct (smallestIn_head X) as (tw & tc & tl & tr & th & rest & Es & Is); [discriminate |].
        assert (Ax : ascending (tw :: List.map fst rest)).
        { apply bst_ascending in Br. unfold keys in Br. now rewrite Is in Br. }
        apply ascending_cons in Ax. destruct Ax as [_ Ax].
        assert (Nt : ~ In tw (List.map fst rest)).
        { intros Hin. rewrite Forall_forall in Ax. exact (slt_irrefl _ (Ax _ Hin)). }
        destruct (IHr tw 1 w0 Br Hr R ltac:(left; lia)) as (r' & w1 & Er & Ir & Or & Rr & Sr).
        destruct (retrace_ok tw tc L r' w1 Hl Or) as (t' & w' & Et & It & Ot & (S1 & S2 & S3)).
        exists t', w'. rewrite Es. unfold bind at 1 2 3. cbn [lift word_of count_of].
        rewrite (bind_run _ _ _ _ _ Er).
        split; [exact Et |]. split; [| split; [exact Ot | split]].
        -- rewrite It, Ir, Is, remove_entry_head, (remove_entry_absent tw rest Nt).
           reflexivity.
        -- rewrite S1, Rr. reflexivity.
        -- intros _. rewrite S3, Sr; [reflexivity |].
           unfold keys. rewrite Is. now left.
Qed.

(** With odd draws, [deleteFromTree] of a word held with count 1
    removes exactly its entry and keeps invariants 1 and 4. *)
Lemma deleteFromTree_successor (tree : Tree) (k : string) (w : World) :
  bst (root tree) -> heights_ok (root tree) ->
  (forall n, Z.rem (rand_src w n) 2 <> 0) ->
  count_of (search tree k) = Some 1 ->
  exists tree' w',
    deleteFromTree tree k w = Some (tree', w') /\
    inorder (root tree') = remove_entry k (inorder (root tree)) /\
    bst (root tree') /\ heights_ok (root tree') /\
    stdout w' = stdout w.
Proof.
  intros B H R C. rewrite search_root in C. destruct tree as [t]. cbn [root] in *.
  unfold deleteFromTree. cbn [root].
  destruct t as [| rw rc l r h]; [discriminate |].
  destruct (deleteAux_successor _ k 0 w B H R (or_intror C)) as (t' & w' & E & I & O & _ & S).
  exists (mkTree t'), w'. rewrite (bind_run _ _ _ _ _ E). cbn [root].
  split; [reflexivity |]. split; [exact I |]. split; [| split; [exact O |]].
  - apply bst_ascending. unfold keys. rewrite I. apply remove_entry_ascending.
    now apply bst_ascending in B.
  - apply S. rewrite (searchAux_lookup _ _ B) in C.
    destruct (In_dec string_dec k (keys (node rw rc l r h))) as [Y | Y]; [exact Y |].
    apply lookup_not_in in Y. congruence.
Qed.

(** ** Insertion keeps the tree balanced *)

Lemma getBalance_tbal (t : Node) : heights_ok t -> getBalance t = tbal t.
Proof.
  destruct t as [| k c l r h]; [reflexivity |].
  cbn [heights_ok getBalance tbal]. intros (_ & Hl & Hr).
  now rewrite (height_true _ Hl), (height_true _ Hr).
Qed.

(** [rebalance] on a node whose children are balanced, whose subtree
    heights differ by at most 2, and whose taller child, when they
    differ by 2, has a non-zero balance factor: either the node was
    within one level and is returned as it is, or it is rotated into a
    balanced tree one level lower, with balance factor 0. *)
Lemma rebalance_fix (k : string) (c : Z) (l r : Node) (h : Z) (w : World) :
  heights_ok (node k c l r h) -> balanced l -> balanced r ->
  -2 <= true_height l - true_height r <= 2 ->
  (true_height l - true_height r = 2 -> tbal l <> 0) ->
  (true_height l - true_height r = -2 -> tbal r <> 0) ->
  exists t' w',
    rebalance (node k c l r h) w = Some (t', w') /\
    balanced t' /\
    ((-1 <= true_height l - true_height r <= 1 /\ t' = node k c l r h /\ w' = w) \/
     ((true_height l - true_height r = 2 \/ true_height l - true_height r = -2) /\
      true_height t' = h - 1 /\ tbal t' = 0)).
Proof.
  intros H Bl Br D Dl Dr. pose proof H as H0.
  cbn [heights_ok] in H. destruct H as (Hh & Hl & Hr).
  destruct (Z_le_dec (-1) (true_height l - true_height r)) as [Lo | Lo];
    [destruct (Z_le_dec (true_height l - true_height r) 1) as [Hi | Hi] |].
  - exists (node k c l r h), w. split; [| split].
    + apply rebalance_within. rewrite (getBalance_tbal _ H0). cbn [tbal]. lia.
    + cbn [balanced]. auto.
    + left. auto.
  - (* left-heavy by two *)
    assert (D2 : true_height l - true_height r = 2) by lia.
    specialize (Dl D2). clear Dr.
    destruct l as [| lk lc ll lr lh]; [cbn [true_height] in D2; pose proof (true_height_nonneg r); lia |].
    cbn [heights_ok] in Hl. destruct Hl as (Hlh & Hll & Hlr).
    cbn [balanced] in Bl. destruct Bl as (Bb & Bll & Blr).
    cbn [tbal] in Dl. cbn [true_height] in D2, Hh.
    rewrite rebalance_node. cbn [height getBalance].
    rewrite (height_true _ Hll), (height_true _ Hlr), (height_true _ Hr).
    destruct (Z_lt_dec 0 (true_height ll - true_height lr)) as [P | P].
    + assert (T1 : (lh - true_height r >? 1) && (true_height ll - true_height lr >? 0) = true).
      { apply andb_true_iff. split; lia. }
      rewrite T1, rotateRight_run.
      eexists. eexists. split; [reflexivity |].
      cbn [balanced true_height tbal height].
      rewrite !max_Zmax, (height_true _ Hll), (height_true _ Hlr), (height_true _ Hr).
      split; [| right]; repeat split; try assumption; lia.
    + assert (T1 : (lh - true_height r >? 1) && (true_height ll - true_height lr >? 0) = false).
      { apply andb_false_iff. right. lia. }
      assert (T2 : (lh - true_height r <? -1) = false) by lia.
      assert (T3 : (lh - true_height r >? 1) && (true_height ll - true_height lr <? 0) = true).
      { apply andb_true_iff. split; lia. }
      rewrite T1, T2, T3. cbn [andb].
      destruct lr as [| mk mc ml mr mh];
        [cbn [true_height] in *; pose proof (true_height_nonneg ll); lia |].
      cbn [heights_ok] in Hlr. destruct Hlr as (Hmh & Hml & Hmr).
      cbn [balanced] in Blr. destruct Blr as (Bm & Bml & Bmr).
      cbn [true_height] in *.
      rewrite (bind_run _ _ _ _ _ (rotateLeft_run _ _ _ _ _ _ _ _ _ _)), rotateRight_run.
      eexists. eexists. split; [reflexivity |].
      cbn [balanced true_height tbal height].
      rewrite !max_Zmax, (height_true _ Hll), (height_true _ Hml), (height_true _ Hmr),
        (height_true _ Hr).
      split; [| right]; repeat split; try assumption; lia.
  - (* right-heavy by two *)
    assert (D2 : true_height l - true_height r = -2) by lia.
    specialize (Dr D2). clear Dl.
    destruct r as [| rk rc rl rr rh]; [cbn [true_height] in D2; pose proof (true_height_nonneg l); lia |].
    cbn [heights_ok] in Hr. destruct Hr as (Hrh & Hrl & Hrr).
    cbn [balanced] in Br. destruct Br as (Bb & Brl & Brr).
    cbn [tbal] in Dr. cbn [true_height] in D2, Hh.
    rewrite rebalance_node. cbn [height getBalance].
    rewrite (height_true _ Hrl), (height_true _ Hrr), (height_true _ Hl).
    assert (T0 : forall b, (true_height l - rh >? 1) && b = false).
    { intros b. apply andb_false_iff. left. lia. }
    rewrite !T0.
    destruct (Z_lt_dec (true_height rl - true_height rr) 0) as [P | P].
    + assert (T1 : (true_height l - rh <? -1) && (true_height rl - true_height rr <? 0) = true).
      { apply andb_true_iff. split; lia. }
      rewrite T1, rotateLeft_run.
      eexists. eexists. split; [reflexivity |].
      cbn [balanced true_height tbal height].
      rewrite !max_Zmax, (height_true _ Hrl), (height_true _ Hrr), (height_true _ Hl).
      split; [| right]; repeat split; try assumption; lia.
    + assert (T1 : (true_height l - rh <? -1) && (true_height rl - true_height rr <? 0) = false).
      { apply andb_false_iff. right. lia. }
      assert (T3 : (true_height l - rh <? -1) && (true_height rl - true_height rr >? 0) = true).
      { apply andb_true_iff. split; lia. }
      rewrite T1, T3.
      destruct rl as [| mk mc ml mr mh];
        [cbn [true_height] in *; pose proof (true_height_nonneg rr); lia |].
      cbn [heights_ok] in Hrl. destruct Hrl as (Hmh & Hml & Hmr).
      cbn [balanced] in Brl. destruct Brl as (Bm & Bml & Bmr).
      cbn [true_height] in *.
      rewrite (bind_run _ _ _ _ _ (rotateRight_run _ _ _ _ _ _ _ _ _ _)), rotateLeft_run.
      eexists. eexists. split; [reflexivity |].
      cbn [balanced true_height tbal height].
      rewrite !max_Zmax, (height_true _ Hrr), (height_true _ Hml), (height_true _ Hmr),
        (height_true _ Hl).
      split; [| right]; repeat split; try assumption; lia.
Qed.

Lemma retrace_fix (k : string) (c : Z) (l r : Node) (w : World) :
  heights_ok l -> heights_ok r -> balanced l -> balanced r ->
  -2 <= true_height l - true_height r <= 2 ->
  (true_height l - true_height r = 2 -> tbal l <> 0) ->
  (true_height l - true_height r = -2 -> tbal r <> 0) ->
  exists t' w',
    retrace k c l r w = Some (t', w') /\
    balanced t' /\
    ((-1 <= true_height l - true_height r <= 1 /\
      true_height t' = 1 + Z.max (true_height l) (true_height r) /\
      tbal t' = true_height l - true_height r) \/
     ((true_height l - true_height r = 2 \/ true_height l - true_height r = -2) /\
      true_height t' = Z.max (true_height l) (true_height r) /\ tbal t' = 0)).
Proof.
  intros Hl Hr Bl Br D Dl Dr. unfold retrace.
  assert (H : heights_ok (node k c l r (max (height l) (height r) + 1))).
  { cbn [heights_ok]. rewrite max_Zmax, (height_true _ Hl), (height_true _ Hr).
    repeat split; try assumption; lia. }
  destruct (rebalance_fix k c l r _ w H Bl Br D Dl Dr) as (t' & w' & E & B & C).
  exists t', w'. split; [exact E |]. split; [exact B |].
  rewrite max_Zmax, (height_true _ Hl), (height_true _ Hr) in C.
  destruct C as [(C1 & -> & _) | (C1 & C2 & C3)].
  - left. cbn [true_height tbal]. repeat split; lia.
  - right. repeat split; try assumption; lia.
Qed.

(** [insertAux] keeps the height and balance invariants; the subtree
    keeps its height or grows by one level, and when a non-empty
    subtree grows its new root leans to one side. *)
Lemma insertAux_balanced (t : Node) (k : string) :
  forall w : World,
  heights_ok t -> balanced t ->
  exists t' w',
    insertAux t k w = Some (t', w') /\
    heights_ok t' /\ balanced t' /\
    (true_height t' = true_height t \/
     (true_height t' = true_height t + 1 /\ (t = NULL \/ tbal t' <> 0))).
Proof.
  induction t as [| rw rc l IHl r IHr h]; intros w H B.
  - exists (createNode k), w. split; [reflexivity |].
    split; [cbn; auto |]. split; [cbn; lia |]. right. split; [reflexivity | now left].
  - pose proof H as H0. cbn [heights_ok] in H. destruct H as (Hh & Hl & Hr).
    pose proof B as B0. cbn [balanced] in B. destruct B as (Bb & Bl & Br).
    pose proof (true_height_nonneg l) as Nl. pose proof (true_height_nonneg r) as Nr.
    cbn [insertAux true_height].
    destruct (strcmp_cases k rw) as [(E & L) | [(E1 & E2 & L) | (E1 & E2 & Heq)]].
    + rewrite E.
      destruct (IHr w Hr Br) as (r' & w1 & Er & Or & Br' & Gr).
      rewrite (bind_run _ _ _ _ _ Er).
      assert (Nz : r = NULL -> true_height r = 0) by (intros ->; reflexivity).
      destruct (retrace_fix rw rc l r' w1 Hl Or Bl Br') as (t' & w' & Et & Bt & C).
      * lia.
      * lia.
      * intros D. destruct Gr as [Gr | (Gr & [Gn | Gn])]; [lia | specialize (Nz Gn); lia | exact Gn].
      * exists t', w'. split; [exact Et |].
        destruct (retrace_ok rw rc l r' w1 Hl Or) as (t2 & w2 & Et2 & _ & Ot2 & _).
        rewrite Et in Et2. inversion Et2; subst t2 w2.
        split; [exact Ot2 |]. split; [exact Bt |].
        destruct C as [(C1 & C2 & C3) | (C1 & C2 & C3)]; lia.
    + rewrite E1, E2.
      destruct (IHl w Hl Bl) as (l' & w1 & El & Ol & Bl' & Gl).
      rewrite (bind_run _ _ _ _ _ El).
      assert (Nz : l = NULL -> true_height l = 0) by (intros ->; reflexivity).
      destruct (retrace_fix rw rc l' r w1 Ol Hr Bl' Br) as (t' & w' & Et & Bt & C).
      * lia.
      * intros D. destruct Gl as [Gl | (Gl & [Gn | Gn])]; [lia | specialize (Nz Gn); lia | exact Gn].
      * lia.
      * exists t', w'. split; [exact Et |].
        destruct (retrace_ok rw rc l' r w1 Ol Hr) as (t2 & w2 & Et2 & _ & Ot2 & _).
        rewrite Et in Et2. inversion Et2; subst t2 w2.
        split; [exact Ot2 |]. split; [exact Bt |].
        destruct C as [(C1 & C2 & C3) | (C1 & C2 & C3)]; lia.
    + rewrite E1, E2.
      exists (node rw (wrap_int (rc + 1)) l r h), w.
      split; [apply retrace_steady; [exact H0 | exact Bb] |].
      split; [exact H0 |]. split; [exact B0 |]. left. reflexivity.
Qed.

(** [insert] keeps the three structural invariants of the data model. *)
Lemma insert_keeps_invariants (tree : Tree) (k : string) (w : World) :
  bst (root tree) -> heights_ok (root tree) -> balanced (root tree) ->
  exists tree' w',
    insert tree k w = Some (tree', w') /\
    bst (root tree') /\ heights_ok (root tree') /\ balanced (root tree').
Proof.
  intros B H A.
  destruct (insert_ok tree k w B H) as (tree' & w' & E & _ & B' & H' & _).
  exists tree', w'. split; [exact E |]. split; [exact B' |]. split; [exact H' |].
  destruct tree as [t]. cbn [root] in *. unfold insert in E. cbn [root] in E.
  destruct t as [| rw rc l r h].
  - inversion E; subst. cbn. lia.
  - destruct (insertAux_balanced (node rw rc l r h) k w H A) as (t' & w1 & E1 & _ & A1 & _).
    rewrite (bind_run _ _ _ _ _ E1) in E. inversion E; subst. exact A1.
Qed.

(** A run of inserts alone, from a tree that meets the three
    invariants, returns a tree that meets them. *)
Lemma run_inserts_keep_invariants (ws : list string) :
  forall (tree : Tree) (w : World),
  bst (root tree) -> heights_ok (root tree) -> balanced (root tree) ->
  exists tree' w',
    run tree (List.map CmdInsert ws) w = Some (tree', w') /\
    bst (root tree') /\ heights_ok (root tree') /\ balanced (root tree').
Proof.
  induction ws as [| x ws IH]; intros tree w B H A.
  - exists tree, w. repeat split; assumption.
  - destruct (insert_keeps_invariants tree x w B H A) as (t1 & w1 & E1 & B1 & H1 & A1).
    destruct (IH t1 w1 B1 H1 A1) as (t2 & w2 & E2 & I2).
    exists t2, w2. split; [| exact I2].
    cbn [List.map run execute]. now rewrite (bind_run _ _ _ _ _ E1).
Qed.

(** ** Auxiliary facts for the scenarios and for repeated inserts *)

Lemma ascending_count_occ (k : string) (ks : list string) :
  ascending ks -> In k ks -> count_occ string_dec ks k = 1%nat.
Proof.
  induction ks as [| a ks IH]; intros A Hin; [contradiction |].
  apply ascending_cons in A. destruct A as [As Af].
  cbn [count_occ]. destruct (string_dec a k) as [-> | N].
  - f_equal. apply count_occ_not_In. intros Hk.
    rewrite Forall_forall in Af. exact (slt_irrefl _ (Af _ Hk)).
  - destruct Hin as [-> | Hin]; [contradiction |]. now apply IH.
Qed.

Lemma insert_times_ok (k : string) (n : nat) :
  forall (tree : Tree) (w : World),
  bst (root tree) -> heights_ok (root tree) ->
  exists tree' w',
    insert_times n tree k w = Some (tree', w') /\
    bst (root tree') /\ heights_ok (root tree') /\
    lookup k (inorder (root tree')) = Nat.iter n bump (lookup k (inorder (root tree))) /\
    (forall x, x <> k -> lookup x (inorder (root tree')) = lookup x (inorder (root tree))).
Proof.
  induction n as [| n IH]; intros tree w B H.
  - exists tree, w. repeat split; try assumption.
  - destruct (insert_ok tree k w B H) as (t1 & w1 & E1 & I1 & B1 & H1 & _).
    destruct (IH t1 w1 B1 H1) as (t2 & w2 & E2 & B2 & H2 & L2 & X2).
    exists t2, w2. cbn [insert_times]. rewrite (bind_run _ _ _ _ _ E1).
    split; [exact E2 |]. split; [exact B2 |]. split; [exact H2 |]. split.
    + rewrite L2, I1.
      rewrite lookup_add_entry_same by (apply bst_ascending in B; exact B).
      symmetry. apply Nat.iter_succ_r.
    + intros x N. rewrite (X2 x N), I1. now apply lookup_add_entry_other.
Qed.

Lemma bst_ascendingb (t : Node) : bst t -> ascendingb (keys t) = true.
Proof.
  intros B. apply ascendingb_spec, ascending_locally. now apply bst_ascending.
Qed.

(** ** The properties of the specification *)

(** C1, evaluation.  The tree built from "d","b","f","a","c","e","g",
    then delete "d" (the root, with two children).  When [rand()]
    returns an odd value the successor "e" is promoted and the in-order
    keys are "a","b","c","e","f","g".  When it returns an even value
    the code takes [largestIn] of the RIGHT subtree, "g", copies it over
    the root and force-deletes "g" from the LEFT subtree, where it is
    not: "g" now occurs twice, "e" and "f" sit to the right of a larger
    key, and the BST order is lost. *)
Theorem two_child_delete_scenario :
  (exists t' w',
     run createTree
       [CmdInsert "d"; CmdInsert "b"; CmdInsert "f"; CmdInsert "a"; CmdInsert "c";
        CmdInsert "e"; CmdInsert "g"; CmdDelete "d"] (boot (fun _ => 1))
     = Some (t', w') /\
     keys (root t') = ["a"; "b"; "c"; "e"; "f"; "g"] /\ bst (root t')) /\
  (exists t' w',
     run createTree
       [CmdInsert "d"; CmdInsert "b"; CmdInsert "f"; CmdInsert "a"; CmdInsert "c";
        CmdInsert "e"; CmdInsert "g"; CmdDelete "d"] (boot (fun _ => 0))
     = Some (t', w') /\
     keys (root t') = ["a"; "b"; "c"; "g"; "e"; "f"; "g"] /\ ~ bst (root t')).
Proof.
  split.
  - eexists. eexists. split; [reflexivity |]. split; [reflexivity |].
    apply bst_ascending. repeat constructor.
  - eexists. eexists. split; [reflexivity |]. split; [reflexivity |].
    intros B. apply bst_ascendingb in B. discriminate B.
Qed.

(** C2, evaluation.  When the balance factor is above 1 and the left
    child's balance factor is 0, or below -1 with the right child's
    balance factor 0, every test of [rebalance] fails (the source
    compares the child's balance factor with [> 0] and [< 0] only) and
    the node is returned as it is, with no rotation. *)
Theorem rebalance_skips_even_child (k : string) (c : Z) (l r : Node) (h : Z) (w : World) :
  (getBalance (node k c l r h) > 1 /\ getBalance l = 0) \/
  (getBalance (node k c l r h) < -1 /\ getBalance r = 0) ->
  rebalance (node k c l r h) w = Some (node k c l r h, w).
Proof.
  cbn [getBalance]. intros Hb. rewrite rebalance_node.
  destruct Hb as [[G Z0] | [G Z0]]; rewrite Z0.
  - assert (E : (height l - height r <? -1) = false) by lia.
    rewrite E. cbn. now rewrite !andb_false_r.
  - assert (E : (height l - height r >? 1) = false) by lia.
    rewrite E. cbn. now rewrite !andb_false_r.
Qed.

Lemma rebalance_skips_even_child_witness :
  rebalance (node "c" 1 (node "b" 1 (createNode "a") (createNode "bb") 2) NULL 3)
    (boot (fun _ => 0))
  = Some (node "c" 1 (node "b" 1 (createNode "a") (createNode "bb") 2) NULL 3,
          boot (fun _ => 0)).
Proof.
  apply (rebalance_skips_even_child "c" 1 (node "b" 1 (createNode "a") (createNode "bb") 2)
           NULL 3 (boot (fun _ => 0))).
  left. split; [reflexivity | reflexivity].
Defined.

(** C3, evaluation.  Insert "c","b","d","a","bb", then delete the leaf
    "d".  The root "c" is left with a subtree of height 2 on the left
    and none on the right, its left child having balance factor 0, and
    [rebalance] returns it as it is: the height fields are correct but
    the tree is not balanced.  No [rand()] call is involved. *)
Theorem delete_leaves_unbalanced (src : nat -> Z) :
  run createTree
    [CmdInsert "c"; CmdInsert "b"; CmdInsert "d"; CmdInsert "a"; CmdInsert "bb";
     CmdDelete "d"] (boot src)
  = Some (mkTree (node "c" 1 (node "b" 1 (createNode "a") (createNode "bb") 2) NULL 3),
          boot src) /\
  heights_ok (node "c" 1 (node "b" 1 (createNode "a") (createNode "bb") 2) NULL 3) /\
  true_height (node "b" 1 (createNode "a") (createNode "bb") 2) - true_height NULL = 2 /\
  ~ balanced (node "c" 1 (node "b" 1 (createNode "a") (createNode "bb") 2) NULL 3).
Proof.
  split; [reflexivity |]. split; [simpl; repeat split; reflexivity |].
  split; [reflexivity |].
  intros B. apply balancedb_spec in B. discriminate B.
Qed.

(** C4, evaluation.  Insert "b","a","c", then delete "b" with [rand()]
    returning an even value: the root takes the key "c" of the right
    subtree's largest node, which stays where it is.  Two nodes hold
    "c" and the in-order sequence "a","c","c" is not strictly
    ascending. *)
Theorem delete_duplicates_key :
  exists w',
    run createTree [CmdInsert "b"; CmdInsert "a"; CmdInsert "c"; CmdDelete "b"]
      (boot (fun _ => 0))
    = Some (mkTree (node "c" 1 (createNode "a") (createNode "c") 2), w') /\
    keys (node "c" 1 (createNode "a") (createNode "c") 2) = ["a"; "c"; "c"] /\
    ~ ascending (keys (node "c" 1 (createNode "a") (createNode "c") 2)) /\
    ~ bst (node "c" 1 (createNode "a") (createNode "c") 2).
Proof.
  eexists. split; [reflexivity |]. split; [reflexivity |]. split.
  - intros A. apply ascending_locally, ascendingb_spec in A. discriminate A.
  - intros B. apply bst_ascendingb in B. discriminate B.
Qed.

(** C5, evaluation.  [deleteFromTree] of "m", present with count 1 and
    two children, with [rand()] returning an even value: no node leaves
    the structure (three nodes before, three after), the key of the
    right child is duplicated into the root, and the run prints the
    not-found line for "t" although the word to delete was present. *)
Theorem delete_present_reports_not_found :
  deleteFromTree (mkTree (node "m" 1 (createNode "f") (createNode "t") 2)) "m"
    (boot (fun _ => 0))
  = Some (mkTree (node "t" 1 (createNode "f") (createNode "t") 2),
          mkWorld (fun _ => 0) 1 [NotFoundLine "t"] []) /\
  count_of (search (mkTree (node "m" 1 (createNode "f") (createNode "t") 2)) "m") = Some 1 /\
  List.length (inorder (node "m" 1 (createNode "f") (createNode "t") 2)) = 3%nat /\
  List.length (inorder (node "t" 1 (createNode "f") (createNode "t") 2)) = 3%nat.
Proof. repeat split; reflexivity. Qed.

(** C6. Delete is a partial inverse of insert.  On a tree that meets
    the BST-order and height invariants, when [search] finds [k] with
    count [c], one [deleteFromTree] of [k] returns, and afterwards
    [search] of [k] reports not-found ([NULL]) if [c] was 1, and a node
    with count [c - 1] if [c] was greater than 1. *)
Theorem delete_then_search (tree : Tree) (k : string) (c : Z) (w : World) :
  bst (root tree) -> heights_ok (root tree) ->
  count_of (search tree k) = Some c ->
  exists tree' w',
    deleteFromTree tree k w = Some (tree', w') /\
    (c = 1 -> search tree' k = NULL) /\
    (c > 1 -> count_of (search tree' k) = Some (c - 1)).
Proof.
  intros B H C.
  destruct (deleteFromTree_ok tree k w H) as (tree' & w' & E & O & Inc & Rm & Dc).
  exists tree', w'. split; [exact E |]. split.
  - intros ->. rewrite search_root. apply searchAux_absent. now apply Rm.
  - intros G. assert (N : c <> 1) by lia.
    pose proof (Dc B c C N) as I.
    assert (B' : bst (root tree')).
    { apply bst_ascending. unfold keys. rewrite I, dec_entry_keys. now apply bst_ascending in B. }
    rewrite search_root, (searchAux_lookup _ _ B'), I, lookup_dec_entry.
    rewrite search_root, (searchAux_lookup _ _ B) in C. now rewrite C.
Qed.

Lemma delete_then_search_witness :
  exists tree' w',
    deleteFromTree (mkTree (node "k" 2 (createNode "a") NULL 2)) "k" (boot (fun _ => 0))
      = Some (tree', w') /\
    (2 = 1 -> search tree' "k" = NULL) /\
    (2 > 1 -> count_of (search tree' "k") = Some (2 - 1)).
Proof.
  apply (delete_then_search (mkTree (node "k" 2 (createNode "a") NULL 2)) "k" 2
           (boot (fun _ => 0))).
  - simpl. repeat split; repeat constructor.
  - simpl. repeat split; reflexivity.
  - reflexivity.
Defined.

(** C6 without the two invariants.  Insert "b","a","c", then delete "b"
    with [rand()] even: the tree is "c" over "a" and "c", its height
    fields correct, its BST order lost.  [search] finds "c" with count
    1, and after one [deleteFromTree] of "c", whatever [rand()]
    returns, [search] still finds "c" with count 1.  And on a tree in
    BST order whose node "a" has the height field -1, where [search]
    finds "d" with count 2, [deleteFromTree] of "d" never returns: on
    the way back [rebalance] takes the root for a Left-Right case and
    [rotateLeft] dereferences the absent right child of "b". *)
Lemma delete_keeps_key :
  run createTree [CmdInsert "b"; CmdInsert "a"; CmdInsert "c"; CmdDelete "b"]
    (boot (fun _ => 0))
  = Some (mkTree (node "c" 1 (createNode "a") (createNode "c") 2),
          mkWorld (fun _ => 0) 1 [NotFoundLine "c"] []) /\
  heights_ok (node "c" 1 (createNode "a") (createNode "c") 2) /\
  count_of (search (mkTree (node "c" 1 (createNode "a") (createNode "c") 2)) "c") = Some 1 /\
  (forall w : World, exists tree' w',
     deleteFromTree (mkTree (node "c" 1 (createNode "a") (createNode "c") 2)) "c" w
     = Some (tree', w') /\
     count_of (search tree' "c") = Some 1) /\
  bst (node "c" 1 (node "b" 1 (node "a" 1 NULL NULL (-1)) NULL 5) (node "d" 2 NULL NULL 1) 6) /\
  count_of (search (mkTree (node "c" 1 (node "b" 1 (node "a" 1 NULL NULL (-1)) NULL 5)
                                    (node "d" 2 NULL NULL 1) 6)) "d") = Some 2 /\
  (forall w : World,
     deleteFromTree (mkTree (node "c" 1 (node "b" 1 (node "a" 1 NULL NULL (-1)) NULL 5)
                                   (node "d" 2 NULL NULL 1) 6)) "d" w = None).
Proof.
  split; [reflexivity |]. split; [cbn; repeat split; reflexivity |].
  split; [reflexivity |]. split; [| split; [| split]].
  - intros w. unfold deleteFromTree, bind, rand. cbn.
    destruct (Z.rem (rand_src w (rand_calls w)) 2 =? 0); cbn;
      eexists; eexists; split; reflexivity.
  - cbn. repeat split; repeat constructor.
  - reflexivity.
  - intros w. reflexivity.
Qed.

(** C7. Count correctness.  On a tree that meets the BST-order and
    height invariants and does not hold [k], [n] successive inserts of
    [k], for [n] from 1 to [INT_MAX], return a tree in which exactly
    one node holds [k] and [search] finds it with count [n]. *)
Theorem insert_times_count (tree : Tree) (k : string) (n : nat) (w : World) :
  bst (root tree) -> heights_ok (root tree) ->
  ~ In k (keys (root tree)) -> (1 <= n)%nat -> Z.of_nat n <= INT_MAX ->
  exists tree' w',
    insert_times n tree k w = Some (tree', w') /\
    count_occ string_dec (keys (root tree')) k = 1%nat /\
    count_of (search tree' k) = Some (Z.of_nat n).
Proof.
  intros B H N G Hi.
  destruct (insert_times_ok k n tree w B H) as (tree' & w' & E & B' & H' & L & _).
  exists tree', w'. split; [exact E |].
  rewrite (lookup_not_in _ _ N) in L.
  rewrite (iter_bump_bounded n None G) in L by (unfold INT_MIN; cbn; lia).
  cbn [Z.add] in L.
  split.
  - apply ascending_count_occ; [now apply bst_ascending |].
    destruct (In_dec string_dec k (keys (root tree'))) as [Y | Y]; [exact Y |].
    apply lookup_not_in in Y. congruence.
  - rewrite search_root, (searchAux_lookup _ _ B'), L. reflexivity.
Qed.

Lemma insert_times_count_witness :
  exists tree' w',
    insert_times 3 createTree "word" (boot (fun _ => 0)) = Some (tree', w') /\
    count_occ string_dec (keys (root tree')) "word" = 1%nat /\
    count_of (search tree' "word") = Some (Z.of_nat 3).
Proof.
  apply (insert_times_count createTree "word" 3 (boot (fun _ => 0))).
  - exact I.
  - exact I.
  - simpl. tauto.
  - lia.
  - unfold INT_MAX. lia.
Defined.

(** From the empty tree, the count after [n >= 1] inserts of a word is
    [n] wrapped to an [int]. *)
Lemma insert_times_wraps (k : string) (n : nat) (w : World) :
  (1 <= n)%nat ->
  exists tree' w',
    insert_times n createTree k w = Some (tree', w') /\
    count_of (search tree' k) = Some (wrap_int (Z.of_nat n)).
Proof.
  intros G.
  destruct (insert_times_ok k n createTree w I I) as (tree' & w' & E & B' & _ & L & _).
  exists tree', w'. split; [exact E |].
  rewrite search_root, (searchAux_lookup _ _ B'), L.
  now apply iter_bump_wraps.
Qed.

(** C7 without the three conditions.  A run of 24 inserts and deletes
    from the empty tree, with [rand()] even in its first two calls and
    odd afterwards, ends on a tree whose height fields are correct,
    whose BST order is lost and which does not hold "26"; the node "27"
    has balance factor 2 and its left child "29" balance factor -2.
    The first insert of "26" hangs it left of that "29" and the
    Left-Right double rotation lifts "21" above it; the second insert
    goes right at "21" and makes a second node: two nodes hold "26" and
    [search] reports count 1.  From the empty tree, [INT_MAX + 1]
    inserts of "word" leave one node whose count has wrapped to
    [INT_MIN].  On a tree in BST order whose node "a" has the height
    field -1, the insert of the absent "e" never returns: [rotateLeft]
    dereferences the absent right child of "b". *)
Lemma insert_times_miscount :
  (exists w,
     run createTree
       [CmdInsert "19"; CmdInsert "11"; CmdInsert "27"; CmdInsert "21"; CmdInsert "15";
        CmdInsert "13"; CmdInsert "33"; CmdInsert "29"; CmdDelete "19"; CmdInsert "21";
        CmdInsert "29"; CmdDelete "13"; CmdInsert "19"; CmdInsert "15"; CmdInsert "27";
        CmdInsert "21"; CmdInsert "17"; CmdInsert "25"; CmdInsert "23"; CmdDelete "27";
        CmdDelete "33"; CmdDelete "21"; CmdDelete "33"; CmdInsert "13"]
       (boot (fun n => match n with O | S O => 0 | _ => 1 end))
     = Some (mkTree
    (node "25" 1
       (node "19" 1
          (node "15" 1 (node "11" 1 NULL (createNode "13") 2) (createNode "17") 3)
          (node "21" 1 NULL (createNode "23") 2) 4)
       (node "27" 1
          (node "29" 1 NULL (node "21" 1 (createNode "15") (createNode "29") 2) 3)
          (createNode "29") 4) 5), w)) /\
  heights_ok
    (node "25" 1
       (node "19" 1
          (node "15" 1 (node "11" 1 NULL (createNode "13") 2) (createNode "17") 3)
          (node "21" 1 NULL (createNode "23") 2) 4)
       (node "27" 1
          (node "29" 1 NULL (node "21" 1 (createNode "15") (createNode "29") 2) 3)
          (createNode "29") 4) 5) /\
  ~ In "26" (keys
    (node "25" 1
       (node "19" 1
          (node "15" 1 (node "11" 1 NULL (createNode "13") 2) (createNode "17") 3)
          (node "21" 1 NULL (createNode "23") 2) 4)
       (node "27" 1
          (node "29" 1 NULL (node "21" 1 (createNode "15") (createNode "29") 2) 3)
          (createNode "29") 4) 5)) /\
  (forall w : World, exists tree' w',
     insert_times 2 (mkTree
    (node "25" 1
       (node "19" 1
          (node "15" 1 (node "11" 1 NULL (createNode "13") 2) (createNode "17") 3)
          (node "21" 1 NULL (createNode "23") 2) 4)
       (node "27" 1
          (node "29" 1 NULL (node "21" 1 (createNode "15") (createNode "29") 2) 3)
          (createNode "29") 4) 5)) "26" w = Some (tree', w') /\
     count_occ string_dec (keys (root tree')) "26" = 2%nat /\
     count_of (search tree' "26") = Some 1) /\
  (exists tree' w',
     insert_times (Z.to_nat (INT_MAX + 1)) createTree "word" (boot (fun _ => 0))
     = Some (tree', w') /\
     count_of (search tree' "word") = Some INT_MIN) /\
  bst (node "c" 1 (node "b" 1 (node "a" 1 NULL NULL (-1)) NULL 5) (createNode "d") 6) /\
  ~ In "e" (keys (node "c" 1 (node "b" 1 (node "a" 1 NULL NULL (-1)) NULL 5) (createNode "d") 6)) /\
  (forall w : World, insert_times 1 (mkTree (node "c" 1 (node "b" 1 (node "a" 1 NULL NULL (-1)) NULL 5) (createNode "d") 6)) "e" w = None).
Proof.
  split; [eexists; vm_compute; reflexivity |].
  split; [cbn; repeat split; reflexivity |].
  split; [vm_compute; intuition discriminate |].
  split; [intros w; eexists; eexists; split; [reflexivity | split; reflexivity] |].
  split.
  { assert (G : (1 <= Z.to_nat (INT_MAX + 1))%nat).
    { apply Nat2Z.inj_le. rewrite Z2Nat.id; unfold INT_MAX; lia. }
    destruct (insert_times_wraps "word" (Z.to_nat (INT_MAX + 1)) (boot (fun _ => 0)) G)
      as (tree' & w' & E & C).
    exists tree', w'. split; [exact E |].
    rewrite C, Z2Nat.id by (unfold INT_MAX; lia). reflexivity. }
  split; [cbn; repeat split; repeat constructor |].
  split; [cbn; intros [H | [H | [H | [H | []]]]]; discriminate |].
  intros w. reflexivity.
Qed.

(** C8. Search.  On a tree that meets the BST-order invariant,
    [search] returns the node of the tree that holds the searched word
    when the word is among the keys, and [NULL] when it is not; case 2
    of the command loop, which calls it, leaves the tree as it was,
    makes no [rand()] call and performs no rotation. *)
Theorem search_correct (tree : Tree) (k : string) (w : World) :
  bst (root tree) ->
  (In k (keys (root tree)) ->
   exists c l r h, search tree k = node k c l r h /\
                   node_of (node k c l r h) (root tree)) /\
  (~ In k (keys (root tree)) -> search tree k = NULL) /\
  (exists w', execute tree (CmdSearch k) w = Some (tree, w') /\
              rand_calls w' = rand_calls w /\ rotations w' = rotations w).
Proof.
  intros B. rewrite search_root. split; [| split].
  - intros Hin. apply lookup_in in Hin. destruct Hin as [c Hc].
    rewrite <- (searchAux_lookup _ _ B) in Hc.
    destruct (searchAux (root tree) k) as [| w0 c0 l r h] eqn:E; [discriminate |].
    destruct (searchAux_found _ _ _ _ _ _ _ E) as [-> P].
    now exists c0, l, r, h.
  - apply searchAux_absent.
  - cbn [execute]. destruct (search tree k); eexists; repeat split.
Qed.

Lemma search_correct_witness :
  (In "b" (keys (node "b" 1 (createNode "a") (createNode "c") 2)) ->
   exists c l r h,
     search (mkTree (node "b" 1 (createNode "a") (createNode "c") 2)) "b" = node "b" c l r h /\
     node_of (node "b" c l r h) (node "b" 1 (createNode "a") (createNode "c") 2)) /\
  (~ In "b" (keys (node "b" 1 (createNode "a") (createNode "c") 2)) ->
   search (mkTree (node "b" 1 (createNode "a") (createNode "c") 2)) "b" = NULL) /\
  (exists w',
     execute (mkTree (node "b" 1 (createNode "a") (createNode "c") 2)) (CmdSearch "b")
       (boot (fun _ => 0))
     = Some (mkTree (node "b" 1 (createNode "a") (createNode "c") 2), w') /\
     rand_calls w' = rand_calls (boot (fun _ => 0)) /\
     rotations w' = rotations (boot (fun _ => 0))).
Proof.
  apply (search_correct (mkTree (node "b" 1 (createNode "a") (createNode "c") 2)) "b"
           (boot (fun _ => 0))).
  simpl. repeat split; repeat constructor.
Defined.

(** C8 without the BST order.  Insert "d","b","f","a","c","e","g", then
    delete "d" with [rand()] even: the tree has "g" at the root, above
    "b" (over "a" and "c") and "f" (over "e" and "g"); its height
    fields are correct and its BST order is lost.  The nodes of "e" and
    "f" are in the tree and [search] returns [NULL] for both words. *)
Lemma search_misses_key :
  run createTree [CmdInsert "d"; CmdInsert "b"; CmdInsert "f"; CmdInsert "a";
                  CmdInsert "c"; CmdInsert "e"; CmdInsert "g"; CmdDelete "d"]
    (boot (fun _ => 0))
  = Some (mkTree (node "g" 1 (node "b" 1 (createNode "a") (createNode "c") 2)
                    (node "f" 1 (createNode "e") (createNode "g") 2) 3),
          mkWorld (fun _ => 0) 1 [NotFoundLine "g"] []) /\
  heights_ok (node "g" 1 (node "b" 1 (createNode "a") (createNode "c") 2)
                (node "f" 1 (createNode "e") (createNode "g") 2) 3) /\
  node_of (createNode "e")
    (node "g" 1 (node "b" 1 (createNode "a") (createNode "c") 2)
       (node "f" 1 (createNode "e") (createNode "g") 2) 3) /\
  search (mkTree (node "g" 1 (node "b" 1 (createNode "a") (createNode "c") 2)
                    (node "f" 1 (createNode "e") (createNode "g") 2) 3)) "e" = NULL /\
  node_of (node "f" 1 (createNode "e") (createNode "g") 2)
    (node "g" 1 (node "b" 1 (createNode "a") (createNode "c") 2)
       (node "f" 1 (createNode "e") (createNode "g") 2) 3) /\
  search (mkTree (node "g" 1 (node "b" 1 (createNode "a") (createNode "c") 2)
                    (node "f" 1 (createNode "e") (createNode "g") 2) 3)) "f" = NULL.
Proof.
  split; [reflexivity |]. split; [cbn; repeat split; reflexivity |].
  split; [apply node_right, node_left, node_here; reflexivity |].
  split; [reflexivity |].
  split; [apply node_right, node_here; reflexivity |].
  reflexivity.
Qed.

(** C9. Rotation trigger.  From the empty tree, inserting "c" and then
    "b" performs no rotation; the third insert, of "a", finds the root
    "c" with balance factor 2 and its left child with balance factor 1
    (Left-Left) and performs one rotation, a right rotation on "c".
    The final tree has root "b" and in-order keys "a", "b", "c". *)
Theorem rotation_trigger_scenario (src : nat -> Z) :
  run createTree [CmdInsert "c"; CmdInsert "b"] (boot src)
  = Some (mkTree (node "c" 1 (createNode "b") NULL 2), boot src) /\
  getBalance (node "c" 1 (node "b" 1 (createNode "a") NULL 2) NULL 3) = 2 /\
  getBalance (node "b" 1 (createNode "a") NULL 2) = 1 /\
  run createTree [CmdInsert "c"; CmdInsert "b"; CmdInsert "a"] (boot src)
  = Some (mkTree (node "b" 1 (createNode "a") (createNode "c") 2),
          mkWorld src 0 [] [RotRight "c"]) /\
  keys (node "b" 1 (createNode "a") (createNode "c") 2) = ["a"; "b"; "c"].
Proof. repeat split; reflexivity. Qed.

(** C10. Null safety of rebalancing.  On a node whose height fields
    are correct, [rebalance] (with the rotations it calls) returns: no
    absent child is dereferenced.  A balance factor above 1 comes with
    a present left child and one below -1 with a present right child;
    in the Left-Right case the left child's right child is present and
    in the Right-Left case the right child's left child is present.
    [height] and [getBalance] return 0 on an absent node. *)
Theorem rebalance_safe (t : Node) (w : World) :
  heights_ok t ->
  (exists t' w', rebalance t w = Some (t', w')) /\
  (getBalance t > 1 -> exists l, left_of t = Some l /\ l <> NULL) /\
  (getBalance t < -1 -> exists r, right_of t = Some r /\ r <> NULL) /\
  (forall l, left_of t = Some l -> getBalance t > 1 -> getBalance l < 0 ->
   exists lr, right_of l = Some lr /\ lr <> NULL) /\
  (forall r, right_of t = Some r -> getBalance t < -1 -> getBalance r > 0 ->
   exists rl, left_of r = Some rl /\ rl <> NULL) /\
  height NULL = 0 /\ getBalance NULL = 0.
Proof.
  intros H. split.
  { destruct (rebalance_ok t w H) as (t' & w' & E & _). now exists t', w'. }
  destruct t as [| k c l r hh]; cbn [getBalance left_of right_of].
  { repeat split; try lia; intros; discriminate. }
  cbn [heights_ok] in H. destruct H as (_ & Hl & Hr).
  pose proof (height_nonneg _ Hl) as Nl. pose proof (height_nonneg _ Hr) as Nr.
  split; [| split; [| split; [| split]]].
  - intros G. exists l. split; [reflexivity |]. intros ->. cbn [height] in *. lia.
  - intros G. exists r. split; [reflexivity |]. intros ->. cbn [height] in *. lia.
  - intros l0 E G1 G2. inversion E; subst l0.
    destruct l as [| lk lc ll lr lh]; cbn [getBalance] in G2; [lia |].
    cbn [heights_ok] in Hl. destruct Hl as (_ & Hll & Hlr).
    pose proof (height_nonneg _ Hll) as Nll.
    exists lr. split; [reflexivity |]. intros ->. cbn [height] in *. lia.
  - intros r0 E G1 G2. inversion E; subst r0.
    destruct r as [| rk rc rl rr rh]; cbn [getBalance] in G2; [lia |].
    cbn [heights_ok] in Hr. destruct Hr as (_ & Hrl & Hrr).
    pose proof (height_nonneg _ Hrr) as Nrr.
    exists rl. split; [reflexivity |]. intros ->. cbn [height] in *. lia.
  - split; reflexivity.
Qed.

Lemma rebalance_safe_witness :
  (exists t' w',
     rebalance (node "c" 1 (node "b" 1 (createNode "a") NULL 2) NULL 3) (boot (fun _ => 0))
     = Some (t', w')) /\
  (getBalance (node "c" 1 (node "b" 1 (createNode "a") NULL 2) NULL 3) > 1 ->
   exists l, left_of (node "c" 1 (node "b" 1 (createNode "a") NULL 2) NULL 3) = Some l /\
             l <> NULL) /\
  (getBalance (node "c" 1 (node "b" 1 (createNode "a") NULL 2) NULL 3) < -1 ->
   exists r, right_of (node "c" 1 (node "b" 1 (createNode "a") NULL 2) NULL 3) = Some r /\
             r <> NULL) /\
  (forall l, left_of (node "c" 1 (node "b" 1 (createNode "a") NULL 2) NULL 3) = Some l ->
   getBalance (node "c" 1 (node "b" 1 (createNode "a") NULL 2) NULL 3) > 1 ->
   getBalance l < 0 -> exists lr, right_of l = Some lr /\ lr <> NULL) /\
  (forall r, right_of (node "c" 1 (node "b" 1 (createNode "a") NULL 2) NULL 3) = Some r ->
   getBalance (node "c" 1 (node "b" 1 (createNode "a") NULL 2) NULL 3) < -1 ->
   getBalance r > 0 -> exists rl, left_of r = Some rl /\ rl <> NULL) /\
  height NULL = 0 /\ getBalance NULL = 0.
Proof.
  apply (rebalance_safe (node "c" 1 (node "b" 1 (createNode "a") NULL 2) NULL 3)
           (boot (fun _ => 0))).
  simpl. repeat split; reflexivity.
Defined.

(** ** Further properties: traversals *)

Lemma shown_app (a b : list view_line) : shown (a ++ b) = shown a ++ shown b.
Proof. unfold shown. apply flat_map_app. Qed.

Lemma depths_app (a b : list view_line) : depths (a ++ b) = depths a ++ depths b.
Proof. unfold depths. apply flat_map_app. Qed.

Lemma viewAux_shown (t : Node) (d : Z) : shown (viewAux t d) = rev (inorder t).
Proof.
  revert d. induction t as [| w c l IHl r IHr h]; intros d; [reflexivity |].
  cbn [viewAux inorder]. rewrite shown_app, rev_app_distr. cbn [rev].
  rewrite <- app_assoc. cbn [app].
  change (shown (ViewLine d w c :: viewAux l (d + 1)))
    with ((w, c) :: shown (viewAux l (d + 1))).
  now rewrite IHl, IHr.
Qed.

Lemma printInOrder_keys (t : Node) : printInOrder t = keys t.
Proof.
  induction t as [| w c l IHl r IHr h]; [reflexivity |].
  rewrite keys_node. cbn [printInOrder]. now rewrite IHl, IHr.
Qed.

Lemma ascending_rev (ks : list string) :
  ascending ks -> StronglySorted (fun a b => slt b a) (rev ks).
Proof.
  induction ks as [| a ks IH]; intros A; [constructor |].
  apply ascending_cons in A. destruct A as [As Af]. cbn [rev].
  specialize (IH As). revert IH.
  assert (F : Forall (fun x => slt a x) (rev ks)).
  { rewrite Forall_forall in *. intros x Hx. apply Af. now apply in_rev. }
  revert F. generalize (rev ks) as l. clear.
  induction l as [| b l IH]; intros F S.
  - repeat constructor.
  - inversion F; subst. inversion S; subst. cbn [app]. constructor.
    + now apply IH.
    + rewrite Forall_app. split; [assumption |]. now repeat constructor.
Qed.

Lemma viewAux_depths (t : Node) (d : Z) :
  Forall (fun x => d <= x < d + true_height t) (depths (viewAux t d)).
Proof.
  revert d. induction t as [| w c l IHl r IHr h]; intros d; [constructor |].
  cbn [viewAux true_height]. rewrite depths_app.
  change (depths (ViewLine d w c :: viewAux l (d + 1)))
    with (d :: depths (viewAux l (d + 1))).
  pose proof (true_height_nonneg l). pose proof (true_height_nonneg r).
  rewrite Forall_app. split; [| constructor; [lia |]].
  - eapply Forall_impl; [| apply (IHr (d + 1))]. cbv beta. intros x Hx. lia.
  - eapply Forall_impl; [| apply (IHl (d + 1))]. cbv beta. intros x Hx. lia.
Qed.

Lemma size_inorder (t : Node) : size t = Z.of_nat (List.length (inorder t)).
Proof.
  induction t as [| w c l IHl r IHr h]; [reflexivity |].
  cbn [size inorder]. rewrite length_app. cbn [List.length]. lia.
Qed.

(** ** Further properties: inserts and searches compose *)

Lemma lookup_keys_iff (k : string) (es : list (string * Z)) :
  In k (List.map fst es) <-> lookup k es <> None.
Proof.
  split.
  - intros H. apply lookup_in in H. destruct H as [c Hc]. congruence.
  - intros H. destruct (In_dec string_dec k (List.map fst es)) as [Y | Y]; [exact Y |].
    apply lookup_not_in in Y. contradiction.
Qed.

Lemma occurrences_cons (k x : string) (ws : list string) :
  occurrences k (x :: ws) = (if string_dec x k then 1 else 0) + occurrences k ws.
Proof.
  unfold occurrences. cbn [count_occ]. destruct (string_dec x k); lia.
Qed.

Lemma occurrences_nonneg (k : string) (ws : list string) : 0 <= occurrences k ws.
Proof. unfold occurrences. lia. Qed.

Lemma occurrences_zero (k : string) (ws : list string) :
  occurrences k ws = 0 <-> ~ In k ws.
Proof.
  unfold occurrences. rewrite (count_occ_not_In string_dec). lia.
Qed.

(** A run of inserts on a tree that meets invariants 1 and 4: it
    returns, keeps them, and every word's count is the old count
    incremented once per time the word was inserted. *)
Lemma run_inserts_ok (ws : list string) :
  forall (tree : Tree) (w : World),
  bst (root tree) -> heights_ok (root tree) ->
  exists tree' w',
    run tree (List.map CmdInsert ws) w = Some (tree', w') /\
    bst (root tree') /\ heights_ok (root tree') /\ same_io w w' /\
    (forall k,
       lookup k (inorder (root tree')) =
       Nat.iter (count_occ string_dec ws k) bump (lookup k (inorder (root tree)))).
Proof.
  induction ws as [| x ws IH]; intros tree w B H.
  - exists tree, w. repeat split; try assumption; reflexivity.
  - destruct (insert_ok tree x w B H) as (t1 & w1 & E1 & I1 & B1 & H1 & S1).
    destruct (IH t1 w1 B1 H1) as (t2 & w2 & E2 & B2 & H2 & S2 & L2).
    exists t2, w2. cbn [List.map run execute]. rewrite (bind_run _ _ _ _ _ E1).
    split; [exact E2 |]. split; [exact B2 |]. split; [exact H2 |].
    split; [exact (same_io_trans _ _ _ S1 S2) |].
    intros k. rewrite L2, I1. cbn [count_occ].
    destruct (string_dec x k) as [-> | D].
    + rewrite lookup_add_entry_same by (apply bst_ascending in B; exact B).
      symmetry. apply Nat.iter_succ_r.
    + now rewrite lookup_add_entry_other by congruence.
Qed.

(** The explicit count, as long as it stays within [int]. *)
Lemma iter_bump_count (k : string) (ws : list string) (es : list (string * Z)) :
  (occurrences k ws <> 0 ->
   INT_MIN <= count_in k es /\ count_in k es + occurrences k ws <= INT_MAX) ->
  Nat.iter (count_occ string_dec ws k) bump (lookup k es) =
  if occurrences k ws =? 0 then lookup k es
  else Some (count_in k es + occurrences k ws).
Proof.
  unfold occurrences, count_in. intros Bd.
  destruct (count_occ string_dec ws k) as [| n] eqn:E; [reflexivity |].
  assert (Z1 : (Z.of_nat (S n) =? 0) = false) by (apply Z.eqb_neq; lia). rewrite Z1.
  destruct Bd as [Lo Hi]; [lia |].
  apply iter_bump_bounded; [lia | exact Lo | exact Hi].
Qed.

(** X1. After any sequence of inserts into the empty tree,
    [printInOrder] prints exactly the distinct words that were
    inserted, each once and in strictly ascending order, and [view]
    shows the same words in the opposite order. *)
Theorem printInOrder_after_inserts (ws : list string) (src : nat -> Z) :
  exists tree' w',
    run createTree (List.map CmdInsert ws) (boot src) = Some (tree', w') /\
    ascending (printInOrder (root tree')) /\
    (forall x, In x (printInOrder (root tree')) <-> In x ws) /\
    List.map fst (shown (view tree')) = rev (printInOrder (root tree')).
Proof.
  destruct (run_inserts_ok ws createTree (boot src) I I) as (t & w & E & B & H & _ & L).
  exists t, w. split; [exact E |]. rewrite printInOrder_keys.
  split; [now apply bst_ascending |]. split.
  - intros x. unfold keys. rewrite lookup_keys_iff, L. cbn [createTree root inorder lookup].
    destruct (In_dec string_dec x ws) as [Y | Y].
    + split; [intros _; exact Y | intros _].
      apply (count_occ_In string_dec) in Y.
      destruct (iter_bump_some (count_occ string_dec ws x) None) as [c Hc]; [lia |].
      rewrite Hc. discriminate.
    + split; [| intros Hx; contradiction].
      apply (count_occ_not_In string_dec) in Y. rewrite Y. intros N. now exfalso.
  - unfold view. destruct (root t) as [| rw rc l r h] eqn:R; [reflexivity |].
    rewrite viewAux_shown. unfold keys. now rewrite map_rev.
Qed.

(** X2. On a search tree, [view] shows every (word, count) pair of the
    tree once, in the reverse of the in-order sequence, so the words
    come in strictly descending order. *)
Theorem view_descending (tree : Tree) :
  bst (root tree) ->
  shown (view tree) = rev (inorder (root tree)) /\
  StronglySorted (fun a b => slt b a) (List.map fst (shown (view tree))).
Proof.
  intros B.
  assert (E : shown (view tree) = rev (inorder (root tree))).
  { unfold view. destruct (root tree) as [| rw rc l r h]; [reflexivity |]. apply viewAux_shown. }
  split; [exact E |]. rewrite E, map_rev. apply ascending_rev. now apply bst_ascending in B.
Qed.

Lemma view_descending_witness :
  shown (view (mkTree (node "b" 2 (createNode "a") (createNode "c") 2)))
  = rev (inorder (root (mkTree (node "b" 2 (createNode "a") (createNode "c") 2)))) /\
  StronglySorted (fun a b => slt b a)
    (List.map fst (shown (view (mkTree (node "b" 2 (createNode "a") (createNode "c") 2))))).
Proof.
  apply (view_descending (mkTree (node "b" 2 (createNode "a") (createNode "c") 2))).
  simpl. repeat split; repeat constructor.
Defined.

Lemma viewAux_length (t : Node) (d : Z) :
  List.length (viewAux t d) = List.length (inorder t).
Proof.
  revert d. induction t as [| w c l IHl r IHr h]; intros d; [reflexivity |].
  cbn [viewAux inorder]. rewrite !length_app. cbn [List.length].
  rewrite (IHl (d + 1)), (IHr (d + 1)). lia.
Qed.

(** X3. On the empty tree [view] prints the single line "Empty.".  On
    any other tree it prints one line per node: the root's line, with
    no tab, after the lines of the right subtree and before the lines
    of the left subtree, which all carry at least one tab.  When the
    height fields are correct every line is indented by fewer tabs
    than the root's height field. *)
Theorem view_indentation (tree : Tree) :
  match root tree with
  | NULL => view tree = [ViewEmpty]
  | node w c l r _ =>
      view tree = viewAux r 1 ++ ViewLine 0 w c :: viewAux l 1 /\
      Z.of_nat (List.length (view tree)) = size (root tree) /\
      Forall (fun d => 1 <= d) (depths (viewAux r 1)) /\
      Forall (fun d => 1 <= d) (depths (viewAux l 1))
  end /\
  (heights_ok (root tree) ->
   Forall (fun d => 0 <= d < height (root tree)) (depths (view tree))).
Proof.
  split.
  - destruct tree as [t]. cbn [root]. destruct t as [| w c l r h]; [reflexivity |].
    split; [reflexivity |]. split; [| split].
    + unfold view. cbn [root]. rewrite size_inorder. f_equal. apply viewAux_length.
    + eapply Forall_impl; [| apply (viewAux_depths r 1)]. cbv beta. intros d Hd. lia.
    + eapply Forall_impl; [| apply (viewAux_depths l 1)]. cbv beta. intros d Hd. lia.
  - intros H. unfold view. destruct (root tree) as [| rw rc l r h] eqn:R; [constructor |].
    rewrite <- R in *. rewrite (height_true _ H). apply (viewAux_depths (root tree) 0).
Qed.

Lemma view_indentation_witness :
  (view (mkTree (node "b" 2 (createNode "a") (createNode "c") 2))
   = viewAux (createNode "c") 1 ++ ViewLine 0 "b" 2 :: viewAux (createNode "a") 1 /\
   Z.of_nat (List.length (view (mkTree (node "b" 2 (createNode "a") (createNode "c") 2))))
   = size (root (mkTree (node "b" 2 (createNode "a") (createNode "c") 2))) /\
   Forall (fun d => 1 <= d) (depths (viewAux (createNode "c") 1)) /\
   Forall (fun d => 1 <= d) (depths (viewAux (createNode "a") 1))) /\
  Forall (fun d => 0 <= d < height (root (mkTree (node "b" 2 (createNode "a") (createNode "c") 2))))
    (depths (view (mkTree (node "b" 2 (createNode "a") (createNode "c") 2)))).
Proof.
  destruct (view_indentation (mkTree (node "b" 2 (createNode "a") (createNode "c") 2)))
    as [A B].
  split; [exact A |]. apply B. simpl. repeat split; reflexivity.
Defined.

(** X4. Inserts and searches compose.  On a tree that meets the
    BST-order and height invariants, after a run of inserts [search]
    reports every word that was not inserted exactly as before, and
    finds each inserted word with its old count (0 when it was absent)
    plus the number of times it was inserted, provided the old count
    is an [int] and that sum does not exceed [INT_MAX]. *)
Theorem inserts_then_search (tree : Tree) (ws : list string) (k : string) (w : World) :
  bst (root tree) -> heights_ok (root tree) ->
  (occurrences k ws <> 0 ->
   INT_MIN <= count_in k (inorder (root tree)) /\
   count_in k (inorder (root tree)) + occurrences k ws <= INT_MAX) ->
  exists tree' w',
    run tree (List.map CmdInsert ws) w = Some (tree', w') /\
    count_of (search tree' k) =
    if occurrences k ws =? 0 then count_of (search tree k)
    else Some (count_in k (inorder (root tree)) + occurrences k ws).
Proof.
  intros B H Bd.
  destruct (run_inserts_ok ws tree w B H) as (t & w' & E & B' & _ & _ & L).
  exists t, w'. split; [exact E |].
  rewrite !search_root, (searchAux_lookup _ _ B'), (searchAux_lookup _ _ B), L.
  now apply iter_bump_count.
Qed.

Lemma inserts_then_search_witness :
  exists tree' w',
    run (mkTree (createNode "b")) (List.map CmdInsert ["a"; "b"; "a"]) (boot (fun _ => 0))
    = Some (tree', w') /\
    count_of (search tree' "b") =
    if occurrences "b" ["a"; "b"; "a"] =? 0 then count_of (search (mkTree (createNode "b")) "b")
    else Some (count_in "b" (inorder (root (mkTree (createNode "b"))))
               + occurrences "b" ["a"; "b"; "a"]).
Proof.
  apply (inserts_then_search (mkTree (createNode "b")) ["a"; "b"; "a"] "b" (boot (fun _ => 0))).
  - simpl. repeat split; constructor.
  - simpl. repeat split; reflexivity.
  - intros _. vm_compute. split; discriminate.
Defined.

(** ** Further properties: every run of the loop *)

Lemma insertAux_total (t : Node) (k : string) :
  forall w : World,
  heights_ok t ->
  exists t' w',
    insertAux t k w = Some (t', w') /\ heights_ok t' /\
    incl (keys t') (k :: keys t) /\ same_io w w'.
Proof.
  induction t as [| rw rc l IHl r IHr h]; intros w H.
  - exists (createNode k), w. split; [reflexivity |]. split; [cbn; auto |].
    split; [| now unfold same_io]. intros x Hx. exact Hx.
  - cbn [heights_ok] in H. destruct H as (Hh & Hl & Hr).
    cbn [insertAux]. rewrite keys_node.
    destruct (strcmp_cases k rw) as [(E & L) | [(E1 & E2 & L) | (E1 & E2 & Heq)]].
    + rewrite E.
      destruct (IHr w Hr) as (r' & w1 & Er & Or & Ir & Sr).
      destruct (retrace_ok rw rc l r' w1 Hl Or) as (t' & w' & Et & It & Ot & St).
      exists t', w'. rewrite (bind_run _ _ _ _ _ Er).
      split; [exact Et |]. split; [exact Ot |]. split; [| exact (same_io_trans _ _ _ Sr St)].
      intros x Hx. rewrite (keys_of_inorder _ _ _ _ _ It), in_app_iff in Hx.
      simpl in *. rewrite in_app_iff. simpl.
      destruct Hx as [Hx | [Hx | Hx]]; auto.
      apply Ir in Hx. simpl in Hx. tauto.
    + rewrite E1, E2.
      destruct (IHl w Hl) as (l' & w1 & El & Ol & Il & Sl).
      destruct (retrace_ok rw rc l' r w1 Ol Hr) as (t' & w' & Et & It & Ot & St).
      exists t', w'. rewrite (bind_run _ _ _ _ _ El).
      split; [exact Et |]. split; [exact Ot |]. split; [| exact (same_io_trans _ _ _ Sl St)].
      intros x Hx. rewrite (keys_of_inorder _ _ _ _ _ It), in_app_iff in Hx.
      simpl in *. rewrite in_app_iff. simpl.
      destruct Hx as [Hx | [Hx | Hx]]; auto.
      apply Il in Hx. simpl in Hx. tauto.
    + rewrite E1, E2.
      destruct (retrace_ok rw (wrap_int (rc + 1)) l r w Hl Hr) as (t' & w' & Et & It & Ot & St).
      exists t', w'. split; [exact Et |]. split; [exact Ot |]. split; [| exact St].
      intros x Hx. rewrite (keys_of_inorder _ _ _ _ _ It) in Hx. now right.
Qed.

Lemma execute_total (tree : Tree) (c : command) (w : World) :
  heights_ok (root tree) ->
  exists tree' w',
    execute tree c w = Some (tree', w') /\ heights_ok (root tree') /\
    (forall x, In x (keys (root tree')) -> In x (keys (root tree)) \/ c = CmdInsert x).
Proof.
  intros H. destruct c as [k | k | k]; cbn [execute].
  - destruct tree as [t]. cbn [root] in *. unfold insert. cbn [root].
    destruct t as [| rw rc l r h].
    + eexists. eexists. split; [reflexivity |]. cbn [root]. split; [cbn; auto |].
      intros x Hx. cbn in Hx. destruct Hx as [<- | []]. now right.
    + destruct (insertAux_total (node rw rc l r h) k w H) as (t' & w' & E & O & Inc & _).
      exists (mkTree t'), w'. rewrite (bind_run _ _ _ _ _ E). cbn [root].
      split; [reflexivity |]. split; [exact O |].
      intros x Hx. apply Inc in Hx. destruct Hx as [-> | Hx]; [now right | now left].
  - destruct (search tree k); eexists; eexists; (split; [reflexivity |]); split; auto.
  - destruct (deleteFromTree_ok tree k w H) as (tree' & w' & E & O & Inc & _).
    exists tree', w'. split; [exact E |]. split; [exact O |].
    intros x Hx. left. now apply Inc.
Qed.

(** X5. Every run of insert, search and delete commands, whatever
    values [rand()] returns, on a tree whose height fields are correct:
    the run returns (no operation dereferences an absent node), the
    height fields are correct afterwards, and every key of the final
    tree was a key of the initial tree or the word of an insert
    command. *)
Theorem run_returns (cs : list command) :
  forall (tree : Tree) (w : World),
  heights_ok (root tree) ->
  exists tree' w',
    run tree cs w = Some (tree', w') /\ heights_ok (root tree') /\
    (forall x, In x (keys (root tree')) ->
               In x (keys (root tree)) \/ In (CmdInsert x) cs).
Proof.
  induction cs as [| c cs IH]; intros tree w H.
  - exists tree, w. split; [reflexivity |]. split; [exact H |]. intros x Hx. now left.
  - destruct (execute_total tree c w H) as (t1 & w1 & E1 & H1 & K1).
    destruct (IH t1 w1 H1) as (t2 & w2 & E2 & H2 & K2).
    exists t2, w2. cbn [run]. rewrite (bind_run _ _ _ _ _ E1).
    split; [exact E2 |]. split; [exact H2 |].
    intros x Hx. destruct (K2 x Hx) as [Y | Y].
    + destruct (K1 x Y) as [Z0 | ->]; [now left | right; now left].
    + right. now right.
Qed.

Lemma run_returns_witness :
  exists tree' w',
    run createTree [CmdInsert "b"; CmdInsert "a"; CmdInsert "c"; CmdDelete "b"; CmdSearch "c"]
      (boot (fun _ => 0))
    = Some (tree', w') /\ heights_ok (root tree') /\
    (forall x, In x (keys (root tree')) ->
               In x (keys (root createTree)) \/
               In (CmdInsert x)
                  [CmdInsert "b"; CmdInsert "a"; CmdInsert "c"; CmdDelete "b"; CmdSearch "c"]).
Proof.
  apply (run_returns [CmdInsert "b"; CmdInsert "a"; CmdInsert "c"; CmdDelete "b"; CmdSearch "c"]
           createTree (boot (fun _ => 0))).
  exact I.
Defined.

(** ** Further properties: balance and height *)

Lemma pow2_half_step (a : Z) : 0 <= a -> 2 ^ ((a + 2) / 2) = 2 * 2 ^ (a / 2).
Proof.
  intros A. replace (a + 2) with (a + 1 * 2) by lia.
  rewrite Z.div_add by lia. rewrite Z.pow_add_r; [lia | | lia].
  apply Z.div_pos; lia.
Qed.

Lemma pow2_half_mono (a b : Z) : 0 <= a <= b -> 2 ^ (a / 2) <= 2 ^ (b / 2).
Proof.
  intros A. apply Z.pow_le_mono_r; [lia |]. apply Z.div_le_mono; lia.
Qed.

(** A balanced tree of true height [h] has at least [2^(h/2) - 1]
    nodes. *)
Lemma balanced_size (t : Node) :
  balanced t -> 2 ^ (true_height t / 2) <= size t + 1.
Proof.
  induction t as [| w c l IHl r IHr h]; intros B; [cbn; lia |].
  cbn [balanced] in B. destruct B as (Bb & Bl & Br).
  specialize (IHl Bl). specialize (IHr Br).
  pose proof (true_height_nonneg l) as Nl. pose proof (true_height_nonneg r) as Nr.
  cbn [true_height size].
  destruct (Z.eq_dec (Z.max (true_height l) (true_height r)) 0) as [Z0 | Z0].
  - rewrite Z0. cbn.
    assert (0 < 2 ^ (true_height l / 2)) by (apply Z.pow_pos_nonneg; [lia | apply Z.div_pos; lia]).
    assert (0 < 2 ^ (true_height r / 2)) by (apply Z.pow_pos_nonneg; [lia | apply Z.div_pos; lia]).
    lia.
  - set (m := Z.max (true_height l) (true_height r) - 1).
    assert (M : 0 <= m) by (unfold m; lia).
    replace (1 + Z.max (true_height l) (true_height r)) with (m + 2) by (unfold m; lia).
    rewrite (pow2_half_step m M).
    assert (Pl : 2 ^ (m / 2) <= 2 ^ (true_height l / 2)) by (apply pow2_half_mono; unfold m; lia).
    assert (Pr : 2 ^ (m / 2) <= 2 ^ (true_height r / 2)) by (apply pow2_half_mono; unfold m; lia).
    lia.
Qed.

(** X6. Inserts keep the tree an AVL tree.  On a tree that meets the
    BST-order, height and balance invariants, a run of inserts returns
    a tree that meets all three; the root's height field [h] and the
    number of nodes [n] then satisfy [2^(h/2) <= n + 1], so the height
    is at most [2 log2 (n + 1) + 1]. *)
Theorem inserts_keep_avl (tree : Tree) (ws : list string) (w : World) :
  bst (root tree) -> heights_ok (root tree) -> balanced (root tree) ->
  exists tree' w',
    run tree (List.map CmdInsert ws) w = Some (tree', w') /\
    bst (root tree') /\ heights_ok (root tree') /\ balanced (root tree') /\
    2 ^ (height (root tree') / 2) <= size (root tree') + 1.
Proof.
  intros B H A.
  destruct (run_inserts_keep_invariants ws tree w B H A) as (t & w' & E & B' & H' & A').
  exists t, w'. repeat split; try assumption.
  rewrite (height_true _ H'). now apply balanced_size.
Qed.

Lemma inserts_keep_avl_witness :
  exists tree' w',
    run createTree (List.map CmdInsert ["a"; "b"; "c"; "d"; "e"; "f"; "g"]) (boot (fun _ => 0))
    = Some (tree', w') /\
    bst (root tree') /\ heights_ok (root tree') /\ balanced (root tree') /\
    2 ^ (height (root tree') / 2) <= size (root tree') + 1.
Proof.
  apply (inserts_keep_avl createTree ["a"; "b"; "c"; "d"; "e"; "f"; "g"] (boot (fun _ => 0)));
    exact I.
Defined.

(** ** Further properties: delete *)

(** X7. Deleting a word that is not in the tree.  On a tree that meets
    the height and balance invariants, [deleteFromTree] of a word that
    no node holds returns the very same tree, makes no [rand()] call and
    no rotation, and prints exactly one line: the not-found line, or
    the empty-tree line when the tree has no node. *)
Theorem delete_absent_unchanged (tree : Tree) (k : string) (w : World) :
  heights_ok (root tree) -> balanced (root tree) -> ~ In k (keys (root tree)) ->
  deleteFromTree tree k w =
  Some (tree,
        mkWorld (rand_src w) (rand_calls w)
          (stdout w ++ [match root tree with
                        | NULL => EmptyLine k
                        | node _ _ _ _ _ => NotFoundLine k
                        end])
          (rotations w)).
Proof.
  intros H B N. destruct tree as [t]. cbn [root] in *. unfold deleteFromTree. cbn [root].
  destruct t as [| rw rc l r h]; [reflexivity |].
  now rewrite (bind_run _ _ _ _ _ (deleteAux_absent _ k 0 w H B N)).
Qed.

Lemma delete_absent_unchanged_witness :
  deleteFromTree (mkTree (node "b" 1 (createNode "a") (createNode "c") 2)) "x" (boot (fun _ => 0))
  = Some (mkTree (node "b" 1 (createNode "a") (createNode "c") 2),
          mkWorld (rand_src (boot (fun _ => 0))) (rand_calls (boot (fun _ => 0)))
            (stdout (boot (fun _ => 0))
             ++ [match root (mkTree (node "b" 1 (createNode "a") (createNode "c") 2)) with
                 | NULL => EmptyLine "x"
                 | node _ _ _ _ _ => NotFoundLine "x"
                 end])
            (rotations (boot (fun _ => 0)))).
Proof.
  apply (delete_absent_unchanged (mkTree (node "b" 1 (createNode "a") (createNode "c") 2)) "x"
           (boot (fun _ => 0))).
  - simpl. repeat split; reflexivity.
  - simpl. repeat split; lia.
  - simpl. intros [H | [H | [H | []]]]; discriminate H.
Defined.



Lemma lookup_remove_entry_other (k x : string) (es : list (string * Z)) :
  x <> k -> lookup x (remove_entry k es) = lookup x es.
Proof.
  intros N. induction es as [| [y cy] es IH]; [reflexivity |].
  unfold remove_entry in *. cbn [List.filter fst].
  destruct (strcmp k y =? 0) eqn:Ek; cbn [negb lookup].
  - apply Z.eqb_eq, strcmp_eq in Ek. subst y.
    destruct (strcmp x k =? 0) eqn:Ex; [| exact IH].
    apply Z.eqb_eq, strcmp_eq in Ex. contradiction.
  - now rewrite IH.
Qed.

(** Force-deleting the smallest word of a search tree removes the
    head of its in-order sequence, with no [rand()] call and no
    output. *)
Lemma deleteAux_min (t : Node) :
  forall (tw : string) (tc : Z) (rest : list (string * Z)) (f : Z) (w : World),
  bst t -> heights_ok t -> inorder t = (tw, tc) :: rest -> f <> 0 ->
  exists t' w',
    deleteAux t tw f w = Some (t', w') /\
    inorder t' = rest /\ heights_ok t' /\ same_io w w'.
Proof.
  induction t as [| rw rc l IHl r IHr h]; intros tw tc rest f w B H I F; [discriminate |].
  pose proof B as B0. cbn [bst] in B. destruct B as (Fl & Fr & Bl & Br).
  cbn [heights_ok] in H. destruct H as (Hh & Hl & Hr).
  cbn [inorder] in I. cbn [deleteAux].
  destruct l as [| lw lc ll lr lh].
  - cbn [inorder app] in I. inversion I; subst rw rc rest.
    rewrite strcmp_refl. cbn.
    assert (T : (tc =? 1) || negb (f =? 0) = true).
    { apply orb_true_iff. right. apply negb_true_iff. lia. }
    rewrite T. exists r, w. split; [now destruct r |].
    split; [reflexivity |]. split; [exact Hr | now unfold same_io].
  - destruct (inorder (node lw lc ll lr lh)) as [| e rest_l] eqn:El.
    { exfalso. cbn [inorder] in El. destruct (inorder ll); discriminate. }
    cbn [app] in I. inversion I; subst e rest.
    assert (L : slt tw rw).
    { rewrite Forall_forall in Fl. apply Fl. unfold keys. rewrite El. now left. }
    assert (E1 : (strcmp tw rw >? 0) = false) by (unfold slt in L; lia).
    assert (E2 : (strcmp tw rw <? 0) = true) by (unfold slt in L; lia).
    rewrite E1, E2.
    destruct (IHl tw tc rest_l f w Bl Hl eq_refl F) as (l' & w1 & Ed & Il & Ol & Sl).
    destruct (retrace_ok rw rc l' r w1 Ol Hr) as (t' & w' & Et & It & Ot & St).
    exists t', w'. rewrite (bind_run _ _ _ _ _ Ed).
    split; [exact Et |]. split; [now rewrite It, Il |].
    split; [exact Ot | exact (same_io_trans _ _ _ Sl St)].
Qed.

(** A delete that removes a node (forced, or count 1) on a tree that
    meets invariants 1 and 4, when the next [rand()] draw is odd: the
    in-order sequence loses the entry of [k], at most one draw is
    made, and nothing is printed when [k] was a key. *)
Lemma deleteAux_next_odd (t : Node) :
  forall (k : string) (f : Z) (w : World),
  bst t -> heights_ok t ->
  Z.rem (rand_src w (rand_calls w)) 2 <> 0 ->
  f <> 0 \/ count_of (searchAux t k) = Some 1 ->
  exists t' w',
    deleteAux t k f w = Some (t', w') /\
    inorder t' = remove_entry k (inorder t) /\
    heights_ok t' /\
    rand_src w' = rand_src w /\
    (rand_calls w' = rand_calls w \/ rand_calls w' = S (rand_calls w)) /\
    (In k (keys t) -> stdout w' = stdout w).
Proof.
  induction t as [| rw rc l IHl r IHr h]; intros k f w B H R C.
  - eexists. eexists. split; [reflexivity |]. split; [reflexivity |]. split; [exact I |].
    split; [reflexivity |]. split; [now left | intros []].
  - pose proof B as B0. cbn [bst] in B. destruct B as (Fl & Fr & Bl & Br).
    cbn [heights_ok] in H. destruct H as (Hh & Hl & Hr).
    cbn [searchAux] in C. cbn [deleteAux inorder]. rewrite remove_entry_app.
    rewrite keys_node.
    destruct (strcmp_cases k rw) as [(E & L) | [(E1 & E2 & L) | (E1 & E2 & Heq)]].
    + rewrite E in *.
      destruct (IHr k f w Br Hr R C) as (r' & w1 & Er & Ir & Or & Rr & Cr & Sr).
      destruct (retrace_ok rw rc l r' w1 Hl Or) as (t' & w' & Et & It & Ot & (S1 & S2 & S3)).
      exists t', w'. rewrite (bind_run _ _ _ _ _ Er).
      split; [exact Et |]. split; [| split; [exact Ot | split; [congruence | split]]].
      * rewrite It, Ir.
        rewrite (remove_entry_absent k (inorder l)) by exact (bst_not_in_left _ _ _ _ _ _ B0 (or_introl L)).
        rewrite remove_entry_other; [reflexivity |].
        intros ->. exact (slt_irrefl _ L).
      * rewrite S2. exact Cr.
      * rewrite in_app_iff. simpl. intros [X | [X | X]].
        -- destruct (bst_not_in_left _ _ _ _ _ _ B0 (or_introl L) X).
        -- subst. destruct (slt_irrefl _ L).
        -- rewrite S3. now apply Sr.
    + rewrite E1, E2 in *.
      destruct (IHl k f w Bl Hl R C) as (l' & w1 & El & Il & Ol & Rl & Cl & Sl).
      destruct (retrace_ok rw rc l' r w1 Ol Hr) as (t' & w' & Et & It & Ot & (S1 & S2 & S3)).
      exists t', w'. rewrite (bind_run _ _ _ _ _ El).
      split; [exact Et |]. split; [| split; [exact Ot | split; [congruence | split]]].
      * rewrite It, Il.
        rewrite remove_entry_other by exact (slt_neq _ _ L).
        now rewrite (remove_entry_absent k (inorder r))
          by exact (bst_not_in_right _ _ _ _ _ _ B0 (or_introl L)).
      * rewrite S2. exact Cl.
      * rewrite in_app_iff. simpl. intros [X | [X | X]].
        -- rewrite S3. now apply Sl.
        -- subst. destruct (slt_irrefl _ L).
        -- destruct (bst_not_in_right _ _ _ _ _ _ B0 (or_introl L) X).
    + rewrite E1, E2 in *. subst rw. cbn [count_of] in C.
      assert (T : (rc =? 1) || negb (f =? 0) = true).
      { apply orb_true_iff. destruct C as [C | C].
        - right. apply negb_true_iff. lia.
        - left. inversion C. reflexivity. }
      rewrite T. rewrite remove_entry_head.
      rewrite (remove_entry_absent k (inorder l)) by exact (bst_not_in_left _ _ _ _ _ _ B0 (or_intror eq_refl)).
      rewrite (remove_entry_absent k (inorder r)) by exact (bst_not_in_right _ _ _ _ _ _ B0 (or_intror eq_refl)).
      destruct l as [| lw lc ll lr lh]; [| destruct r as [| xw xc xl xr xh]].
      * exists r, w. split; [now destruct r |].
        split; [reflexivity |]. split; [exact Hr |]. split; [reflexivity |].
        split; [now left | reflexivity].
      * exists (node lw lc ll lr lh), w. split; [reflexivity |].
        split; [cbn [inorder]; now rewrite app_nil_r |].
        split; [exact Hl |]. split; [reflexivity |]. split; [now left | reflexivity].
      * set (L := node lw lc ll lr lh) in *. set (X := node xw xc xl xr xh) in *.
        unfold bind at 1. unfold rand at 1.
        set (w0 := mkWorld (rand_src w) (S (rand_calls w)) (stdout w) (rotations w)).
        assert (P : negb (Z.rem (rand_src w (rand_calls w)) 2 =? 0) = true).
        { apply negb_true_iff, Z.eqb_neq, R. }
        rewrite P.
        destruct (smallestIn_head X) as (tw & tc & tl & tr & th & rest & Es & Is); [discriminate |].
        destruct (deleteAux_min X tw tc rest 1 w0 Br Hr Is ltac:(lia))
          as (r' & w1 & Er & Ir & Or & (Q1 & Q2 & Q3)).
        destruct (retrace_ok tw tc L r' w1 Hl Or) as (t' & w' & Et & It & Ot & (S1 & S2 & S3)).
        exists t', w'. rewrite Es. unfold bind at 1 2 3. cbn [lift word_of count_of].
        rewrite (bind_run _ _ _ _ _ Er).
        split; [exact Et |]. split; [| split; [exact Ot | split; [| split]]].
        -- now rewrite It, Ir, Is.
        -- rewrite S1, Q1. reflexivity.
        -- right. rewrite S2, Q2. reflexivity.
        -- intros _. rewrite S3, Q3. reflexivity.
Qed.

(** [deleteFromTree] of a word held with count 1, next draw odd. *)
Lemma delete_successor_core (tree : Tree) (k : string) (w : World) :
  bst (root tree) -> heights_ok (root tree) ->
  Z.rem (rand_src w (rand_calls w)) 2 <> 0 ->
  count_of (search tree k) = Some 1 ->
  exists tree' w',
    deleteFromTree tree k w = Some (tree', w') /\
    inorder (root tree') = remove_entry k (inorder (root tree)) /\
    bst (root tree') /\ heights_ok (root tree').
Proof.
  intros B H R C. rewrite search_root in C.
  destruct tree as [t]. cbn [root] in *. unfold deleteFromTree. cbn [root].
  destruct t as [| rw rc l r h]; [discriminate |].
  destruct (deleteAux_next_odd _ k 0 w B H R (or_intror C)) as (t' & w' & E & I & O & _).
  exists (mkTree t'), w'. rewrite (bind_run _ _ _ _ _ E). cbn [root].
  split; [reflexivity |]. split; [exact I |]. split; [| exact O].
  apply bst_ascending. unfold keys. rewrite I. apply remove_entry_ascending.
  now apply bst_ascending in B.
Qed.

Lemma count_of_null (p : Node) : count_of p = None -> p = NULL.
Proof. destruct p; [reflexivity | discriminate]. Qed.

(** X9. Removing a node through the successor branch.  On a tree that
    meets the BST-order and height invariants, when the next [rand()]
    draw is odd, [deleteFromTree] of a word held with count 1 returns a
    search tree with correct heights from which exactly that word's
    entry is gone: [search] no longer finds it and finds every other
    word with its old count; at most one [rand()] call is made and
    nothing is printed. *)
Theorem delete_removes_entry (tree : Tree) (k : string) (w : World) :
  bst (root tree) -> heights_ok (root tree) ->
  Z.rem (rand_src w (rand_calls w)) 2 <> 0 ->
  count_of (search tree k) = Some 1 ->
  exists tree' w',
    deleteFromTree tree k w = Some (tree', w') /\
    bst (root tree') /\ heights_ok (root tree') /\
    inorder (root tree') = remove_entry k (inorder (root tree)) /\
    search tree' k = NULL /\
    (forall x, x <> k -> count_of (search tree' x) = count_of (search tree x)) /\
    (rand_calls w' <= S (rand_calls w))%nat /\
    stdout w' = stdout w.
Proof.
  intros B H R C. rewrite search_root in C.
  destruct tree as [t]. cbn [root] in *. unfold deleteFromTree. cbn [root].
  destruct t as [| rw rc l r h]; [discriminate |].
  destruct (deleteAux_next_odd _ k 0 w B H R (or_intror C))
    as (t' & w' & E & I & O & _ & Rc & S).
  exists (mkTree t'), w'. rewrite (bind_run _ _ _ _ _ E). cbn [root].
  assert (B' : bst t').
  { apply bst_ascending. unfold keys. rewrite I. apply remove_entry_ascending.
    now apply bst_ascending in B. }
  split; [reflexivity |]. split; [exact B' |]. split; [exact O |]. split; [exact I |].
  split; [| split; [| split]].
  - rewrite search_root. cbn [root]. apply count_of_null.
    rewrite (searchAux_lookup _ _ B'), I. apply lookup_not_in.
    unfold remove_entry. rewrite in_map_iff. intros ([y cy] & Ey & Hin).
    apply filter_In in Hin. destruct Hin as [_ Hn]. cbn [fst] in *. subst.
    now rewrite strcmp_refl in Hn.
  - intros x X. rewrite !search_root. cbn [root].
    rewrite (searchAux_lookup _ _ B'), (searchAux_lookup _ _ B), I.
    now apply lookup_remove_entry_other.
  - destruct Rc as [-> | ->]; lia.
  - apply S. rewrite (searchAux_lookup _ _ B) in C.
    destruct (In_dec string_dec k (keys (node rw rc l r h))) as [Y | Y]; [exact Y |].
    apply lookup_not_in in Y. congruence.
Qed.

Lemma delete_removes_entry_witness :
  exists tree' w',
    deleteFromTree (mkTree (node "b" 1 (createNode "a") (createNode "c") 2)) "b"
      (boot (fun _ => 1))
    = Some (tree', w') /\
    bst (root tree') /\ heights_ok (root tree') /\
    inorder (root tree')
    = remove_entry "b" (inorder (root (mkTree (node "b" 1 (createNode "a") (createNode "c") 2)))) /\
    search tree' "b" = NULL /\
    (forall x, x <> "b" ->
       count_of (search tree' x)
       = count_of (search (mkTree (node "b" 1 (createNode "a") (createNode "c") 2)) x)) /\
    (rand_calls w' <= S (rand_calls (boot (fun _ => 1%Z))))%nat /\
    stdout w' = stdout (boot (fun _ => 1)).
Proof.
  apply (delete_removes_entry (mkTree (node "b" 1 (createNode "a") (createNode "c") 2)) "b"
           (boot (fun _ => 1))).
  - simpl. repeat split; repeat constructor.
  - simpl. repeat split; reflexivity.
  - simpl. discriminate.
  - reflexivity.
Defined.

Lemma remove_add_entry (k : string) (es : list (string * Z)) :
  ~ In k (List.map fst es) -> remove_entry k (add_entry k es) = es.
Proof.
  induction es as [| [y cy] es IH]; intros N.
  - cbn [add_entry]. now rewrite remove_entry_head.
  - simpl in N. cbn [add_entry].
    destruct (strcmp_cases k y) as [(E & L) | [(E1 & E2 & L) | (E1 & E2 & Heq)]].
    + rewrite E. rewrite remove_entry_other by (intros ->; exact (slt_irrefl _ L)).
      rewrite IH by tauto. reflexivity.
    + rewrite E1, E2. rewrite remove_entry_head. apply remove_entry_absent. simpl. tauto.
    + subst. tauto.
Qed.

(** X10. Insert then delete is a round trip on the contents.  On a
    tree that meets the BST-order and height invariants and does not
    hold [k], inserting [k] and then deleting it, with the next
    [rand()] draw odd, returns a tree with the in-order sequence of
    words and counts it had before. *)
Theorem insert_delete_round_trip (tree : Tree) (k : string) (w : World) :
  bst (root tree) -> heights_ok (root tree) ->
  ~ In k (keys (root tree)) ->
  Z.rem (rand_src w (rand_calls w)) 2 <> 0 ->
  exists tree' w',
    run tree [CmdInsert k; CmdDelete k] w = Some (tree', w') /\
    inorder (root tree') = inorder (root tree) /\
    bst (root tree') /\ heights_ok (root tree').
Proof.
  intros B H N R.
  destruct (insert_ok tree k w B H) as (t1 & w1 & E1 & I1 & B1 & H1 & (S1 & S2 & S3)).
  assert (R1 : Z.rem (rand_src w1 (rand_calls w1)) 2 <> 0) by (rewrite S1, S2; exact R).
  assert (C1 : count_of (search t1 k) = Some 1).
  { rewrite search_root, (searchAux_lookup _ _ B1), I1.
    rewrite lookup_add_entry_same by (apply bst_ascending in B; exact B).
    now rewrite (lookup_not_in _ _ N). }
  destruct (delete_successor_core t1 k w1 B1 H1 R1 C1) as (t2 & w2 & E2 & I2 & B2 & H2).
  exists t2, w2. cbn [run execute]. rewrite (bind_run _ _ _ _ _ E1), (bind_run _ _ _ _ _ E2).
  split; [reflexivity |]. split; [| split; assumption].
  rewrite I2, I1. now apply remove_add_entry.
Qed.

Lemma insert_delete_round_trip_witness :
  exists tree' w',
    run (mkTree (node "b" 1 (createNode "a") (createNode "d") 2)) [CmdInsert "c"; CmdDelete "c"]
      (boot (fun _ => 1))
    = Some (tree', w') /\
    inorder (root tree') = inorder (root (mkTree (node "b" 1 (createNode "a") (createNode "d") 2))) /\
    bst (root tree') /\ heights_ok (root tree').
Proof.
  apply (insert_delete_round_trip (mkTree (node "b" 1 (createNode "a") (createNode "d") 2)) "c"
           (boot (fun _ => 1))).
  - simpl. repeat split; repeat constructor.
  - simpl. repeat split; reflexivity.
  - simpl. intros [H | [H | [H | []]]]; discriminate H.
  - simpl. discriminate.
Defined.

(** ** Further properties: rotations and rebalancing *)

(** X11. The two rotations undo each other.  On a node with correct
    height fields whose right child is present, [rotateLeft] followed
    by [rotateRight] gives back the very same node, height fields
    included; symmetrically for [rotateRight] followed by [rotateLeft]
    when the left child is present. *)
Theorem rotations_inverse (t : Node) (w : World) :
  heights_ok t ->
  (forall r, right_of t = Some r -> r <> NULL ->
   exists t1 w1 w2, rotateLeft t w = Some (t1, w1) /\ rotateRight t1 w1 = Some (t, w2)) /\
  (forall l, left_of t = Some l -> l <> NULL ->
   exists t1 w1 w2, rotateRight t w = Some (t1, w1) /\ rotateLeft t1 w1 = Some (t, w2)).
Proof.
  intros H. destruct t as [| k c l r h]; [split; intros x E; discriminate |].
  cbn [left_of right_of]. cbn [heights_ok] in H. destruct H as (Hh & Hl & Hr).
  split.
  - intros r0 E N. inversion E; subst r0.
    destruct r as [| rk rc rl rr rh]; [contradiction |].
    cbn [heights_ok] in Hr. destruct Hr as (Hrh & Hrl & Hrr).
    eexists. eexists. eexists. split; [apply rotateLeft_run |].
    rewrite rotateRight_run. f_equal. f_equal. f_equal.
    + f_equal. rewrite max_Zmax, (height_true _ Hrl), (height_true _ Hrr). lia.
    + cbn [true_height] in Hh.
      rewrite !max_Zmax, (height_true _ Hl), (height_true _ Hrl), (height_true _ Hrr). lia.
  - intros l0 E N. inversion E; subst l0.
    destruct l as [| lk lc ll lr lh]; [contradiction |].
    cbn [heights_ok] in Hl. destruct Hl as (Hlh & Hll & Hlr).
    eexists. eexists. eexists. split; [apply rotateRight_run |].
    rewrite rotateLeft_run. f_equal. f_equal. f_equal.
    + f_equal. rewrite max_Zmax, (height_true _ Hll), (height_true _ Hlr). lia.
    + cbn [true_height] in Hh.
      rewrite !max_Zmax, (height_true _ Hr), (height_true _ Hll), (height_true _ Hlr). lia.
Qed.

Lemma rotations_inverse_witness :
  (forall r, right_of (node "a" 1 NULL (createNode "b") 2) = Some r -> r <> NULL ->
   exists t1 w1 w2,
     rotateLeft (node "a" 1 NULL (createNode "b") 2) (boot (fun _ => 0)) = Some (t1, w1) /\
     rotateRight t1 w1 = Some (node "a" 1 NULL (createNode "b") 2, w2)) /\
  (forall l, left_of (node "a" 1 NULL (createNode "b") 2) = Some l -> l <> NULL ->
   exists t1 w1 w2,
     rotateRight (node "a" 1 NULL (createNode "b") 2) (boot (fun _ => 0)) = Some (t1, w1) /\
     rotateLeft t1 w1 = Some (node "a" 1 NULL (createNode "b") 2, w2)).
Proof.
  apply (rotations_inverse (node "a" 1 NULL (createNode "b") 2) (boot (fun _ => 0))).
  simpl. repeat split; reflexivity.
Defined.

(** X12. What [rebalance] repairs.  On a node with correct height
    fields and balanced children whose balance factor is 2 or -2, when
    the taller child's balance factor is not 0, [rebalance] returns a
    balanced tree with correct height fields, the same in-order
    sequence, and a height one less than the node's. *)
Theorem rebalance_restores_balance (k : string) (c : Z) (l r : Node) (h : Z) (w : World) :
  heights_ok (node k c l r h) -> balanced l -> balanced r ->
  (getBalance (node k c l r h) = 2 /\ getBalance l <> 0) \/
  (getBalance (node k c l r h) = -2 /\ getBalance r <> 0) ->
  exists t' w',
    rebalance (node k c l r h) w = Some (t', w') /\
    balanced t' /\ heights_ok t' /\
    inorder t' = inorder (node k c l r h) /\
    height t' = h - 1.
Proof.
  intros H Bl Br G. pose proof H as H0.
  cbn [heights_ok] in H. destruct H as (Hh & Hl & Hr).
  rewrite (getBalance_tbal _ H0), (getBalance_tbal _ Hl), (getBalance_tbal _ Hr) in G.
  cbn [tbal] in G.
  destruct (rebalance_fix k c l r h w H0 Bl Br) as (t' & w' & E & B & C); try lia.
  destruct (rebalance_ok (node k c l r h) w H0) as (t2 & w2 & E2 & I2 & O2 & _).
  rewrite E in E2. inversion E2; subst t2 w2.
  exists t', w'. split; [exact E |]. split; [exact B |]. split; [exact O2 |].
  split; [exact I2 |]. rewrite (height_true _ O2).
  destruct C as [(C1 & _) | (_ & C2 & _)]; [lia | exact C2].
Qed.

Lemma rebalance_restores_balance_witness :
  exists t' w',
    rebalance (node "c" 1 (node "b" 1 (createNode "a") NULL 2) NULL 3) (boot (fun _ => 0))
    = Some (t', w') /\
    balanced t' /\ heights_ok t' /\
    inorder t' = inorder (node "c" 1 (node "b" 1 (createNode "a") NULL 2) NULL 3) /\
    height t' = 3 - 1.
Proof.
  apply (rebalance_restores_balance "c" 1 (node "b" 1 (createNode "a") NULL 2) NULL 3
           (boot (fun _ => 0))).
  - simpl. repeat split; reflexivity.
  - simpl. repeat split; lia.
  - exact I.
  - left. split; [reflexivity | discriminate].
Defined.

(** X13. What [rebalance] never does.  On any node with correct height
    fields, whatever its balance factor, [rebalance] returns a tree
    with the same in-order sequence of words and counts and correct
    height fields; a search tree stays a search tree; nothing is
    printed and no [rand()] call is made. *)
Theorem rebalance_keeps_contents (t : Node) (w : World) :
  heights_ok t ->
  exists t' w',
    rebalance t w = Some (t', w') /\
    inorder t' = inorder t /\ heights_ok t' /\ (bst t -> bst t') /\
    stdout w' = stdout w /\ rand_calls w' = rand_calls w.
Proof.
  intros H. destruct (rebalance_ok t w H) as (t' & w' & E & I & O & (S1 & S2 & S3)).
  exists t', w'. repeat split; try assumption.
  intros B. apply bst_ascending. unfold keys. rewrite I. now apply bst_ascending in B.
Qed.

Lemma rebalance_keeps_contents_witness :
  exists t' w',
    rebalance (node "a" 1 NULL (node "c" 1 (createNode "b") NULL 2) 3) (boot (fun _ => 0))
    = Some (t', w') /\
    inorder t' = inorder (node "a" 1 NULL (node "c" 1 (createNode "b") NULL 2) 3) /\
    heights_ok t' /\
    (bst (node "a" 1 NULL (node "c" 1 (createNode "b") NULL 2) 3) -> bst t') /\
    stdout w' = stdout (boot (fun _ => 0)) /\ rand_calls w' = rand_calls (boot (fun _ => 0)).
Proof.
  apply (rebalance_keeps_contents (node "a" 1 NULL (node "c" 1 (createNode "b") NULL 2) 3)
           (boot (fun _ => 0))).
  simpl. repeat split; reflexivity.
Defined.

(** ** Further properties: the smallest and the largest node *)

(** X14. On a non-empty search tree [smallestIn] returns a node of the
    tree that has no left child and whose word is the first of the
    in-order sequence: every other key compares strictly greater. *)
Theorem smallestIn_minimum (t : Node) :
  bst t -> t <> NULL ->
  exists tw tc tr th,
    smallestIn t = Some (node tw tc NULL tr th) /\
    node_of (node tw tc NULL tr th) t /\
    (exists rest, inorder t = (tw, tc) :: rest) /\
    (forall x, In x (keys t) -> x = tw \/ slt tw x).
Proof.
  intros B N.
  assert (G : exists tw tc tr th rest,
             smallestIn t = Some (node tw tc NULL tr th) /\
             node_of (node tw tc NULL tr th) t /\ inorder t = (tw, tc) :: rest).
  { clear B. induction t as [| rw rc l IHl r IHr h]; [contradiction |].
    destruct l as [| lw lc ll lr lh].
    - exists rw, rc, r, h, (inorder r). split; [reflexivity |]. split; [now apply node_here | reflexivity].
    - destruct IHl as (tw & tc & tr & th & rest & E & P & I); [discriminate |].
      exists tw, tc, tr, th, (rest ++ (rw, rc) :: inorder r).
      split; [exact E |]. split; [now apply node_left |].
      change (inorder (node rw rc (node lw lc ll lr lh) r h))
        with (inorder (node lw lc ll lr lh) ++ (rw, rc) :: inorder r).
      now rewrite I. }
  destruct G as (tw & tc & tr & th & rest & E & P & I).
  exists tw, tc, tr, th. split; [exact E |]. split; [exact P |]. split; [now exists rest |].
  apply bst_ascending in B. unfold keys in *. rewrite I in *. cbn [List.map fst] in *.
  apply ascending_cons in B. destruct B as [_ F]. rewrite Forall_forall in F.
  intros x [<- | Hx]; [now left | right; now apply F].
Qed.

Lemma smallestIn_minimum_witness :
  exists tw tc tr th,
    smallestIn (node "b" 1 (createNode "a") (createNode "c") 2) = Some (node tw tc NULL tr th) /\
    node_of (node tw tc NULL tr th) (node "b" 1 (createNode "a") (createNode "c") 2) /\
    (exists rest, inorder (node "b" 1 (createNode "a") (createNode "c") 2) = (tw, tc) :: rest) /\
    (forall x, In x (keys (node "b" 1 (createNode "a") (createNode "c") 2)) -> x = tw \/ slt tw x).
Proof.
  apply (smallestIn_minimum (node "b" 1 (createNode "a") (createNode "c") 2)).
  - simpl. repeat split; repeat constructor.
  - discriminate.
Defined.

(** X15. On a non-empty search tree [largestIn] returns a node of the
    tree that has no right child and whose word is the last of the
    in-order sequence: every other key compares strictly less. *)
Theorem largestIn_maximum (t : Node) :
  bst t -> t <> NULL ->
  exists tw tc tl th,
    largestIn t = Some (node tw tc tl NULL th) /\
    node_of (node tw tc tl NULL th) t /\
    (exists front, inorder t = front ++ [(tw, tc)]) /\
    (forall x, In x (keys t) -> x = tw \/ slt x tw).
Proof.
  intros B N.
  assert (G : exists tw tc tl th front,
             largestIn t = Some (node tw tc tl NULL th) /\
             node_of (node tw tc tl NULL th) t /\ inorder t = front ++ [(tw, tc)]).
  { clear B. induction t as [| rw rc l IHl r IHr h]; [contradiction |].
    destruct r as [| xw xc xl xr xh].
    - exists rw, rc, l, h, (inorder l). split; [reflexivity |]. split; [now apply node_here | reflexivity].
    - destruct IHr as (tw & tc & tl & th & front & E & P & I); [discriminate |].
      exists tw, tc, tl, th, (inorder l ++ (rw, rc) :: front).
      split; [exact E |]. split; [now apply node_right |].
      change (inorder (node rw rc l (node xw xc xl xr xh) h))
        with (inorder l ++ (rw, rc) :: inorder (node xw xc xl xr xh)).
      rewrite I, <- app_assoc. reflexivity. }
  destruct G as (tw & tc & tl & th & front & E & P & I).
  exists tw, tc, tl, th. split; [exact E |]. split; [exact P |]. split; [now exists front |].
  apply bst_ascending in B. unfold keys in *. rewrite I in *. rewrite map_app in *.
  cbn [List.map fst] in *. apply ascending_app in B. destruct B as (_ & _ & C).
  intros x Hx. apply in_app_iff in Hx. destruct Hx as [Hx | [<- | []]].
  - right. apply C; [exact Hx | now left].
  - now left.
Qed.

Lemma largestIn_maximum_witness :
  exists tw tc tl th,
    largestIn (node "b" 1 (createNode "a") (createNode "c") 2) = Some (node tw tc tl NULL th) /\
    node_of (node tw tc tl NULL th) (node "b" 1 (createNode "a") (createNode "c") 2) /\
    (exists front, inorder (node "b" 1 (createNode "a") (createNode "c") 2) = front ++ [(tw, tc)]) /\
    (forall x, In x (keys (node "b" 1 (createNode "a") (createNode "c") 2)) -> x = tw \/ slt x tw).
Proof.
  apply (largestIn_maximum (node "b" 1 (createNode "a") (createNode "c") 2)).
  - simpl. repeat split; repeat constructor.
  - discriminate.
Defined.

(** ** Further properties: importing a file *)

Lemma append_empty_r (s : string) : (s ++ "")%string = s.
Proof. induction s as [| c s IH]; cbn; [reflexivity | now rewrite IH]. Qed.

Lemma append_snoc (s t : string) (c : ascii) :
  ((s ++ String c "") ++ t)%string = (s ++ String c t)%string.
Proof. induction s as [| d s IH]; cbn; [reflexivity | now rewrite IH]. Qed.

Lemma filled_app (s t : string) : filled (s ++ t) = filled s + filled t.
Proof.
  unfold filled. induction s as [| d s IH]; [reflexivity |].
  cbn [String.append String.length]. lia.
Qed.

Lemma filled_snoc (s : string) (c : ascii) : filled (s ++ String c "") = filled s + 1.
Proof. rewrite filled_app. reflexivity. Qed.

Lemma filled_nonneg (s : string) : 0 <= filled s.
Proof. unfold filled. lia. Qed.

Lemma filled_zero (s : string) : filled s = 0 <-> s = "".
Proof.
  unfold filled. destruct s; cbn [String.length]; split; intros H;
    try reflexivity; try discriminate; lia.
Qed.

Lemma store_ok (i size : Z) (w : World) : 0 <= i < size -> store i size w = Some (tt, w).
Proof.
  intros H. unfold store.
  assert (E : (0 <=? i) && (i <? size) = true) by (apply andb_true_iff; split; lia).
  now rewrite E.
Qed.

Lemma wrap_size_id (z : Z) : 0 <= z < 18446744073709551616 -> wrap_size z = z.
Proof. unfold wrap_size. intros H. now apply Z.mod_small. Qed.

(** One alphabetic byte, read while the index is below [INT_MAX] and
    the buffer is in order: the byte is stored inside the buffer, the
    index does not wrap and the buffer stays in order. *)
Lemma importLoop_byte (c : ascii) (rest : list ascii) (word : string) (size : Z)
    (tree : Tree) (w : World) :
  isalpha c = true -> buffer_ok word (filled word) size -> filled word < INT_MAX ->
  exists size',
    buffer_ok (word ++ String c "") (filled (word ++ String c "")) size' /\
    importLoop (c :: rest) word (filled word) size tree w
    = importLoop rest (word ++ String c "") (filled (word ++ String c "")) size' tree w.
Proof.
  intros C (_ & Lo & Hi) Bd. pose proof (filled_nonneg word) as N.
  unfold max_length in Hi. unfold INT_MAX in Bd.
  cbn [importLoop]. rewrite C.
  rewrite (bind_run _ _ _ _ _ (store_ok (filled word) size w ltac:(lia))).
  cbv zeta. rewrite filled_snoc.
  rewrite (wrap_int_id (filled word + 1)) by (unfold INT_MIN, INT_MAX; lia).
  rewrite (wrap_size_id (filled word + 1)) by lia.
  rewrite (wrap_size_id (size * 2)) by lia.
  eexists. split; [| reflexivity].
  unfold buffer_ok, max_length. split; [now rewrite filled_snoc |].
  destruct (filled word + 1 =? size) eqn:Q; lia.
Qed.

(** Reading the bytes of an alphabetic run shorter than [INT_MAX]:
    they are appended to the buffer, which never overflows. *)
Lemma importLoop_word (s : string) :
  forall (word : string) (size : Z) (rest : list ascii) (tree : Tree) (w : World),
  Forall (fun c => isalpha c = true) (list_ascii_of_string s) ->
  buffer_ok word (filled word) size ->
  filled (word ++ s) < INT_MAX ->
  exists size',
    buffer_ok (word ++ s) (filled (word ++ s)) size' /\
    importLoop (list_ascii_of_string s ++ rest) word (filled word) size tree w
    = importLoop rest (word ++ s) (filled (word ++ s)) size' tree w.
Proof.
  induction s as [| c s IH]; intros word size rest tree w A F Bd.
  - exists size. rewrite append_empty_r. split; [exact F | reflexivity].
  - cbn [list_ascii_of_string] in A. inversion A as [| ? ? Ac As]; subst.
    cbn [list_ascii_of_string app].
    rewrite <- append_snoc in Bd.
    assert (Bw : filled word < INT_MAX).
    { rewrite filled_app, filled_snoc in Bd. pose proof (filled_nonneg s). lia. }
    destruct (importLoop_byte c (list_ascii_of_string s ++ rest) word size tree w Ac F Bw)
      as (size1 & F1 & E1).
    rewrite E1.
    destruct (IH (word ++ String c "")%string size1 rest tree w As F1 Bd)
      as (size' & F' & E).
    exists size'. rewrite append_snoc in F', E. split; [exact F' | exact E].
Qed.

Lemma buffer_ok_fresh : buffer_ok "" (filled "") max_length.
Proof. unfold buffer_ok, max_length. cbn. lia. Qed.

Lemma importLoop_gap (g : list ascii) :
  forall (rest : list ascii) (tree : Tree) (w : World),
  is_gap g ->
  importLoop (g ++ rest) "" 0 max_length tree w = importLoop rest "" 0 max_length tree w.
Proof.
  induction g as [| c g IH]; intros rest tree w G; [reflexivity |].
  inversion G as [| ? ? Gc Gs]; subst.
  cbn [app importLoop]. rewrite Gc. cbn. now apply IH.
Qed.

Lemma finish_word_insert (word : string) (size : Z) (tree : Tree) (w : World) :
  word <> "" -> buffer_ok word (filled word) size ->
  finish_word word (filled word) size tree w = insert tree word w.
Proof.
  intros N (_ & Lo & _). unfold finish_word.
  assert (Q : negb (filled word =? 0) = true).
  { apply negb_true_iff, Z.eqb_neq. rewrite filled_zero. exact N. }
  rewrite Q. pose proof (filled_nonneg word).
  now rewrite (bind_run _ _ _ _ _ (store_ok (filled word) size w ltac:(lia))).
Qed.

Lemma importLoop_end_of_word (c : ascii) (word : string) (size : Z) (rest : list ascii)
    (tree : Tree) (w : World) :
  isalpha c = false -> word <> "" -> buffer_ok word (filled word) size ->
  importLoop (c :: rest) word (filled word) size tree w
  = (tree' <- insert tree word ;; importLoop rest "" 0 max_length tree') w.
Proof.
  intros C N F. cbn [importLoop]. rewrite C. unfold bind.
  now rewrite finish_word_insert.
Qed.

Lemma importLoop_eof (word : string) (size : Z) (tree : Tree) (w : World) :
  word <> "" -> buffer_ok word (filled word) size ->
  importLoop [] word (filled word) size tree w = insert tree word w.
Proof. intros N F. cbn [importLoop]. now apply finish_word_insert. Qed.

Lemma bind_ext {A B : Type} (m : M A) (k1 k2 : A -> M B) (w : World) :
  (forall a w1, k1 a w1 = k2 a w1) -> bind m k1 w = bind m k2 w.
Proof. intros H. unfold bind. destruct (m w) as [[a w1] |]; [apply H | reflexivity]. Qed.

Lemma run_app (cs1 cs2 : list command) :
  forall (tree : Tree) (w : World),
  run tree (cs1 ++ cs2) w = (tree' <- run tree cs1 ;; run tree' cs2) w.
Proof.
  induction cs1 as [| c cs1 IH]; intros tree w; [reflexivity |].
  cbn [app run]. unfold bind.
  destruct (execute tree c w) as [[t1 w1] |]; [| reflexivity].
  rewrite IH. reflexivity.
Qed.

(** The loop on a file made of words each followed by separators. *)
Lemma importLoop_pieces (ps : list (string * list ascii)) :
  forall (tail : list ascii) (tree : Tree) (w : World),
  Forall (fun p => is_word (fst p) /\ filled (fst p) < INT_MAX /\
                   snd p <> [] /\ is_gap (snd p)) ps ->
  importLoop (flatten ps ++ tail) "" 0 max_length tree w
  = (tree' <- run tree (List.map CmdInsert (List.map fst ps)) ;;
     importLoop tail "" 0 max_length tree') w.
Proof.
  induction ps as [| [wd sep] ps IH]; intros tail tree w F; [reflexivity |].
  inversion F as [| ? ? Fp Fs]; subst. cbn [fst snd] in Fp.
  destruct Fp as ((Wn & Wa) & Wb & Sn & Sg).
  destruct sep as [| c g]; [contradiction |].
  inversion Sg as [| ? ? Gc Gg]; subst.
  cbn [flatten List.map fst run execute]. rewrite <- !app_assoc. cbn [app].
  destruct (importLoop_word wd "" max_length (c :: g ++ flatten ps ++ tail) tree w Wa
              buffer_ok_fresh Wb)
    as (size' & F' & E).
  cbn [String.append] in F', E. change (filled "") with 0 in E. rewrite E.
  rewrite (importLoop_end_of_word c wd size' _ tree w Gc Wn F').
  unfold bind.
  destruct (insert tree wd w) as [[t1 w1] |]; [| reflexivity].
  rewrite (importLoop_gap g _ t1 w1 Gg). apply IH. exact Fs.
Qed.

Lemma importLoop_last (last : string) (tree : Tree) (w : World) :
  Forall (fun c => isalpha c = true) (list_ascii_of_string last) ->
  filled last < INT_MAX ->
  importLoop (list_ascii_of_string last) "" 0 max_length tree w
  = run tree (List.map CmdInsert (match last with EmptyString => [] | _ => [last] end)) w.
Proof.
  intros A Bd. destruct last as [| c s]; [reflexivity |].
  destruct (importLoop_word (String c s) "" max_length [] tree w A buffer_ok_fresh Bd)
    as (size' & F' & E).
  rewrite app_nil_r in E. cbn [String.append] in F', E. change (filled "") with 0 in E.
  rewrite E.
  rewrite importLoop_eof by (try discriminate; exact F').
  cbn [List.map run execute]. unfold bind.
  destruct (insert tree (String c s) w) as [[t1 w1] |]; reflexivity.
Qed.

(** X16. [importFile] inserts the maximal alphabetic runs of the file,
    in file order.  For a file made of a run of non-alphabetic bytes,
    then words (non-empty runs of fewer than [INT_MAX] letters) each
    followed by at least one non-alphabetic byte, then possibly a last
    word, also of fewer than [INT_MAX] letters, cut by the end of the
    file, [importFile] does exactly what inserting those words one
    after the other does, and returns 0; every other byte is
    dropped. *)
Theorem import_inserts_words (lead : list ascii) (ps : list (string * list ascii))
    (last : string) (tree : Tree) (w : World) :
  is_gap lead ->
  Forall (fun p => is_word (fst p) /\ filled (fst p) < INT_MAX /\
                   snd p <> [] /\ is_gap (snd p)) ps ->
  Forall (fun c => isalpha c = true) (list_ascii_of_string last) ->
  filled last < INT_MAX ->
  importFile (lead ++ flatten ps ++ list_ascii_of_string last) tree w
  = (tree' <- run tree (List.map CmdInsert
                          (List.map fst ps
                           ++ match last with EmptyString => [] | _ => [last] end)) ;;
     ret (0, tree')) w.
Proof.
  intros G F A Bd. unfold importFile. unfold bind.
  rewrite (importLoop_gap lead _ tree w G), (importLoop_pieces ps _ tree w F).
  rewrite map_app, run_app. unfold bind.
  destruct (run tree (List.map CmdInsert (List.map fst ps)) w) as [[t1 w1] |]; [| reflexivity].
  now rewrite importLoop_last.
Qed.

Lemma import_inserts_words_witness :
  importFile
    (list_ascii_of_string ", "
     ++ flatten [("the", list_ascii_of_string " "); ("cat", list_ascii_of_string "! ")]
     ++ list_ascii_of_string "the")
    createTree (boot (fun _ => 0))
  = (tree' <- run createTree
                (List.map CmdInsert
                   (List.map fst [("the", list_ascii_of_string " ");
                                  ("cat", list_ascii_of_string "! ")]
                    ++ match "the" with EmptyString => [] | _ => ["the"] end)) ;;
     ret (0, tree')) (boot (fun _ => 0)).
Proof.
  apply (import_inserts_words (list_ascii_of_string ", ")
           [("the", list_ascii_of_string " "); ("cat", list_ascii_of_string "! ")]
           "the" createTree (boot (fun _ => 0))).
  - repeat constructor.
  - repeat constructor; discriminate.
  - repeat constructor.
  - reflexivity.
Defined.

Lemma chars_snoc (s : string) (c : ascii) :
  list_ascii_of_string (s ++ String c "") = list_ascii_of_string s ++ [c].
Proof.
  induction s as [| d s IH]; [reflexivity |].
  cbn [String.append list_ascii_of_string app]. now rewrite IH.
Qed.

Lemma insert_full (tree : Tree) (k : string) (w : World) :
  bst (root tree) -> heights_ok (root tree) -> balanced (root tree) ->
  exists tree' w',
    insert tree k w = Some (tree', w') /\
    bst (root tree') /\ heights_ok (root tree') /\ balanced (root tree') /\
    same_io w w' /\
    (forall x, In x (keys (root tree')) -> x = k \/ In x (keys (root tree))).
Proof.
  intros B H A.
  destruct (insert_ok tree k w B H) as (t1 & w1 & E1 & I1 & B1 & H1 & S1).
  destruct (insert_keeps_invariants tree k w B H A) as (t2 & w2 & E2 & _ & _ & A2).
  rewrite E1 in E2. inversion E2; subst t2 w2.
  exists t1, w1. repeat split; try assumption; try apply S1.
  intros x Hx. unfold keys in Hx. rewrite I1 in Hx. now apply add_entry_keys in Hx.
Qed.

Lemma longest_run_ge (input : list ascii) : forall cur : Z, cur <= longest_run input cur.
Proof.
  induction input as [| c rest IH]; intros cur; cbn [longest_run]; [lia |].
  destruct (isalpha c); [specialize (IH (cur + 1)) |]; lia.
Qed.

Lemma importLoop_ok (input : list ascii) :
  forall (word : string) (size : Z) (tree : Tree) (w : World),
  buffer_ok word (filled word) size ->
  longest_run input (filled word) < INT_MAX ->
  Forall (fun c => isalpha c = true) (list_ascii_of_string word) ->
  bst (root tree) -> heights_ok (root tree) -> balanced (root tree) ->
  exists tree' w',
    importLoop input word (filled word) size tree w = Some (tree', w') /\
    bst (root tree') /\ heights_ok (root tree') /\ balanced (root tree') /\
    stdout w' = stdout w /\
    (forall x, In x (keys (root tree')) -> In x (keys (root tree)) \/ is_word x).
Proof.
  assert (Fin : forall word size tree w,
            buffer_ok word (filled word) size ->
            Forall (fun c => isalpha c = true) (list_ascii_of_string word) ->
            bst (root tree) -> heights_ok (root tree) -> balanced (root tree) ->
            exists tree' w',
              finish_word word (filled word) size tree w = Some (tree', w') /\
              bst (root tree') /\ heights_ok (root tree') /\ balanced (root tree') /\
              stdout w' = stdout w /\
              (forall x, In x (keys (root tree')) -> In x (keys (root tree)) \/ is_word x)).
  { intros word size tree w F A B H Bal.
    destruct (string_dec word "") as [-> | Nw].
    - exists tree, w. split; [reflexivity |]. repeat split; try assumption.
      intros x Hx. now left.
    - rewrite (finish_word_insert word size tree w Nw F).
      destruct (insert_full tree word w B H Bal) as (t1 & w1 & E1 & B1 & H1 & A1 & S1 & K1).
      exists t1, w1. repeat split; try assumption; try apply S1.
      intros x Hx. destruct (K1 x Hx) as [-> | Y]; [right | now left].
      split; [exact Nw | exact A]. }
  induction input as [| c rest IH]; intros word size tree w F Bd A B H Bal.
  - cbn [importLoop]. now apply Fin.
  - cbn [longest_run] in Bd. destruct (isalpha c) eqn:C.
    + pose proof (longest_run_ge rest (filled word + 1)) as G.
      destruct (importLoop_byte c rest word size tree w C F ltac:(lia)) as (size1 & F1 & E1).
      rewrite E1. apply IH; try assumption.
      * now rewrite filled_snoc.
      * rewrite chars_snoc, Forall_app. split; [exact A | now constructor].
    + cbn [importLoop]. rewrite C.
      destruct (Fin word size tree w F A B H Bal) as (t1 & w1 & E1 & B1 & H1 & A1 & S1 & K1).
      rewrite (bind_run _ _ _ _ _ E1).
      destruct (IH "" max_length t1 w1) as (t2 & w2 & E2 & B2 & H2 & A2 & S2 & K2);
        try assumption.
      * exact buffer_ok_fresh.
      * change (filled "") with 0. lia.
      * constructor.
      * exists t2, w2. split; [exact E2 |]. repeat split; try assumption; [congruence |].
        intros x Hx. destruct (K2 x Hx) as [Y | Y]; [now apply K1 | now right].
Qed.

(** X17. [importFile] on a file whose runs of letters are all shorter
    than [INT_MAX], whatever its other bytes.  On a tree that meets
    the three invariants [importFile] returns 0 and a tree that meets
    them; no write leaves the word buffer (it holds 80 bytes and is
    doubled when full); nothing is printed; and every key of the new
    tree was a key before or is a non-empty word of letters. *)
Theorem import_returns (fptr : list ascii) (tree : Tree) (w : World) :
  longest_run fptr 0 < INT_MAX ->
  bst (root tree) -> heights_ok (root tree) -> balanced (root tree) ->
  exists tree' w',
    importFile fptr tree w = Some ((0, tree'), w') /\
    bst (root tree') /\ heights_ok (root tree') /\ balanced (root tree') /\
    stdout w' = stdout w /\
    (forall x, In x (keys (root tree')) -> In x (keys (root tree)) \/ is_word x).
Proof.
  intros Bd B H A.
  destruct (importLoop_ok fptr "" max_length tree w) as (t & w' & E & R); try assumption.
  - exact buffer_ok_fresh.
  - constructor.
  - exists t, w'. unfold importFile. change (filled "") with 0 in E.
    rewrite (bind_run _ _ _ _ _ E). split; [reflexivity | exact R].
Qed.

Lemma import_returns_witness :
  exists tree' w',
    importFile (list_ascii_of_string "to be, or not to be") createTree (boot (fun _ => 0))
    = Some ((0, tree'), w') /\
    bst (root tree') /\ heights_ok (root tree') /\ balanced (root tree') /\
    stdout w' = stdout (boot (fun _ => 0)) /\
    (forall x, In x (keys (root tree')) -> In x (keys (root createTree)) \/ is_word x).
Proof.
  apply (import_returns (list_ascii_of_string "to be, or not to be") createTree
           (boot (fun _ => 0))); [reflexivity | exact I | exact I | exact I].
Defined.

(** X18. Import then search.  For a file laid out as in X16, imported
    into a tree that meets the BST-order and height invariants,
    [importFile] returns, and afterwards [search] reports every word
    that does not occur among the file's words as before, and finds
    each word that does with its old count (0 when absent) plus the
    number of times it occurs among them, provided the old count is an
    [int] and that sum does not exceed [INT_MAX]. *)
Theorem import_then_search (lead : list ascii) (ps : list (string * list ascii))
    (last : string) (tree : Tree) (k : string) (w : World) :
  is_gap lead ->
  Forall (fun p => is_word (fst p) /\ filled (fst p) < INT_MAX /\
                   snd p <> [] /\ is_gap (snd p)) ps ->
  Forall (fun c => isalpha c = true) (list_ascii_of_string last) ->
  filled last < INT_MAX ->
  bst (root tree) -> heights_ok (root tree) ->
  (occurrences k (List.map fst ps ++ match last with EmptyString => [] | _ => [last] end) <> 0 ->
   INT_MIN <= count_in k (inorder (root tree)) /\
   count_in k (inorder (root tree))
   + occurrences k (List.map fst ps ++ match last with EmptyString => [] | _ => [last] end)
   <= INT_MAX) ->
  exists tree' w',
    importFile (lead ++ flatten ps ++ list_ascii_of_string last) tree w
    = Some ((0, tree'), w') /\
    count_of (search tree' k) =
    if occurrences k (List.map fst ps ++ match last with EmptyString => [] | _ => [last] end) =? 0
    then count_of (search tree k)
    else Some (count_in k (inorder (root tree))
               + occurrences k (List.map fst ps
                                ++ match last with EmptyString => [] | _ => [last] end)).
Proof.
  intros G F A Bl B H Bd.
  set (ws := List.map fst ps ++ match last with EmptyString => [] | _ => [last] end) in *.
  destruct (run_inserts_ok ws tree w B H) as (t & w' & E & B' & _ & _ & L).
  exists t, w'. split.
  - unfold importFile, bind.
    rewrite (importLoop_gap lead _ tree w G), (importLoop_pieces ps _ tree w F).
    unfold ws in E. rewrite map_app, run_app in E. unfold bind in *.
    destruct (run tree (List.map CmdInsert (List.map fst ps)) w) as [[t1 w1] |]; [| discriminate].
    rewrite importLoop_last by assumption. now rewrite E.
  - rewrite !search_root, (searchAux_lookup _ _ B'), (searchAux_lookup _ _ B), L.
    now apply iter_bump_count.
Qed.

Lemma import_then_search_witness :
  exists tree' w',
    importFile
      (list_ascii_of_string ", "
       ++ flatten [("the", list_ascii_of_string " "); ("cat", list_ascii_of_string "! ")]
       ++ list_ascii_of_string "the")
      createTree (boot (fun _ => 0))
    = Some ((0, tree'), w') /\
    count_of (search tree' "the") =
    if occurrences "the"
         (List.map fst [("the", list_ascii_of_string " "); ("cat", list_ascii_of_string "! ")]
          ++ match "the" with EmptyString => [] | _ => ["the"] end) =? 0
    then count_of (search createTree "the")
    else Some (count_in "the" (inorder (root createTree))
               + occurrences "the"
                   (List.map fst [("the", list_ascii_of_string " ");
                                  ("cat", list_ascii_of_string "! ")]
                    ++ match "the" with EmptyString => [] | _ => ["the"] end)).
Proof.
  apply (import_then_search (list_ascii_of_string ", ")
           [("the", list_ascii_of_string " "); ("cat", list_ascii_of_string "! ")]
           "the" createTree "the" (boot (fun _ => 0))).
  - repeat constructor.
  - repeat constructor; discriminate.
  - repeat constructor.
  - reflexivity.
  - exact I.
  - exact I.
  - intros _. vm_compute. split; discriminate.
Defined.

(** ** Further properties: the file selectors *)

Lemma offset_append (stem t : string) : offset (stem ++ t) (String.length stem) = t.
Proof. induction stem as [| c s IH]; [now destruct t | exact IH]. Qed.

Lemma offset_split (s : string) (k : nat) :
  (k <= String.length s)%nat ->
  exists stem, s = (stem ++ offset s k)%string /\
               String.length (offset s k) = (String.length s - k)%nat.
Proof.
  revert s. induction k as [| k IH]; intros s L.
  - exists ""%string. split; [reflexivity | cbn; lia].
  - destruct s as [| c s]; [cbn in L; lia |].
    cbn [String.length] in L. destruct (IH s ltac:(lia)) as (stem & E & Len).
    exists (String c stem). cbn [offset String.append String.length].
    split; [now rewrite <- E | exact Len].
Qed.

Lemma length_append (s t : string) :
  String.length (s ++ t) = (String.length s + String.length t)%nat.
Proof. induction s as [| c s IH]; [reflexivity | cbn; now rewrite IH]. Qed.

Lemma ascii_compare_refl (c : ascii) : Ascii.compare c c = Eq.
Proof. unfold Ascii.compare. apply N.compare_refl. Qed.

Lemma strncmp_same_length (n : nat) :
  forall a b : string,
  String.length a = n -> String.length b = n ->
  (strncmp a b n = 0 <-> a = b).
Proof.
  induction n as [| n IH]; intros a b La Lb.
  - destruct a; [| discriminate]. destruct b; [| discriminate]. tauto.
  - destruct a as [| x a]; [discriminate |]. destruct b as [| y b]; [discriminate |].
    cbn [String.length] in La, Lb. cbn [strncmp].
    destruct (Ascii.compare x y) eqn:C.
    + apply Ascii.compare_eq_iff in C. subst y.
      rewrite (IH a b ltac:(lia) ltac:(lia)). split; [now intros -> | now intros [= ->]].
    + split; [lia |]. intros [= -> _]. now rewrite ascii_compare_refl in C.
    + split; [lia |]. intros [= -> _]. now rewrite ascii_compare_refl in C.
Qed.

(** X19. [isTextFile] accepts exactly the regular files whose name ends
    in ".txt": it returns 1 when [d_type] is [DT_REG] and the name is
    some (possibly empty) stem followed by ".txt", and 0 otherwise, in
    particular for every name of fewer than four bytes. *)
Theorem isTextFile_accepts (DT_REG : Z) (dir : dirent) :
  (isTextFile DT_REG dir = 1 \/ isTextFile DT_REG dir = 0) /\
  (isTextFile DT_REG dir = 1 <->
   d_type dir = DT_REG /\ exists stem, d_name dir = (stem ++ ".txt")%string).
Proof.
  unfold isTextFile, strlen.
  destruct (d_type dir =? DT_REG) eqn:T.
  2:{ split; [now right |]. apply Z.eqb_neq in T. split; [discriminate | tauto]. }
  apply Z.eqb_eq in T.
  destruct (4 >? Z.of_nat (String.length (d_name dir))) eqn:L.
  - split; [now right |]. split; [discriminate |].
    intros (_ & stem & E). rewrite E, length_append in L. cbn [String.length] in L.
    rewrite Z.gtb_ltb, Z.ltb_lt in L. lia.
  - rewrite Z.gtb_ltb, Z.ltb_ge in L.
    assert (K : (Z.to_nat (Z.of_nat (String.length (d_name dir)) - 4)
                 <= String.length (d_name dir))%nat) by lia.
    destruct (offset_split _ _ K) as (stem & E & Len).
    set (suffix := offset (d_name dir) (Z.to_nat (Z.of_nat (String.length (d_name dir)) - 4))) in *.
    assert (L4 : String.length suffix = 4%nat) by lia.
    pose proof (strncmp_same_length 4 suffix ".txt" L4 eq_refl) as S.
    destruct (0 =? strncmp suffix ".txt" 4) eqn:Q.
    + split; [now left |]. split; [intros _ | reflexivity].
      split; [exact T |]. exists stem. rewrite E at 1. f_equal. apply S. lia.
    + split; [now right |]. split; [discriminate |].
      intros (_ & stem' & E'). exfalso.
      assert (X : suffix = ".txt"%string).
      { unfold suffix. rewrite E', length_append. cbn [String.length].
        replace (Z.to_nat (Z.of_nat (String.length stem' + 4) - 4)) with (String.length stem') by lia.
        apply offset_append. }
      apply S in X. lia.
Qed.

(** ** Further properties: what the loop reports and repeated inserts *)

(** X20. What case 2 of the loop prints.  On a search tree, a search
    command prints the found line with the word and the count the tree
    holds for it when the word is a key, and the word-not-found line
    when it is not; the tree is returned as it was. *)
Theorem search_reports (tree : Tree) (k : string) (w : World) :
  bst (root tree) ->
  execute tree (CmdSearch k) w =
  Some (tree,
        mkWorld (rand_src w) (rand_calls w)
          (stdout w ++ [match lookup k (inorder (root tree)) with
                        | Some c => FoundLine c k
                        | None => WordNotFoundLine
                        end])
          (rotations w)).
Proof.
  intros B. cbn [execute]. rewrite search_root.
  pose proof (searchAux_lookup (root tree) k B) as L.
  destruct (searchAux (root tree) k) as [| rw rc l r h] eqn:E.
  - cbn [count_of] in L. now rewrite <- L.
  - destruct (searchAux_found _ _ _ _ _ _ _ E) as [-> _].
    cbn [count_of] in L. now rewrite <- L.
Qed.

Lemma search_reports_witness :
  execute (mkTree (node "b" 2 (createNode "a") (createNode "c") 2)) (CmdSearch "b")
    (boot (fun _ => 0))
  = Some (mkTree (node "b" 2 (createNode "a") (createNode "c") 2),
          mkWorld (rand_src (boot (fun _ => 0))) (rand_calls (boot (fun _ => 0)))
            (stdout (boot (fun _ => 0))
             ++ [match lookup "b" (inorder (root (mkTree (node "b" 2 (createNode "a")
                                                            (createNode "c") 2)))) with
                 | Some c => FoundLine c "b"
                 | None => WordNotFoundLine
                 end])
            (rotations (boot (fun _ => 0)))).
Proof.
  apply (search_reports (mkTree (node "b" 2 (createNode "a") (createNode "c") 2)) "b"
           (boot (fun _ => 0))).
  simpl. repeat split; repeat constructor.
Defined.

Lemma insertAux_existing (t : Node) :
  forall (k : string) (w : World),
  bst t -> heights_ok t -> balanced t -> In k (keys t) ->
  exists t',
    insertAux t k w = Some (t', w) /\ skeleton t' = skeleton t.
Proof.
  induction t as [| rw rc l IHl r IHr h]; intros k w B H A Hin; [contradiction |].
  pose proof B as B0. cbn [bst] in B. destruct B as (Fl & Fr & Bl & Br).
  pose proof H as H0. cbn [heights_ok] in H. destruct H as (Hh & Hl & Hr).
  pose proof A as A0. cbn [balanced] in A. destruct A as (Ab & Al & Ar).
  rewrite keys_node, in_app_iff in Hin. simpl in Hin. cbn [insertAux].
  destruct (strcmp_cases k rw) as [(E & L) | [(E1 & E2 & L) | (E1 & E2 & Heq)]].
  - rewrite E.
    assert (Hr' : In k (keys r)).
    { destruct Hin as [X | [X | X]]; [| subst; destruct (slt_irrefl _ L) | exact X].
      destruct (bst_not_in_left _ _ _ _ _ _ B0 (or_introl L) X). }
    destruct (IHr k w Br Hr Ar Hr') as (r' & Er & Sr).
    destruct (skeleton_eq_heights _ _ Sr) as [Eh Et].
    exists (node rw rc l r' h). rewrite (bind_run _ _ _ _ _ Er).
    split; [| cbn [skeleton]; now rewrite Sr].
    apply retrace_steady; [| lia].
    cbn [heights_ok]. rewrite Et. repeat split; try assumption.
    apply skeleton_heights_ok. rewrite Sr. now apply skeleton_heights_ok.
  - rewrite E1, E2.
    assert (Hl' : In k (keys l)).
    { destruct Hin as [X | [X | X]]; [exact X | subst; destruct (slt_irrefl _ L) |].
      destruct (bst_not_in_right _ _ _ _ _ _ B0 (or_introl L) X). }
    destruct (IHl k w Bl Hl Al Hl') as (l' & El & Sl).
    destruct (skeleton_eq_heights _ _ Sl) as [Eh Et].
    exists (node rw rc l' r h). rewrite (bind_run _ _ _ _ _ El).
    split; [| cbn [skeleton]; now rewrite Sl].
    apply retrace_steady; [| lia].
    cbn [heights_ok]. rewrite Et. repeat split; try assumption.
    apply skeleton_heights_ok. rewrite Sl. now apply skeleton_heights_ok.
  - rewrite E1, E2. exists (node rw (wrap_int (rc + 1)) l r h).
    split; [apply retrace_steady; [exact H0 | exact Ab] | reflexivity].
Qed.

(** X21. Inserting a word the tree already holds.  On a tree that
    meets the three invariants, [insert] of a key whose count is an
    [int] below [INT_MAX] creates no node and moves none: the words,
    links and height fields are as before, no rotation is performed,
    and only that word's count grows, by one. *)
Theorem insert_existing_counts (tree : Tree) (k : string) (c : Z) (w : World) :
  bst (root tree) -> heights_ok (root tree) -> balanced (root tree) ->
  count_of (search tree k) = Some c ->
  INT_MIN <= c < INT_MAX ->
  exists tree',
    insert tree k w = Some (tree', w) /\
    skeleton (root tree') = skeleton (root tree) /\
    count_of (search tree' k) = Some (c + 1) /\
    (forall x, x <> k -> count_of (search tree' x) = count_of (search tree x)).
Proof.
  intros B H A C Bd.
  destruct (insert_ok tree k w B H) as (t1 & w1 & E1 & I1 & B1 & H1 & _).
  rewrite search_root, (searchAux_lookup _ _ B) in C.
  assert (Hin : In k (keys (root tree))).
  { unfold keys. apply lookup_keys_iff. congruence. }
  destruct tree as [t]. cbn [root] in *.
  destruct t as [| rw rc l r h]; [contradiction |].
  destruct (insertAux_existing _ k w B H A Hin) as (t' & E & S).
  unfold insert in E1 |- *. cbn [root] in E1 |- *.
  rewrite (bind_run _ _ _ _ _ E) in E1 |- *. inversion E1; subst t1 w1.
  exists (mkTree t'). cbn [root] in *. split; [reflexivity |]. split; [exact S |].
  split.
  - rewrite search_root. cbn [root]. rewrite (searchAux_lookup _ _ B1), I1.
    rewrite lookup_add_entry_same by (apply bst_ascending in B; exact B). rewrite C.
    unfold bump. now rewrite wrap_int_id by lia.
  - intros x X. rewrite !search_root. cbn [root].
    rewrite (searchAux_lookup _ _ B1), (searchAux_lookup _ _ B), I1.
    now apply lookup_add_entry_other.
Qed.

Lemma insert_existing_counts_witness :
  exists tree',
    insert (mkTree (node "b" 2 (createNode "a") (createNode "c") 2)) "c" (boot (fun _ => 0))
    = Some (tree', boot (fun _ => 0)) /\
    skeleton (root tree') = skeleton (root (mkTree (node "b" 2 (createNode "a") (createNode "c") 2))) /\
    count_of (search tree' "c") = Some (1 + 1) /\
    (forall x, x <> "c" ->
       count_of (search tree' x)
       = count_of (search (mkTree (node "b" 2 (createNode "a") (createNode "c") 2)) x)).
Proof.
  apply (insert_existing_counts (mkTree (node "b" 2 (createNode "a") (createNode "c") 2)) "c" 1
           (boot (fun _ => 0))).
  - simpl. repeat split; repeat constructor.
  - simpl. repeat split; reflexivity.
  - simpl. repeat split; lia.
  - reflexivity.
  - unfold INT_MIN, INT_MAX. lia.
Defined.
